(** * keyring-node: a shallow embedding of [keyring.js] and its properties

    The module under study encrypts a string into an envelope
    [base64 (hmac ++ iv ++ ciphertext)], decrypts it given the id of the key
    that was used, and computes a salted SHA-1 digest of the plaintext.

    The first part of the file is the model: the JavaScript values the
    code manipulates, the primitives of the Node runtime it calls
    ([Buffer], [parseInt], [crypto]) written out as executable functions,
    and then the functions of [keyring.js] under the names they have in the
    source.  The second part states and proves the properties. *)

From Stdlib Require Import String Ascii.
From Stdlib Require Import ZArith List Bool Lia Permutation.
Import ListNotations.
Open Scope Z_scope.

(* ===================================================================== *)
(** * Part I: the model                                                   *)
(* ===================================================================== *)

(** ** Bytes and buffers

    A [Buffer] is a list of bytes; a byte is an integer in [0, 256). *)

Abbreviation byte := Z (only parsing).
Abbreviation Buffer := (list Z) (only parsing).

Definition byte_ok (b : Z) : Prop := 0 <= b < 256.
Definition bytes_ok (l : list Z) : Prop := Forall byte_ok l.

Definition len {A} (l : list A) : Z := Z.of_nat (length l).

(** [buf.subarray(start, end)] and [buf.subarray(start)] for
    [0 <= start <= end]; indices beyond the length are clamped, as
    [Buffer.prototype.subarray] does. *)
Definition subarray (buf : Buffer) (s e : nat) : Buffer :=
  firstn (e - s) (skipn s buf).
Definition subarray_from (buf : Buffer) (s : nat) : Buffer := skipn s buf.

(** Cutting a list into consecutive pieces of [n] elements (the last one
    may be shorter). *)
Fixpoint chunks_aux {A} (fuel n : nat) (l : list A) : list (list A) :=
  match fuel with
  | O => []
  | S f =>
      match l with
      | [] => []
      | _ => firstn n l :: chunks_aux f n (skipn n l)
      end
  end.
Definition chunks {A} (n : nat) (l : list A) : list (list A) :=
  chunks_aux (length l) n l.

(** All byte values, for properties checked on each of them. *)
Definition all_bytes : list Z := map Z.of_nat (seq 0 256).

(** ** JavaScript strings

    A JavaScript string is a sequence of UTF-16 code units.  [js] writes an
    ASCII literal as such a sequence. *)

Abbreviation jsstring := (list Z) (only parsing).

Definition unit_ok (u : Z) : Prop := 0 <= u < 65536.
Definition jsstring_ok (s : jsstring) : Prop := Forall unit_ok s.

Fixpoint js (s : string) : jsstring :=
  match s with
  | EmptyString => []
  | String c r => Z.of_N (N_of_ascii c) :: js r
  end.

Definition is_high_surrogate (u : Z) : bool := (0xD800 <=? u) && (u <=? 0xDBFF).
Definition is_low_surrogate (u : Z) : bool := (0xDC00 <=? u) && (u <=? 0xDFFF).

(** A string is well formed when every surrogate code unit is part of a
    high/low pair. *)
Fixpoint well_formed (s : jsstring) : bool :=
  match s with
  | [] => true
  | u :: rest =>
      if is_high_surrogate u then
        match rest with
        | v :: rest' => is_low_surrogate v && well_formed rest'
        | [] => false
        end
      else if is_low_surrogate u then false
      else well_formed rest
  end.

Definition string_eqb (a b : jsstring) : bool :=
  if list_eq_dec Z.eq_dec a b then true else false.

(** ** UTF-8, as [Buffer.from(string)], [hash.update(string)] and
    [buffer.toString()] use it *)

Module Utf8.

Definition replacement : list Z := [0xEF; 0xBF; 0xBD].

Definition enc2 (u : Z) : list Z := [0xC0 + u / 64; 0x80 + u mod 64].
Definition enc3 (u : Z) : list Z :=
  [0xE0 + u / 4096; 0x80 + (u / 64) mod 64; 0x80 + u mod 64].
Definition enc4 (c : Z) : list Z :=
  [0xF0 + c / 262144; 0x80 + (c / 4096) mod 64;
   0x80 + (c / 64) mod 64; 0x80 + c mod 64].

Definition pair_code_point (hi lo : Z) : Z :=
  0x10000 + (hi - 0xD800) * 1024 + (lo - 0xDC00).

(** Encoding: an unpaired surrogate is written as U+FFFD. *)
Fixpoint encode (s : jsstring) : Buffer :=
  match s with
  | [] => []
  | u :: rest =>
      if u <? 0x80 then u :: encode rest
      else if u <? 0x800 then enc2 u ++ encode rest
      else if is_high_surrogate u then
        match rest with
        | v :: rest' =>
            if is_low_surrogate v
            then enc4 (pair_code_point u v) ++ encode rest'
            else replacement ++ encode rest
        | [] => replacement
        end
      else if is_low_surrogate u then replacement ++ encode rest
      else enc3 u ++ encode rest
  end.

Definition cont (b : Z) : bool := (0x80 <=? b) && (b <=? 0xBF).
Definition between (lo hi b : Z) : bool := (lo <=? b) && (b <=? hi).

(** The code units of a code point. *)
Definition units (c : Z) : list Z :=
  if c <? 0x10000 then [c]
  else [0xD800 + (c - 0x10000) / 1024; 0xDC00 + (c - 0x10000) mod 1024].

(** Bounds of the second byte after a lead byte of a three-byte
    sequence, and of a four-byte sequence. *)
Definition second3 (b0 : Z) : Z * Z :=
  if b0 =? 0xE0 then (0xA0, 0xBF)
  else if b0 =? 0xED then (0x80, 0x9F)
  else (0x80, 0xBF).
Definition second4 (b0 : Z) : Z * Z :=
  if b0 =? 0xF0 then (0x90, 0xBF)
  else if b0 =? 0xF4 then (0x80, 0x8F)
  else (0x80, 0xBF).

(** Decoding: every maximal ill-formed part is replaced by U+FFFD. *)
Fixpoint decode (bs : Buffer) : jsstring :=
  match bs with
  | [] => []
  | b0 :: r0 =>
      if b0 <? 0x80 then b0 :: decode r0
      else if between 0xC2 0xDF b0 then
        match r0 with
        | b1 :: r1 =>
            if cont b1
            then ((b0 - 0xC0) * 64 + (b1 - 0x80)) :: decode r1
            else 0xFFFD :: decode r0
        | [] => [0xFFFD]
        end
      else if between 0xE0 0xEF b0 then
        match r0 with
        | b1 :: r1 =>
            if between (fst (second3 b0)) (snd (second3 b0)) b1 then
              match r1 with
              | b2 :: r2 =>
                  if cont b2
                  then ((b0 - 0xE0) * 4096 + (b1 - 0x80) * 64 + (b2 - 0x80))
                         :: decode r2
                  else 0xFFFD :: decode r1
              | [] => [0xFFFD]
              end
            else 0xFFFD :: decode r0
        | [] => [0xFFFD]
        end
      else if between 0xF0 0xF4 b0 then
        match r0 with
        | b1 :: r1 =>
            if between (fst (second4 b0)) (snd (second4 b0)) b1 then
              match r1 with
              | b2 :: r2 =>
                  if cont b2 then
                    match r2 with
                    | b3 :: r3 =>
                        if cont b3
                        then units ((b0 - 0xF0) * 262144 + (b1 - 0x80) * 4096
                                    + (b2 - 0x80) * 64 + (b3 - 0x80))
                               ++ decode r3
                        else 0xFFFD :: decode r2
                    | [] => [0xFFFD]
                    end
                  else 0xFFFD :: decode r1
              | [] => [0xFFFD]
              end
            else 0xFFFD :: decode r0
        | [] => [0xFFFD]
        end
      else 0xFFFD :: decode r0
  end.

End Utf8.

(** ** Hexadecimal rendering, as [hash.digest("hex")] *)

Module Hex.

Definition digit (n : Z) : Z :=
  if n <? 10 then 48 + n else 87 + n.

Definition of_byte (b : Z) : list Z := [digit (b / 16); digit (b mod 16)].

Definition of_bytes (bs : Buffer) : jsstring := flat_map of_byte bs.

Definition lower_hex_char (u : Z) : bool :=
  ((48 <=? u) && (u <=? 57)) || ((97 <=? u) && (u <=? 102)).

End Hex.

(** ** 32-bit words *)

Module Word32.

Definition modulus : Z := 4294967296.
Definition wrap (x : Z) : Z := x mod modulus.
Definition add (x y : Z) : Z := wrap (x + y).
Definition rotl (n x : Z) : Z :=
  Z.lor (wrap (Z.shiftl x n)) (Z.shiftr x (32 - n)).
Definition rotr (n x : Z) : Z :=
  Z.lor (Z.shiftr x n) (wrap (Z.shiftl x (32 - n))).
Definition neg (x : Z) : Z := Z.lxor x 4294967295.

Definition of_bytes (l : list Z) : Z :=
  fold_left (fun acc b => acc * 256 + b) l 0.
Definition to_bytes (w : Z) : list Z :=
  [(w / 16777216) mod 256; (w / 65536) mod 256; (w / 256) mod 256; w mod 256].

(** The 64-bit big-endian length field that ends the padding. *)
Definition length_field (bits : Z) : list Z :=
  to_bytes (bits / modulus) ++ to_bytes (bits mod modulus).

(** Merkle-Damgard padding shared by SHA-1 and SHA-256. *)
Definition pad (msg : list Z) : list Z :=
  let n := len msg in
  msg ++ [128] ++ repeat 0 (Z.to_nat ((55 - n) mod 64))
      ++ length_field (8 * n).

Definition words_of_block (blk : list Z) : list Z :=
  map of_bytes (chunks 4 blk).

End Word32.

(** ** SHA-1 (FIPS 180-4), as [crypto.createHash("sha1")] *)

Module Sha1.
Import Word32.

Definition state := (Z * Z * Z * Z * Z)%type.

Definition init : state :=
  (0x67452301, 0xEFCDAB89, 0x98BADCFE, 0x10325476, 0xC3D2E1F0).

Definition f (t b c d : Z) : Z :=
  if t <? 20 then Z.lor (Z.land b c) (Z.land (neg b) d)
  else if t <? 40 then Z.lxor (Z.lxor b c) d
  else if t <? 60 then Z.lor (Z.lor (Z.land b c) (Z.land b d)) (Z.land c d)
  else Z.lxor (Z.lxor b c) d.

Definition k (t : Z) : Z :=
  if t <? 20 then 0x5A827999
  else if t <? 40 then 0x6ED9EBA1
  else if t <? 60 then 0x8F1BBCDC
  else 0xCA62C1D6.

(** The schedule is kept most recent word first. *)
Fixpoint extend (n : nat) (rev_w : list Z) : list Z :=
  match n with
  | O => rev_w
  | S n' =>
      let w := rotl 1 (Z.lxor (Z.lxor (nth 2 rev_w 0) (nth 7 rev_w 0))
                              (Z.lxor (nth 13 rev_w 0) (nth 15 rev_w 0))) in
      extend n' (w :: rev_w)
  end.

Definition schedule (blk : list Z) : list Z :=
  rev (extend 64 (rev (words_of_block blk))).

Definition round (st : state) (tw : Z * Z) : state :=
  let '(a, b, c, d, e) := st in
  let '(t, w) := tw in
  let temp := add (add (add (add (rotl 5 a) (f t b c d)) e) (k t)) w in
  (temp, a, rotl 30 b, c, d).

Definition compress (st : state) (blk : list Z) : state :=
  let w := schedule blk in
  let '(a, b, c, d, e) :=
    fold_left round (combine (map Z.of_nat (seq 0 80)) w) st in
  let '(h0, h1, h2, h3, h4) := st in
  (add h0 a, add h1 b, add h2 c, add h3 d, add h4 e).

Definition output (st : state) : list Z :=
  let '(h0, h1, h2, h3, h4) := st in
  to_bytes h0 ++ to_bytes h1 ++ to_bytes h2 ++ to_bytes h3 ++ to_bytes h4.

Definition hash (msg : list Z) : list Z :=
  output (fold_left compress (chunks 64 (pad msg)) init).

End Sha1.

(** ** SHA-256 (FIPS 180-4) and HMAC (RFC 2104), as
    [crypto.createHmac("sha256", key)] *)

Module Sha256.
Import Word32.

Definition state := (Z * Z * Z * Z * Z * Z * Z * Z)%type.

(** The integer part of the [k]-th root of [n], by bisection between [lo]
    and [hi]. *)
Fixpoint root_between (fuel : nat) (k n lo hi : Z) : Z :=
  match fuel with
  | O => lo
  | S f =>
      let mid := (lo + hi) / 2 in
      if mid ^ k <=? n then root_between f k n mid hi
      else root_between f k n lo mid
  end.

Definition root (k n : Z) : Z := root_between 48 k n 0 (2 ^ 40).

Definition is_prime (n : nat) : bool :=
  forallb (fun d => negb (n mod d =? 0)%nat) (seq 2 (n - 2)).

Definition primes : list Z :=
  map Z.of_nat (filter is_prime (seq 2 310)).

(** The first 32 bits of the fractional part of the [k]-th root of [p]. *)
Definition fractional_bits (k p : Z) : Z :=
  root k (p * 2 ^ (32 * k)) mod modulus.

(** The initial hash value: from the square roots of the first eight
    primes. *)
Definition init : state :=
  Eval vm_compute in
    match map (fractional_bits 2) (firstn 8 primes) with
    | [a; b; c; d; e; f; g; h] => (a, b, c, d, e, f, g, h)
    | _ => (0, 0, 0, 0, 0, 0, 0, 0)
    end.

(** The round constants: from the cube roots of the first sixty-four
    primes. *)
Definition K : list Z :=
  Eval vm_compute in map (fractional_bits 3) (firstn 64 primes).

Definition Ch (x y z : Z) : Z := Z.lxor (Z.land x y) (Z.land (neg x) z).
Definition Maj (x y z : Z) : Z :=
  Z.lxor (Z.lxor (Z.land x y) (Z.land x z)) (Z.land y z).
Definition Sigma0 (x : Z) : Z :=
  Z.lxor (Z.lxor (rotr 2 x) (rotr 13 x)) (rotr 22 x).
Definition Sigma1 (x : Z) : Z :=
  Z.lxor (Z.lxor (rotr 6 x) (rotr 11 x)) (rotr 25 x).
Definition sigma0 (x : Z) : Z :=
  Z.lxor (Z.lxor (rotr 7 x) (rotr 18 x)) (Z.shiftr x 3).
Definition sigma1 (x : Z) : Z :=
  Z.lxor (Z.lxor (rotr 17 x) (rotr 19 x)) (Z.shiftr x 10).

(** The schedule is kept most recent word first. *)
Fixpoint extend (n : nat) (rev_w : list Z) : list Z :=
  match n with
  | O => rev_w
  | S n' =>
      let w := add (add (sigma1 (nth 1 rev_w 0)) (nth 6 rev_w 0))
                   (add (sigma0 (nth 14 rev_w 0)) (nth 15 rev_w 0)) in
      extend n' (w :: rev_w)
  end.

Definition schedule (blk : list Z) : list Z :=
  rev (extend 48 (rev (words_of_block blk))).

Definition round (st : state) (kw : Z * Z) : state :=
  let '(a, b, c, d, e, f, g, h) := st in
  let '(k, w) := kw in
  let t1 := add (add (add (add h (Sigma1 e)) (Ch e f g)) k) w in
  let t2 := add (Sigma0 a) (Maj a b c) in
  (add t1 t2, a, b, c, add d t1, e, f, g).

Definition compress (st : state) (blk : list Z) : state :=
  let '(a, b, c, d, e, f, g, h) :=
    fold_left round (combine K (schedule blk)) st in
  let '(h0, h1, h2, h3, h4, h5, h6, h7) := st in
  (add h0 a, add h1 b, add h2 c, add h3 d,
   add h4 e, add h5 f, add h6 g, add h7 h).

Definition output (st : state) : list Z :=
  let '(h0, h1, h2, h3, h4, h5, h6, h7) := st in
  to_bytes h0 ++ to_bytes h1 ++ to_bytes h2 ++ to_bytes h3
    ++ to_bytes h4 ++ to_bytes h5 ++ to_bytes h6 ++ to_bytes h7.

Definition hash (msg : list Z) : list Z :=
  output (fold_left compress (chunks 64 (pad msg)) init).

End Sha256.

Module Hmac.

Definition block_size : nat := 64.

Definition block_key (key : Buffer) : Buffer :=
  let k := if (64 <? len key) then Sha256.hash key else key in
  k ++ repeat 0 (block_size - length k).

Definition sha256 (key msg : Buffer) : Buffer :=
  let k := block_key key in
  Sha256.hash (map (Z.lxor 0x5c) k ++ Sha256.hash (map (Z.lxor 0x36) k ++ msg)).

End Hmac.

(** ** Base64, as [buffer.toString("base64")] and
    [Buffer.from(string, "base64")] *)

Module Base64.

Definition char_of (n : Z) : Z :=
  if n <? 26 then 65 + n
  else if n <? 52 then 71 + n
  else if n <? 62 then n - 4
  else if n =? 62 then 43
  else 47.

Definition pad_char : Z := 61.

Fixpoint encode (bs : Buffer) : jsstring :=
  match bs with
  | [] => []
  | [a] => [char_of (a / 4); char_of ((a mod 4) * 16); pad_char; pad_char]
  | [a; b] =>
      [char_of (a / 4); char_of ((a mod 4) * 16 + b / 16);
       char_of ((b mod 16) * 4); pad_char]
  | a :: b :: c :: rest =>
      char_of (a / 4) :: char_of ((a mod 4) * 16 + b / 16)
        :: char_of ((b mod 16) * 4 + c / 64) :: char_of (c mod 64)
        :: encode rest
  end.

(** The decoder accepts the standard and the URL-safe alphabet; [value_of]
    is its table, indexed by a byte. *)
Definition value_of (c : Z) : option Z :=
  if (65 <=? c) && (c <=? 90) then Some (c - 65)
  else if (97 <=? c) && (c <=? 122) then Some (c - 71)
  else if (48 <=? c) && (c <=? 57) then Some (c + 4)
  else if (c =? 43) || (c =? 45) then Some 62
  else if (c =? 47) || (c =? 95) then Some 63
  else None.

(** The decoder reads a string one code unit at a time and keeps the low
    byte of each unit: a unit above 255 stands for the character of its low
    byte. *)
Definition low_byte (c : Z) : Z := c mod 256.

(** Characters outside the alphabet are skipped; the first [=] ends the
    data. *)
Fixpoint sextets (s : jsstring) : list Z :=
  match s with
  | [] => []
  | c :: r =>
      let b := low_byte c in
      if b =? pad_char then []
      else match value_of b with
           | Some v => v :: sextets r
           | None => sextets r
           end
  end.

Fixpoint bytes_of (l : list Z) : Buffer :=
  match l with
  | a :: b :: c :: d :: r =>
      (a * 4 + b / 16) :: ((b mod 16) * 16 + c / 4) :: ((c mod 4) * 64 + d)
        :: bytes_of r
  | [a; b; c] => [a * 4 + b / 16; (b mod 16) * 16 + c / 4]
  | [a; b] => [a * 4 + b / 16]
  | _ => []
  end.

Definition decode (s : jsstring) : Buffer := bytes_of (sextets s).

End Base64.

(** ** Errors

    Every [throw] of [keyring.js] and every exception of the runtime
    functions it calls is a value of [error].  The constructors are named
    after the failure they stand for; the comment gives the message of the
    source. *)

Inductive cipher_error :=
| UnknownCipher            (* the algorithm name is not a known cipher *)
| InvalidKeyLength         (* "Invalid key length" *)
| InvalidIV                (* "Invalid initialization vector" *)
| WrongFinalBlockLength    (* "wrong final block length" *)
| BadDecrypt.              (* "bad decrypt": the padding is not valid *)

Inductive error :=
| MissingSalt              (* missingSaltError *)
| UnsupportedAlgorithm     (* "Encryption algorithm not recognized or unsupported: ..." *)
| KeyLengthMismatch (expected actual : Z)
                           (* "Expected key to be ... bytes long; got ... instead" *)
| KeyLengthNaN (actual : Z)
                           (* "Expected key to be NaN bytes long; got ... instead" *)
| EmptyKeyring             (* "You must initialize the keyring" *)
| InvalidKeyId             (* "All keyring keys must be integer numbers" *)
| UnknownKeyId             (* "key=... is not available on keyring" *)
| IntegrityError           (* "Expected HMAC to be ...; got ... instead" *)
| NonStringDigestInput     (* "You can only generated SHA1 digests from strings ..." *)
| TypeError                (* a TypeError of the runtime *)
| DecryptionError (c : cipher_error).  (* an exception of [crypto] *)

Inductive result (A : Type) :=
| Ok (a : A)
| Err (e : error).
Arguments Ok {A} a.
Arguments Err {A} e.

Definition rbind {A B} (r : result A) (k : A -> result B) : result B :=
  match r with
  | Ok a => k a
  | Err e => Err e
  end.

(** ** AES (FIPS 197) in CBC mode with PKCS#7 padding, as
    [crypto.createCipheriv] and [crypto.createDecipheriv] *)

Module Aes.

(** Multiplication in GF(2^8), modulo x^8 + x^4 + x^3 + x + 1. *)
Definition xtime (b : Z) : Z :=
  Z.lxor (Z.land (Z.shiftl b 1) 255) (if Z.testbit b 7 then 0x1b else 0).

Fixpoint gmul_aux (n : nat) (a b : Z) : Z :=
  match n with
  | O => 0
  | S n' =>
      Z.lxor (if Z.odd b then a else 0) (gmul_aux n' (xtime a) (Z.shiftr b 1))
  end.
Definition gmul (a b : Z) : Z := gmul_aux 8 a b.

(** The multiplicative inverse, [x ^ 254], with [0] mapped to [0]. *)
Definition ginv (x : Z) : Z := Nat.iter 253 (gmul x) x.

Definition rotl8 (b n : Z) : Z :=
  Z.land (Z.lor (Z.shiftl b n) (Z.shiftr b (8 - n))) 255.

(** The affine transformation of the S-box. *)
Definition affine (b : Z) : Z :=
  Z.lxor (Z.lxor (Z.lxor b (rotl8 b 1)) (Z.lxor (rotl8 b 2) (rotl8 b 3)))
         (Z.lxor (rotl8 b 4) 0x63).

Definition sbox_table : list Z :=
  Eval vm_compute in map (fun x => affine (ginv x)) all_bytes.

Fixpoint index_of (y : Z) (l : list Z) (i : Z) : Z :=
  match l with
  | [] => 0
  | x :: r => if x =? y then i else index_of y r (i + 1)
  end.

Definition inv_sbox_table : list Z :=
  Eval vm_compute in map (fun y => index_of y sbox_table 0) all_bytes.

Definition sbox (b : Z) : Z := nth (Z.to_nat b) sbox_table 0.
Definition inv_sbox (b : Z) : Z := nth (Z.to_nat b) inv_sbox_table 0.

Definition xor_bytes (a b : list Z) : list Z :=
  map (fun p => Z.lxor (fst p) (snd p)) (combine a b).

(** Multiplication by the constants of MixColumns and of its inverse. *)
Definition mul2 (b : Z) : Z := xtime b.
Definition mul3 (b : Z) : Z := Z.lxor (xtime b) b.
Definition mul4 (b : Z) : Z := xtime (xtime b).
Definition mul8 (b : Z) : Z := xtime (mul4 b).
Definition mul9 (b : Z) : Z := Z.lxor (mul8 b) b.
Definition mul11 (b : Z) : Z := Z.lxor (Z.lxor (mul8 b) (mul2 b)) b.
Definition mul13 (b : Z) : Z := Z.lxor (Z.lxor (mul8 b) (mul4 b)) b.
Definition mul14 (b : Z) : Z := Z.lxor (Z.lxor (mul8 b) (mul4 b)) (mul2 b).

Definition xor4 (a b c d : Z) : Z := Z.lxor (Z.lxor a b) (Z.lxor c d).

(** The state is the block itself, column after column. *)
Definition sub_bytes (s : list Z) : list Z := map sbox s.
Definition inv_sub_bytes (s : list Z) : list Z := map inv_sbox s.

Definition pick (s : list Z) (idx : list nat) : list Z :=
  map (fun i => nth i s 0) idx.

Definition shift_rows (s : list Z) : list Z :=
  pick s [0; 5; 10; 15; 4; 9; 14; 3; 8; 13; 2; 7; 12; 1; 6; 11]%nat.
Definition inv_shift_rows (s : list Z) : list Z :=
  pick s [0; 13; 10; 7; 4; 1; 14; 11; 8; 5; 2; 15; 12; 9; 6; 3]%nat.

Definition mix_column (col : list Z) : list Z :=
  match col with
  | [a; b; c; d] =>
      [xor4 (mul2 a) (mul3 b) c d;
       xor4 a (mul2 b) (mul3 c) d;
       xor4 a b (mul2 c) (mul3 d);
       xor4 (mul3 a) b c (mul2 d)]
  | _ => col
  end.

Definition inv_mix_column (col : list Z) : list Z :=
  match col with
  | [a; b; c; d] =>
      [xor4 (mul14 a) (mul11 b) (mul13 c) (mul9 d);
       xor4 (mul9 a) (mul14 b) (mul11 c) (mul13 d);
       xor4 (mul13 a) (mul9 b) (mul14 c) (mul11 d);
       xor4 (mul11 a) (mul13 b) (mul9 c) (mul14 d)]
  | _ => col
  end.

Definition mix_columns (s : list Z) : list Z :=
  match s with
  | [a0; a1; a2; a3; b0; b1; b2; b3; c0; c1; c2; c3; d0; d1; d2; d3] =>
      mix_column [a0; a1; a2; a3] ++ mix_column [b0; b1; b2; b3]
        ++ mix_column [c0; c1; c2; c3] ++ mix_column [d0; d1; d2; d3]
  | _ => s
  end.

Definition inv_mix_columns (s : list Z) : list Z :=
  match s with
  | [a0; a1; a2; a3; b0; b1; b2; b3; c0; c1; c2; c3; d0; d1; d2; d3] =>
      inv_mix_column [a0; a1; a2; a3] ++ inv_mix_column [b0; b1; b2; b3]
        ++ inv_mix_column [c0; c1; c2; c3] ++ inv_mix_column [d0; d1; d2; d3]
  | _ => s
  end.

Definition add_round_key (k s : list Z) : list Z := xor_bytes s k.

Definition round (k s : list Z) : list Z :=
  add_round_key k (mix_columns (shift_rows (sub_bytes s))).
Definition final_round (k s : list Z) : list Z :=
  add_round_key k (shift_rows (sub_bytes s)).
Definition inv_round (k s : list Z) : list Z :=
  inv_sub_bytes (inv_shift_rows (inv_mix_columns (add_round_key k s))).
Definition inv_final_round (k s : list Z) : list Z :=
  inv_sub_bytes (inv_shift_rows (add_round_key k s)).

Fixpoint rounds (ks : list (list Z)) (s : list Z) : list Z :=
  match ks with
  | [] => s
  | [k] => final_round k s
  | k :: ks' => rounds ks' (round k s)
  end.

Fixpoint inv_rounds (ks : list (list Z)) (s : list Z) : list Z :=
  match ks with
  | [] => s
  | [k] => inv_final_round k s
  | k :: ks' => inv_round k (inv_rounds ks' s)
  end.

(** Encryption and decryption of one block under the round keys [ks]. *)
Definition cipher (ks : list (list Z)) (s : list Z) : list Z :=
  match ks with
  | [] => s
  | k0 :: ks' => rounds ks' (add_round_key k0 s)
  end.

Definition inv_cipher (ks : list (list Z)) (s : list Z) : list Z :=
  match ks with
  | [] => s
  | k0 :: ks' => add_round_key k0 (inv_rounds ks' s)
  end.

(** Key expansion.  The words are kept most recent first. *)
Definition rcon : list Z :=
  Eval vm_compute in map (fun i => Nat.iter i xtime 1) (seq 0 10).

Definition sub_word (w : list Z) : list Z := map sbox w.
Definition rot_word (w : list Z) : list Z :=
  match w with
  | a :: r => r ++ [a]
  | [] => []
  end.

Definition expand_step (nk i : nat) (rev_w : list (list Z)) : list Z :=
  let prev := nth 0 rev_w [] in
  let temp :=
    if (i mod nk =? 0)%nat
    then xor_bytes (sub_word (rot_word prev)) [nth (i / nk - 1) rcon 0; 0; 0; 0]
    else if (6 <? nk)%nat && (i mod nk =? 4)%nat then sub_word prev
    else prev in
  xor_bytes (nth (nk - 1) rev_w []) temp.

Fixpoint expand (n nk i : nat) (rev_w : list (list Z)) : list (list Z) :=
  match n with
  | O => rev_w
  | S n' => expand n' nk (S i) (expand_step nk i rev_w :: rev_w)
  end.

Definition key_schedule (key : Buffer) : list (list Z) :=
  let nk := (length key / 4)%nat in
  let total := (4 * (nk + 7))%nat in
  let w := rev (expand (total - nk) nk nk (rev (chunks 4 key))) in
  map (@concat Z) (chunks 4 w).

(** CBC chaining over whole blocks. *)
Fixpoint cbc_encrypt (ks : list (list Z)) (prev : list Z)
         (blocks : list (list Z)) : list (list Z) :=
  match blocks with
  | [] => []
  | p :: r =>
      let c := cipher ks (xor_bytes p prev) in
      c :: cbc_encrypt ks c r
  end.

Fixpoint cbc_decrypt (ks : list (list Z)) (prev : list Z)
         (blocks : list (list Z)) : list (list Z) :=
  match blocks with
  | [] => []
  | c :: r => xor_bytes (inv_cipher ks c) prev :: cbc_decrypt ks c r
  end.

(** PKCS#7: between 1 and 16 bytes are appended, each equal to their
    number. *)
Definition pkcs7_pad (bs : Buffer) : Buffer :=
  let n := (16 - length bs mod 16)%nat in
  bs ++ repeat (Z.of_nat n) n.

Definition pkcs7_unpad (bs : Buffer) : option Buffer :=
  let v := last bs 0 in
  let n := Z.to_nat v in
  if (1 <=? v) && (v <=? 16) && (n <=? length bs)%nat
     && forallb (Z.eqb v) (skipn (length bs - n) bs)
  then Some (firstn (length bs - n) bs)
  else None.

Definition key_length (alg : jsstring) : option nat :=
  if string_eqb alg (js "aes-128-cbc") then Some 16%nat
  else if string_eqb alg (js "aes-192-cbc") then Some 24%nat
  else if string_eqb alg (js "aes-256-cbc") then Some 32%nat
  else None.

(** The object [createCipheriv] and [createDecipheriv] return: the round
    keys and the initialization vector. *)
Record Cipheriv := { round_keys : list (list Z); init_vector : Buffer }.

Definition createCipheriv (alg : jsstring) (key iv : Buffer) : result Cipheriv :=
  match key_length alg with
  | None => Err (DecryptionError UnknownCipher)
  | Some n =>
      if negb (length key =? n)%nat then Err (DecryptionError InvalidKeyLength)
      else if negb (length iv =? 16)%nat then Err (DecryptionError InvalidIV)
      else Ok {| round_keys := key_schedule key; init_vector := iv |}
  end.

Definition createDecipheriv := createCipheriv.

(** [Buffer.concat([cipher.update(data), cipher.final()])] *)
Definition cipher_run (c : Cipheriv) (data : Buffer) : Buffer :=
  concat (cbc_encrypt (round_keys c) (init_vector c) (chunks 16 (pkcs7_pad data))).

(** [Buffer.concat([decipher.update(data), decipher.final()])] *)
Definition decipher_run (c : Cipheriv) (data : Buffer) : result Buffer :=
  if (length data =? 0)%nat || negb (length data mod 16 =? 0)%nat
  then Err (DecryptionError WrongFinalBlockLength)
  else
    match pkcs7_unpad (concat (cbc_decrypt (round_keys c) (init_vector c)
                                           (chunks 16 data))) with
    | Some p => Ok p
    | None => Err (DecryptionError BadDecrypt)
    end.

End Aes.

(** ** JavaScript values, [ToString] and [parseInt]

    Only the values that reach [keyring.js] in the claims are modelled.  A
    number is an integer, written with its exact value, and [None] in
    [option Z] is [NaN].  JavaScript numbers are doubles: [parseInt] and
    [String] agree with the functions below on the safe integers (magnitude
    below 2^53).  Above that [parseInt] rounds (to infinity, for several
    hundred digits) where [parseInt] below is exact, and from 10^21 on
    [String] writes an exponent; whether [parseInt] gives NaN is the same
    for every string.  The statements that speak of the value of an id
    assume the ids, names or requested numbers to be safe integers
    ([safe_ids], [names_ok], [request_ok]). *)

Inductive jsval :=
| VUndefined
| VNumber (n : Z)
| VString (s : jsstring)
| VBuffer (b : Buffer).

Definition safe_integer (n : Z) : Prop := - 9007199254740992 < n < 9007199254740992.

Fixpoint digits_aux (fuel : nat) (n : Z) (acc : jsstring) : jsstring :=
  match fuel with
  | O => acc
  | S f =>
      if n <? 10 then (48 + n) :: acc
      else digits_aux f (n / 10) ((48 + n mod 10) :: acc)
  end.

(** The decimal numeral of a non-negative integer, and [Number::toString]
    on integers. *)
Definition decimal (n : Z) : jsstring :=
  digits_aux (S (Z.to_nat (Z.log2 n))) n [].

Definition number_to_string (n : option Z) : jsstring :=
  match n with
  | None => js "NaN"
  | Some z => if z <? 0 then 45 :: decimal (- z) else decimal z
  end.

Definition ToString (v : jsval) : jsstring :=
  match v with
  | VUndefined => js "undefined"
  | VNumber n => number_to_string (Some n)
  | VString s => s
  | VBuffer b => Utf8.decode b
  end.

(** [StrWhiteSpaceChar]: white space and line terminators. *)
Definition is_white_space (u : Z) : bool :=
  ((9 <=? u) && (u <=? 13)) || (u =? 32) || (u =? 0xA0) || (u =? 0x1680)
  || ((0x2000 <=? u) && (u <=? 0x200A)) || (u =? 0x2028) || (u =? 0x2029)
  || (u =? 0x202F) || (u =? 0x205F) || (u =? 0x3000) || (u =? 0xFEFF).

Fixpoint trim_start (s : jsstring) : jsstring :=
  match s with
  | [] => []
  | u :: r => if is_white_space u then trim_start r else s
  end.

Definition is_digit (u : Z) : bool := (48 <=? u) && (u <=? 57).

(** The value of the longest prefix of decimal digits. *)
Fixpoint digits_value (acc : Z) (s : jsstring) : Z :=
  match s with
  | [] => acc
  | u :: r => if is_digit u then digits_value (acc * 10 + (u - 48)) r else acc
  end.

Definition starts_with_digit (s : jsstring) : bool :=
  match s with
  | u :: _ => is_digit u
  | [] => false
  end.

(** [parseInt(s, 10)], and [parseInt(s)] on a string that does not start
    with [0x]: leading white space is skipped, then an optional sign, then
    the longest prefix of digits is read; what follows is ignored. *)
Definition parseInt (s : jsstring) : option Z :=
  let t := trim_start s in
  let '(sign, body) :=
    match t with
    | 45 :: r => (-1, r)
    | 43 :: r => (1, r)
    | _ => (1, t)
    end in
  if starts_with_digit body then Some (sign * digits_value 0 body) else None.

(** [a === b] and [a > b] on numbers: both are false when a side is NaN. *)
Definition strict_eq (a b : option Z) : bool :=
  match a, b with
  | Some x, Some y => x =? y
  | _, _ => false
  end.

Definition gt (a b : option Z) : bool :=
  match a, b with
  | Some x, Some y => y <? x
  | _, _ => false
  end.

Definition isNaN (a : option Z) : bool :=
  match a with
  | None => true
  | Some _ => false
  end.

(** [Buffer.from(value)]: the UTF-8 bytes of a string, a copy of a buffer. *)
Definition Buffer_from (v : jsval) : result Buffer :=
  match v with
  | VString s => Ok (Utf8.encode s)
  | VBuffer b => Ok b
  | _ => Err TypeError
  end.

(** [Buffer.from(value, "base64")] *)
Definition Buffer_from_base64 (v : jsval) : result Buffer :=
  match v with
  | VString s => Ok (Base64.decode s)
  | VBuffer b => Ok b
  | _ => Err TypeError
  end.

(** ** The operations a call performs, in order

    [decrypt] is written in a monad that records, next to the result, when
    the block cipher is run and when the signature is compared. *)

Inductive event :=
| EvDecipher (iv data : Buffer)
    (* [decipher.update(data)] and [decipher.final()] are run, on a
       decipher created with [iv] *)
| EvVerify (expected actual : Buffer).
    (* [verifySignature(expected, actual)] is run *)

Definition M (A : Type) : Type := (list event * result A)%type.

Definition ret {A} (a : A) : M A := ([], Ok a).
Definition throw {A} (e : error) : M A := ([], Err e).
Definition lift {A} (r : result A) : M A := ([], r).
Definition tick (e : event) : M unit := ([e], Ok tt).

Definition bind {A B} (m : M A) (k : A -> M B) : M B :=
  match m with
  | (t, Ok a) => let '(t', r) := k a in (t ++ t', r)
  | (t, Err e) => (t, Err e)
  end.

Definition trace {A} (m : M A) : list event := fst m.
Definition outcome {A} (m : M A) : result A := snd m.

Declare Scope keyring_scope.
Notation "x <- m ;; k" := (bind m (fun x => k))
  (at level 61, m at next level, right associativity) : keyring_scope.
Notation "x <-- r ;; k" := (rbind r (fun x => k))
  (at level 61, r at next level, right associativity) : keyring_scope.
Open Scope keyring_scope.

(** ** keyring.js *)

Record Key := {
  id : option Z;
  encryptionKey : Buffer;
  signingKey : Buffer
}.

(** The options object: a property is [None] when it is absent. *)
Record Options := {
  encryption : option jsstring;
  salt : option jsstring
}.

(** The raw keys object, as the list of its own properties in the order
    [Object.keys] enumerates them.  The names of an object are pairwise
    distinct. *)
Definition keymap := list (jsstring * jsval).

Definition defaultKeyringOptions : Options :=
  {| encryption := Some (js "aes-128-cbc"); salt := None |}.

(** The properties the object literal [keySizes] lists. *)
Definition keySizes (name : jsstring) : option nat :=
  if string_eqb name (js "aes-128-cbc") then Some 16%nat
  else if string_eqb name (js "aes-192-cbc") then Some 24%nat
  else if string_eqb name (js "aes-256-cbc") then Some 32%nat
  else None.

(** The names every object inherits from [Object.prototype].  A lookup
    [object[name]] under one of them finds a function (the prototype itself
    for [__proto__]): a truthy value that is no number. *)
Definition Object_prototype : list jsstring :=
  [js "constructor"; js "__defineGetter__"; js "__defineSetter__";
   js "hasOwnProperty"; js "__lookupGetter__"; js "__lookupSetter__";
   js "isPrototypeOf"; js "propertyIsEnumerable"; js "toString";
   js "valueOf"; js "__proto__"; js "toLocaleString"].

Definition inherited (name : jsstring) : bool :=
  existsb (string_eqb name) Object_prototype.

(** [Object.assign({}, defaults, options)] *)
Definition Object_assign (defaults options : Options) : Options :=
  {| encryption := match encryption options with
                   | Some e => Some e
                   | None => encryption defaults
                   end;
     salt := match salt options with
             | Some s => Some s
             | None => salt defaults
             end |}.

Definition isString (v : jsval) : bool :=
  match v with
  | VString _ => true
  | _ => false
  end.

Definition sha1 (value : jsval) (salt : option jsstring) : result jsstring :=
  match salt with
  | None => Err MissingSalt
  | Some s =>
      if negb (isString value) then Err NonStringDigestInput
      else Ok (Hex.of_bytes (Sha1.hash (Utf8.encode (ToString value ++ s))))
  end.

Definition validateKeyring (keys : list Key) : result unit :=
  if (length keys =? 0)%nat then Err EmptyKeyring
  else if existsb (fun key => isNaN (id key)) keys then Err InvalidKeyId
  else Ok tt.

Definition keyBuffer (value : jsval) : result Buffer :=
  match value with
  | VBuffer b => Ok b
  | _ => Buffer_from_base64 value
  end.

(** The reduction over [Object.keys(keys)], written as a recursion: the
    first secret of the wrong length aborts it. *)
Fixpoint normalizeKeys (keys : keymap) (keySize : nat) : result (list Key) :=
  match keys with
  | [] => Ok []
  | (name, value) :: rest =>
      secret <-- keyBuffer value ;;
      if negb (length secret =? 2 * keySize)%nat
      then Err (KeyLengthMismatch (Z.of_nat (2 * keySize)) (len secret))
      else
        buffer <-- normalizeKeys rest keySize ;;
        Ok ({| id := parseInt name;
               encryptionKey := subarray_from secret keySize;
               signingKey := subarray secret 0 keySize |} :: buffer)
  end.

(** [normalizeKeys(keys, keySize)] when [keySize] is an inherited function:
    [keySize * 2] is NaN, no length equals NaN, and the first secret that
    [keyBuffer] accepts aborts the reduction. *)
Definition normalizeKeys_NaN (keys : keymap) : result (list Key) :=
  match keys with
  | [] => Ok []
  | (name, value) :: rest =>
      secret <-- keyBuffer value ;;
      Err (KeyLengthNaN (len secret))
  end.

(** [keys.reduce((a, b) => a.id > b.id ? a : b)]; reducing an empty array
    without an initial value is a TypeError. *)
Definition currentKey (keys : list Key) : result Key :=
  match keys with
  | [] => Err TypeError
  | k :: rest => Ok (fold_left (fun a b => if gt (id a) (id b) then a else b) rest k)
  end.

Definition findKey (keys : list Key) (id' : jsval) : result Key :=
  match find (fun key => strict_eq (parseInt (number_to_string (id key)))
                                   (parseInt (ToString id'))) keys with
  | Some key => Ok key
  | None => Err UnknownKeyId
  end.

Definition hmacDigest (key message : Buffer) : Buffer := Hmac.sha256 key message.

Definition verifySignature (expected actual : Buffer) : bool :=
  if negb (length expected =? length actual)%nat then false
  else
    fold_left (fun acc p => Z.lor acc (Z.lxor (fst p) (snd p)))
              (combine expected actual) 0 =? 0.

(** [encrypt]; [iv] stands for the bytes [crypto.randomBytes(16)] draws. *)
Definition encrypt (keys : list Key) (options : Options) (iv : Buffer)
           (message : jsval) : result (jsstring * option Z * jsstring) :=
  key <-- currentKey keys ;;
  algorithm <-- match encryption options with
                | Some a => Ok a
                | None => Err TypeError
                end ;;
  cipher <-- Aes.createCipheriv algorithm (encryptionKey key) iv ;;
  data <-- Buffer_from message ;;
  let encrypted := Aes.cipher_run cipher data in
  let hmac := hmacDigest (signingKey key) (iv ++ encrypted) in
  let returnValue := Base64.encode (hmac ++ iv ++ encrypted) in
  digest <-- sha1 message (salt options) ;;
  Ok (returnValue, id key, digest).

Definition decrypt (key : Key) (options : Options) (message : jsstring)
  : M jsstring :=
  let decoded := Base64.decode message in
  let hmac := subarray decoded 0 32 in
  let iv := subarray decoded 32 48 in
  let encrypted := subarray_from decoded 48 in
  algorithm <- lift match encryption options with
                    | Some a => Ok a
                    | None => Err TypeError
                    end ;;
  decipher <- lift (Aes.createDecipheriv algorithm (encryptionKey key) iv) ;;
  _ <- tick (EvDecipher iv encrypted) ;;
  decrypted <- lift (Aes.decipher_run decipher encrypted) ;;
  let expectedHmac := hmacDigest (signingKey key) (iv ++ encrypted) in
  _ <- tick (EvVerify expectedHmac hmac) ;;
  if negb (verifySignature expectedHmac hmac) then throw IntegrityError
  else ret (Utf8.decode decrypted).

(** The object [keyring] returns: its four functions close over the
    normalized keys and the merged options. *)
Record Keyring := {
  keys : list Key;
  options : Options
}.

Definition keyring (raw : keymap) (opts : Options) : result Keyring :=
  let options := Object_assign defaultKeyringOptions opts in
  match salt options with
  | None => Err MissingSalt
  | Some _ =>
      match match encryption options with
            | Some name => keySizes name
            | None => None
            end with
      | None =>
          (* [keySizes[options.encryption]] is undefined, or inherited *)
          match encryption options with
          | Some name =>
              if inherited name then
                keys <-- normalizeKeys_NaN raw ;;
                _ <-- validateKeyring keys ;;
                Ok {| keys := keys; options := options |}
              else Err UnsupportedAlgorithm
          | None => Err UnsupportedAlgorithm
          end
      | Some keySize =>
          keys <-- normalizeKeys raw keySize ;;
          _ <-- validateKeyring keys ;;
          Ok {| keys := keys; options := options |}
      end
  end.

Definition Keyring_encrypt (k : Keyring) (iv : Buffer) (message : jsval) :=
  encrypt (keys k) (options k) iv message.

Definition Keyring_decrypt (k : Keyring) (message : jsstring) (keyringId : jsval)
  : M jsstring :=
  key <- lift (findKey (keys k) keyringId) ;;
  decrypt key (options k) message.

Definition Keyring_digest (k : Keyring) (message : jsval) : result jsstring :=
  sha1 message (salt (options k)).

Definition Keyring_currentId (k : Keyring) : result (option Z) :=
  key <-- currentKey (keys k) ;; Ok (id key).

(** ** Predicates used in the statements and in the proofs *)

(** A cipher block, and the initialization vector [crypto.randomBytes(16)]
    returns: sixteen bytes. *)
Definition is_block (s : list Z) : Prop := length s = 16%nat /\ bytes_ok s.

Definition in_byte (x : Z) : bool := (0 <=? x) && (x <? 256).

(** A function on bytes that distributes over xor. *)
Definition linear (f : Z -> Z) : Prop :=
  forall a b, f (Z.lxor a b) = Z.lxor (f a) (f b).

(** What the inverse MixColumns matrix does to each coefficient of the
    MixColumns matrix, one byte at a time: the sixteen entries of the
    product of the two matrices. *)
Definition column_identities (x : Z) : bool :=
  let e := Z.eqb in
  e (Aes.xor4 (Aes.mul14 (Aes.mul2 x)) (Aes.mul11 x) (Aes.mul13 x) (Aes.mul9 (Aes.mul3 x))) x
  && e (Aes.xor4 (Aes.mul14 (Aes.mul3 x)) (Aes.mul11 (Aes.mul2 x)) (Aes.mul13 x) (Aes.mul9 x)) 0
  && e (Aes.xor4 (Aes.mul14 x) (Aes.mul11 (Aes.mul3 x)) (Aes.mul13 (Aes.mul2 x)) (Aes.mul9 x)) 0
  && e (Aes.xor4 (Aes.mul14 x) (Aes.mul11 x) (Aes.mul13 (Aes.mul3 x)) (Aes.mul9 (Aes.mul2 x))) 0
  && e (Aes.xor4 (Aes.mul9 (Aes.mul2 x)) (Aes.mul14 x) (Aes.mul11 x) (Aes.mul13 (Aes.mul3 x))) 0
  && e (Aes.xor4 (Aes.mul9 (Aes.mul3 x)) (Aes.mul14 (Aes.mul2 x)) (Aes.mul11 x) (Aes.mul13 x)) x
  && e (Aes.xor4 (Aes.mul9 x) (Aes.mul14 (Aes.mul3 x)) (Aes.mul11 (Aes.mul2 x)) (Aes.mul13 x)) 0
  && e (Aes.xor4 (Aes.mul9 x) (Aes.mul14 x) (Aes.mul11 (Aes.mul3 x)) (Aes.mul13 (Aes.mul2 x))) 0
  && e (Aes.xor4 (Aes.mul13 (Aes.mul2 x)) (Aes.mul9 x) (Aes.mul14 x) (Aes.mul11 (Aes.mul3 x))) 0
  && e (Aes.xor4 (Aes.mul13 (Aes.mul3 x)) (Aes.mul9 (Aes.mul2 x)) (Aes.mul14 x) (Aes.mul11 x)) 0
  && e (Aes.xor4 (Aes.mul13 x) (Aes.mul9 (Aes.mul3 x)) (Aes.mul14 (Aes.mul2 x)) (Aes.mul11 x)) x
  && e (Aes.xor4 (Aes.mul13 x) (Aes.mul9 x) (Aes.mul14 (Aes.mul3 x)) (Aes.mul11 (Aes.mul2 x))) 0
  && e (Aes.xor4 (Aes.mul11 (Aes.mul2 x)) (Aes.mul13 x) (Aes.mul9 x) (Aes.mul14 (Aes.mul3 x))) 0
  && e (Aes.xor4 (Aes.mul11 (Aes.mul3 x)) (Aes.mul13 (Aes.mul2 x)) (Aes.mul9 x) (Aes.mul14 x)) 0
  && e (Aes.xor4 (Aes.mul11 x) (Aes.mul13 (Aes.mul3 x)) (Aes.mul9 (Aes.mul2 x)) (Aes.mul14 x)) 0
  && e (Aes.xor4 (Aes.mul11 x) (Aes.mul13 x) (Aes.mul9 (Aes.mul3 x)) (Aes.mul14 (Aes.mul2 x))) x.

(** A word of the AES key expansion: four bytes. *)
Definition is_word (w : list Z) : Prop := length w = 4%nat /\ bytes_ok w.

(** Round keys that are blocks and an initialization vector that is a
    block. *)
Definition cipher_ok (c : Aes.Cipheriv) : Prop :=
  Forall is_block (Aes.round_keys c) /\ is_block (Aes.init_vector c).

(** [flip_bit bs i k] is [bs] with bit [k] of the byte at index [i]
    inverted. *)
Definition flip_bit (bs : Buffer) (i : nat) (k : Z) : Buffer :=
  firstn i bs ++ match skipn i bs with
                 | [] => []
                 | b :: r => Z.lxor b (2 ^ k) :: r
                 end.

(** Reading the string [acc] after digits of value [v] gives [v * p + q]:
    [acc] is a sequence of digits of value [q], and [p] is ten to the power
    of its length. *)
Definition reads_as (acc : jsstring) (p q : Z) : Prop :=
  forall v, digits_value v acc = v * p + q.

(** A value a caller can pass: a buffer holds bytes, a string holds code
    units. *)
Definition value_ok (v : jsval) : Prop :=
  match v with
  | VBuffer b => bytes_ok b
  | VString s => jsstring_ok s
  | _ => True
  end.

(** A raw keys object: distinct property names, well-typed values. *)
Definition keymap_ok (raw : keymap) : Prop :=
  NoDup (map fst raw) /\ Forall (fun e => value_ok (snd e)) raw.

(** A normalized key for a cipher with keys of [n] bytes. *)
Definition key_ok (n : nat) (k : Key) : Prop :=
  length (encryptionKey k) = n /\ bytes_ok (encryptionKey k)
  /\ length (signingKey k) = n /\ bytes_ok (signingKey k).

(** The ids are integers that a JavaScript number holds exactly. *)
Definition safe_id (i : option Z) : Prop :=
  match i with
  | Some z => safe_integer z
  | None => False
  end.
Definition safe_ids (ks : list Key) : Prop := Forall (fun k => safe_id (id k)) ks.

(** A property name of the key map that [parseInt] reads as NaN or as a safe
    integer: the id of its key is then the number [parseInt] returns, not a
    rounding of it. *)
Definition name_ok (name : jsstring) : Prop :=
  match parseInt name with
  | Some z => safe_integer z
  | None => True
  end.
Definition names_ok (raw : keymap) : Prop := Forall (fun e => name_ok (fst e)) raw.

(** A requested key id: [undefined], a string, a buffer, or a number that
    is a safe integer ([String] writes such a number with all its
    digits). *)
Definition request_ok (req : jsval) : Prop :=
  match req with
  | VNumber z => safe_integer z
  | _ => True
  end.

(** Two different messages with the same HMAC-SHA256 under [key]. *)
Definition hmac_collision (key a b : Buffer) : Prop :=
  a <> b /\ Hmac.sha256 key a = Hmac.sha256 key b.

(** The three algorithm names [keySizes] lists. *)
Definition supported (alg : jsstring) : Prop :=
  alg = js "aes-128-cbc" \/ alg = js "aes-192-cbc" \/ alg = js "aes-256-cbc".

(** What [encrypt] computes from the current key, the vector and the
    message. *)
Definition ciphertext_of (alg : jsstring) (key : Key) (iv : Buffer) (p : jsstring)
  : Buffer :=
  Aes.cipher_run {| Aes.round_keys := Aes.key_schedule (encryptionKey key);
                    Aes.init_vector := iv |} (Utf8.encode p).

Definition tag_of (key : Key) (iv ct : Buffer) : Buffer :=
  hmacDigest (signingKey key) (iv ++ ct).

Definition digest_of (p s : jsstring) : jsstring :=
  Hex.of_bytes (Sha1.hash (Utf8.encode (p ++ s))).

(** ** The data of the test suite and of the examples *)

Definition test_secret_128 : jsstring :=
  js "uDiMcWVNTuz//naQ88sOcN+E40CyBRGzGTT7OkoBS6M=".
Definition test_secret_192 : jsstring :=
  js "wtnnoK+5an+FPtxnkdUDrNw6fAq8yMkvCvzWpriLL9TQTR2WC/k+XPahYFPvCemG".
Definition test_secret_256 : jsstring :=
  js "XZXC+c7VUVGpyAceSUCOBbrp2fjJeeHwoaMQefgSCfp0/HABY5yJ7zRiLZbDlDZ7HytCRsvP4CxXt5hUqtx9Uw==".

(** [{ 0: "uDiM..." }] and [{ salt: s }] *)
Definition test_keys : keymap := [(js "0", VString test_secret_128)].
Definition with_salt (s : jsstring) : Options :=
  {| encryption := None; salt := Some s |}.
Definition with_algorithm (alg s : jsstring) : Options :=
  {| encryption := Some alg; salt := Some s |}.

(** Sixteen bytes standing for a draw of [crypto.randomBytes(16)]. *)
Definition test_iv : Buffer := map Z.of_nat (seq 0 16).

(** The keyring [keyring({ 0: "uDiM..." }, { salt: "" })] evaluates to. *)
Definition test_keyring : Keyring :=
  Eval vm_compute in
    match keyring test_keys (with_salt []) with
    | Ok k => k
    | Err _ => {| keys := []; options := defaultKeyringOptions |}
    end.

(** Checks that decide the typing predicates on concrete data. *)
Definition bytes_check (l : list Z) : bool := forallb in_byte l.
Definition units_check (l : list Z) : bool :=
  forallb (fun u => (0 <=? u) && (u <? 65536)) l.

(** The envelope printed in the example script of the repository, made
    with key id 1 and salt ["salt-n-pepper"], and the keyring of that
    script. *)
Definition example_envelope : jsstring :=
  js "VIJD6RYVVBdt13YOnCMomDkKSxnIq3nv6NuNVuXA7+ezioZuZbGyK1qOz7wsYOU9rCstGvLNbXenia99nUomdA==".

Definition example_keyring : Keyring :=
  Eval vm_compute in
    match keyring [(js "1", VString test_secret_128)]
                  (with_salt (js "salt-n-pepper")) with
    | Ok k => k
    | Err _ => {| keys := []; options := defaultKeyringOptions |}
    end.

(** The same envelope with the lowest bit of its first byte inverted (a
    byte of the HMAC), and with the lowest bit of its last byte inverted (a
    byte of the ciphertext). *)
Definition example_envelope_bad_hmac : jsstring :=
  js "VYJD6RYVVBdt13YOnCMomDkKSxnIq3nv6NuNVuXA7+ezioZuZbGyK1qOz7wsYOU9rCstGvLNbXenia99nUomdA==".
Definition example_envelope_bad_ciphertext : jsstring :=
  js "VIJD6RYVVBdt13YOnCMomDkKSxnIq3nv6NuNVuXA7+ezioZuZbGyK1qOz7wsYOU9rCstGvLNbXenia99nUomdQ==".

(** What [encrypt("42")] returns on [test_keyring] when [test_iv] is
    drawn. *)
Definition test_envelope : jsstring :=
  Eval vm_compute in
    match Keyring_encrypt test_keyring test_iv (VString (js "42")) with
    | Ok (envelope, _, _) => envelope
    | Err _ => []
    end.

Definition test_digest : jsstring :=
  Eval vm_compute in
    match Keyring_encrypt test_keyring test_iv (VString (js "42")) with
    | Ok (_, _, digest) => digest
    | Err _ => []
    end.

(** A message of three cipher blocks, and what [encrypt] returns for it on
    [test_keyring] when [test_iv] is drawn. *)
Definition long_message : jsstring :=
  js "The quick brown fox jumps over the lazy dog".

Definition long_envelope : jsstring :=
  Eval vm_compute in
    match Keyring_encrypt test_keyring test_iv (VString long_message) with
    | Ok (envelope, _, _) => envelope
    | Err _ => []
    end.

Definition long_digest : jsstring :=
  Eval vm_compute in
    match Keyring_encrypt test_keyring test_iv (VString long_message) with
    | Ok (_, _, digest) => digest
    | Err _ => []
    end.

(** The keys of [test_keys] expanded with a key of id 1, given as a buffer,
    and the keyring constructed from them. *)
Definition rotation_secret : jsval := VBuffer (map Z.of_nat (seq 100 32)).

Definition rotated_keyring : Keyring :=
  Eval vm_compute in
    match keyring (test_keys ++ [(js "1", rotation_secret)]) (with_salt []) with
    | Ok k => k
    | Err _ => {| keys := []; options := defaultKeyringOptions |}
    end.

(** A key map with the two names ["1"] and ["01"], in the order
    [Object.keys] lists them, and the same map expanded with a key ["2"]. *)
Definition duplicate_keys : keymap :=
  [(js "1", VString test_secret_128); (js "01", rotation_secret)].
Definition duplicate_keys_expanded : keymap :=
  [(js "1", VString test_secret_128); (js "2", VString test_secret_128);
   (js "01", rotation_secret)].

(** ** The rest of keyring.js

    [resolveDigestSuffix] tests a property name against the pattern
    [/[a-z0-9]+[A-Z]/].  The patterns modelled are built from a character
    class, one or more repetitions of a class, and sequencing; a class is a
    list of inclusive ranges of code units (the pattern has no flag, so it
    is matched on code units, case-sensitively). *)

Module RegExp.

Definition class := list (Z * Z).

Definition in_class (c : class) (u : Z) : bool :=
  existsb (fun r => (fst r <=? u) && (u <=? snd r)) c.

Inductive regex :=
| Class (c : class)
| PlusClass (c : class)
| Seq (r1 r2 : regex).

(** What is left of [s] after each way of reading one or more characters of
    the class [c] at its start, the longest reading first (the repetition
    is greedy). *)
Fixpoint plus_ends (c : class) (s : jsstring) : list jsstring :=
  match s with
  | u :: rest => if in_class c u then plus_ends c rest ++ [rest] else []
  | [] => []
  end.

(** What is left of [s] after each way [r] matches at its start, in the
    order a backtracking matcher tries them. *)
Fixpoint ends (r : regex) (s : jsstring) : list jsstring :=
  match r with
  | Class c =>
      match s with
      | u :: rest => if in_class c u then [rest] else []
      | [] => []
      end
  | PlusClass c => plus_ends c s
  | Seq r1 r2 => flat_map (ends r2) (ends r1 s)
  end.

(** [s.match(r)] is not [null]: [r] matches at some position of [s]. *)
Fixpoint matches (r : regex) (s : jsstring) : bool :=
  match ends r s with
  | _ :: _ => true
  | [] =>
      match s with
      | [] => false
      | _ :: rest => matches r rest
      end
  end.

End RegExp.

(** [/[a-z0-9]+[A-Z]/] *)
Definition camelCase : RegExp.regex :=
  RegExp.Seq (RegExp.PlusClass [(97, 122); (48, 57)]) (RegExp.Class [(65, 90)]).

(** [ToBoolean]: [undefined], [0] and the empty string are falsy; an object
    is truthy. *)
Definition truthy (v : jsval) : bool :=
  match v with
  | VUndefined => false
  | VNumber n => negb (n =? 0)
  | VString s => negb (length s =? 0)%nat
  | VBuffer _ => true
  end.

Definition resolveDigestSuffix (prop : jsstring) (suffix : jsval) : jsval :=
  if truthy suffix then suffix
  else if RegExp.matches camelCase prop then VString (js "Digest")
  else VString (js "_digest").

(** ** Predicates of the further properties *)

(** The characters [buffer.toString("base64")] writes: letters, digits,
    [+], [/] and the padding [=]. *)
Definition base64_output_char (c : Z) : bool :=
  ((65 <=? c) && (c <=? 90)) || ((97 <=? c) && (c <=? 122))
  || ((48 <=? c) && (c <=? 57)) || (c =? 43) || (c =? 47) || (c =? 61).

Definition is_lower_or_digit (u : Z) : bool :=
  ((97 <=? u) && (u <=? 122)) || ((48 <=? u) && (u <=? 57)).
Definition is_upper (u : Z) : bool := (65 <=? u) && (u <=? 90).

(** The secret of an entry of the key map decodes to [2 * n] bytes. *)
Definition secret_fits (n : nat) (e : jsstring * jsval) : Prop :=
  exists secret, keyBuffer (snd e) = Ok secret /\ length secret = (2 * n)%nat.

(** ** sequelize.js

    The hooks of the adapter read and write properties of a record and
    call the keyring.  A record is modelled by what the hooks use of it: its
    [_modelOptions], the options and raw attributes of its model
    ([record.constructor]), its [attributes], and its other properties as
    a map from names to values.  The names the hooks compute ([column],
    [encrypted_column], [column_digest] and the id column) are looked up in
    that map.  This is the record of the source as long as none of these
    names is [_modelOptions], [constructor], [attributes] or a name that
    every object inherits: the statements about hooks that read the
    structure of the record after a write assume this, as [names_plain]. *)

Module Sequelize.

(** The values of a property of a record: [null], [undefined], a number
    (an integer, or [NaN] written [None]) or a string. *)
Inductive value :=
| Null
| Undefined
| Num (n : option Z)
| Str (s : jsstring).

Definition isString (v : value) : bool :=
  match v with
  | Str _ => true
  | _ => false
  end.

Definition ToBoolean (v : value) : bool :=
  match v with
  | Null | Undefined | Num None => false
  | Num (Some z) => negb (z =? 0)
  | Str s => negb (length s =? 0)%nat
  end.

Definition ToString (v : value) : jsstring :=
  match v with
  | Null => js "null"
  | Undefined => js "undefined"
  | Num n => number_to_string n
  | Str s => s
  end.

(** An object as the list of its properties; a property that is absent
    reads as [undefined], and an assignment replaces the value of a
    property or adds the property at the end. *)
Definition object := list (jsstring * value).

Fixpoint get (o : object) (name : jsstring) : value :=
  match o with
  | [] => Undefined
  | (n, v) :: rest => if string_eqb n name then v else get rest name
  end.

Fixpoint set (o : object) (name : jsstring) (v : value) : object :=
  match o with
  | [] => [(name, v)]
  | (n, x) :: rest =>
      if string_eqb n name then (n, v) :: rest else (n, x) :: set rest name v
  end.

(** [model.options.keyring], as [setup] stores it: its properties [keys],
    [columns], [encryption], [keyringIdColumn] and [salt]. *)
Record KeyringOptions := {
  keyring_keys : keymap;
  keyring_columns : list jsstring;
  keyring_encryption : jsstring;
  keyringIdColumn : jsstring;
  keyring_salt : option jsstring
}.

(** The options of a model: only their property [keyring] is read; it is
    absent until [setup] is called. *)
Record ModelOptions := { options_keyring : option KeyringOptions }.

(** The functions [setup] registers on a model. *)
Inductive hook := beforeSave_hook | afterFind_hook.

Record Model := {
  model_options : ModelOptions;
  rawAttributes : list jsstring;   (* [Object.keys(model.rawAttributes)] *)
  hooks : list hook
}.

Record Instance := {
  _modelOptions : option ModelOptions;
  constructor' : Model;
  attributes : option (list jsstring);
  properties : object
}.

(** [record[name]] *)
Definition property (record : Instance) (name : jsstring) : value :=
  get (properties record) name.

Definition with_properties (record : Instance) (o : object) : Instance :=
  {| _modelOptions := _modelOptions record;
     constructor' := constructor' record;
     attributes := attributes record;
     properties := o |}.

(** [record._modelOptions || record.constructor.options] *)
Definition getModelOptions (record : Instance) : ModelOptions :=
  match _modelOptions record with
  | Some o => o
  | None => model_options (constructor' record)
  end.

(** A hook runs on a record it updates in place, and may throw; [draws]
    counts the calls of [crypto.randomBytes] so far. *)
Record state := { draws : nat; this : Instance }.

Definition Hook (A : Type) : Type := state -> state * result A.

Definition pure {A} (a : A) : Hook A := fun s => (s, Ok a).
Definition of_result {A} (r : result A) : Hook A := fun s => (s, r).
Definition and_then {A B} (m : Hook A) (k : A -> Hook B) : Hook B :=
  fun s =>
    match m s with
    | (s', Ok a) => k a s'
    | (s', Err e) => (s', Err e)
    end.

Declare Scope hook_scope.
Notation "x <~ m ;; k" := (and_then m (fun x => k))
  (at level 61, m at next level, right associativity) : hook_scope.
Local Open Scope hook_scope.

(** [record[name]] and [record[name] = v] on the record of the hook *)
Definition read (name : jsstring) : Hook value :=
  fun s => (s, Ok (property (this s) name)).
Definition write (name : jsstring) (v : value) : Hook unit :=
  fun s =>
    ({| draws := draws s;
        this := with_properties (this s) (set (properties (this s)) name v) |},
     Ok tt).

(** [record.attributes || Object.keys(record.constructor.rawAttributes)];
    an array is truthy, also when it is empty. *)
Definition attribute_names (record : Instance) : list jsstring :=
  match attributes record with
  | Some a => a
  | None => rawAttributes (constructor' record)
  end.

Definition record_attributes : Hook (list jsstring) :=
  fun s => (s, Ok (attribute_names (this s))).

(** [getModelOptions(record).keyring], destructured: a TypeError when the
    model has no such option. *)
Definition keyring_options : Hook KeyringOptions :=
  fun s =>
    (s, match options_keyring (getModelOptions (this s)) with
        | Some o => Ok o
        | None => Err TypeError
        end).

(** [Keyring(keys, { encryption, salt })] *)
Definition Keyring_of (o : KeyringOptions) : result Keyring :=
  keyring (keyring_keys o)
          {| encryption := Some (keyring_encryption o); salt := keyring_salt o |}.

Fixpoint forEach {A} (l : list A) (f : A -> Hook unit) : Hook unit :=
  match l with
  | [] => pure tt
  | x :: rest => _ <~ f x ;; forEach rest f
  end.

Definition includes (l : list jsstring) (name : jsstring) : bool :=
  existsb (string_eqb name) l.

Definition encrypted_ (column : jsstring) : jsstring := js "encrypted_" ++ column.
Definition _digest (column : jsstring) : jsstring := column ++ js "_digest".

Section Hooks.

(** [randomBytes n] stands for the bytes the call number [n] of
    [crypto.randomBytes(16)] returns. *)
Variable randomBytes : nat -> Buffer.

Definition draw : Hook Buffer :=
  fun s => ({| draws := S (draws s); this := this s |}, Ok (randomBytes (draws s))).

(** The function [beforeSave] applies to each column. *)
Definition beforeSave_column (o : KeyringOptions) (keyring : Keyring)
           (column : jsstring) : Hook unit :=
  let digestColumn := _digest column in
  value <~ read column ;;
  stored <~ read (keyringIdColumn o) ;;
  keyringId <~ (if ToBoolean stored then pure stored
                else current <~ of_result (Keyring_currentId keyring) ;;
                     pure (Num current)) ;;
  result <~ match value with
            | Str message =>   (* [isString(value)] *)
                iv <~ draw ;;
                r <~ of_result (Keyring_encrypt keyring iv (VString message)) ;;
                let '(encrypted, keyringId, digest) := r in
                pure (Str encrypted, Num keyringId, Str digest)
            | _ => pure (Null, keyringId, Null)
            end ;;
  let '(encrypted, keyringId, digest) := result in
  _ <~ write (encrypted_ column) encrypted ;;
  _ <~ write (keyringIdColumn o) keyringId ;;
  attributes <~ record_attributes ;;
  if includes attributes digestColumn then write digestColumn digest
  else pure tt.

Definition beforeSave : Hook unit :=
  o <~ keyring_options ;;
  keyring <~ of_result (Keyring_of o) ;;
  forEach (keyring_columns o) (beforeSave_column o keyring).

End Hooks.

(** The function [afterFind] applies to each column.  The key id is handed
    to [keyring.decrypt] as it is read from the record; [findKey] reads it
    with [parseInt(id, 10)], that is, through [ToString]. *)
Definition afterFind_column (o : KeyringOptions) (keyring : Keyring)
           (column : jsstring) : Hook unit :=
  keyringId <~ read (keyringIdColumn o) ;;
  encrypted <~ read (encrypted_ column) ;;
  value <~ match encrypted with
           | Str envelope =>   (* [isString(encrypted)] *)
               message <~ of_result
                 (outcome (Keyring_decrypt keyring envelope
                                           (VString (ToString keyringId)))) ;;
               pure (Str message)
           | _ => pure Null
           end ;;
  write column value.

(** [afterFind] on a record that is neither falsy nor an array. *)
Definition afterFind_record : Hook unit :=
  o <~ keyring_options ;;
  keyring <~ of_result (Keyring_of o) ;;
  forEach (keyring_columns o) (afterFind_column o keyring).

(** What [afterFind] is called with: nothing ([null] or [undefined]), a
    record, or an array; the elements of an array are taken to be distinct
    objects.  [afterFind] returns it as the hook leaves it, with the
    exception thrown, if any. *)
#[warnings="-register-all"]
Inductive found :=
| Nothing
| One (record : Instance)
| Many (records : list found).

Fixpoint afterFind (f : found) : found * result unit :=
  match f with
  | Nothing => (Nothing, Ok tt)
  | One record =>
      let '(s, r) := afterFind_record {| draws := 0; this := record |} in
      (One (this s), r)
  | Many records =>
      let '(records', r) :=
        (fix map (l : list found) : list found * result unit :=
           match l with
           | [] => ([], Ok tt)
           | x :: rest =>
               match afterFind x with
               | (x', Ok _) => let '(rest', r) := map rest in (x' :: rest', r)
               | (x', Err e) => (x' :: rest, Err e)
               end
           end) records in
      (Many records', r)
  end.

(** [setup(model, { keys, columns, salt, encryption, keyringIdColumn })];
    the last two properties may be absent. *)
Definition setup (model : Model) (keys : keymap) (columns : list jsstring)
           (salt : option jsstring) (encryption keyringIdColumn : option jsstring)
  : Model :=
  {| model_options :=
       {| options_keyring :=
            Some {| keyring_keys := keys;
                    keyring_columns := columns;
                    keyring_encryption := match encryption with
                                          | Some e => e
                                          | None => js "aes-128-cbc"
                                          end;
                    keyringIdColumn := match keyringIdColumn with
                                       | Some c => c
                                       | None => js "keyring_id"
                                       end;
                    keyring_salt := salt |} |};
     rawAttributes := rawAttributes model;
     hooks := hooks model ++ [beforeSave_hook; afterFind_hook] |}.

End Sequelize.

(** ** Predicates of the properties of the adapter *)

(** The names a hook writes are not names it reads for something else: no
    column is named like the encrypted form or the digest of a column, or
    like the id column, and the encrypted forms, the digests and the id
    column are distinct names. *)
Definition names_apart (columns : list jsstring) (idColumn : jsstring) : Prop :=
  forall c c',
    In c columns -> In c' columns ->
    c' <> Sequelize.encrypted_ c /\ c' <> Sequelize._digest c
    /\ c <> idColumn
    /\ Sequelize.encrypted_ c <> idColumn /\ Sequelize._digest c <> idColumn
    /\ Sequelize.encrypted_ c <> Sequelize._digest c'.

Definition names_apart_check (columns : list jsstring) (idColumn : jsstring)
  : bool :=
  forallb
    (fun c =>
       forallb
         (fun c' =>
            negb (string_eqb c' (Sequelize.encrypted_ c))
            && negb (string_eqb c' (Sequelize._digest c))
            && negb (string_eqb c idColumn)
            && negb (string_eqb (Sequelize.encrypted_ c) idColumn)
            && negb (string_eqb (Sequelize._digest c) idColumn)
            && negb (string_eqb (Sequelize.encrypted_ c) (Sequelize._digest c')))
         columns)
    columns.

(** The names through which the hooks reach the structure of a record
    ([_modelOptions], [attributes] and, inherited, [constructor]) and the
    other names every object inherits.  A property of such a name is not a
    plain property of the record: the model of the record keeps it apart
    from the property map. *)
Definition structural_names : list jsstring :=
  [js "_modelOptions"; js "attributes"] ++ Object_prototype.

Definition plain_name (name : jsstring) : Prop := ~ In name structural_names.

(** No name the hooks read or write is structural. *)
Definition names_plain (columns : list jsstring) (idColumn : jsstring) : Prop :=
  plain_name idColumn
  /\ forall c,
       In c columns ->
       plain_name c /\ plain_name (Sequelize.encrypted_ c)
       /\ plain_name (Sequelize._digest c).

Definition plain_name_check (name : jsstring) : bool :=
  negb (existsb (string_eqb name) structural_names).

Definition names_plain_check (columns : list jsstring) (idColumn : jsstring)
  : bool :=
  plain_name_check idColumn
  && forallb (fun c => plain_name_check c
                       && plain_name_check (Sequelize.encrypted_ c)
                       && plain_name_check (Sequelize._digest c)) columns.

(** What one round of [beforeSave] leaves in the properties [o] of a record:
    the encrypted value, the key id and, when the record has an attribute
    for it, the digest. *)
Definition column_saved (attributes : list jsstring) (idColumn column : jsstring)
           (encrypted keyringId digest : Sequelize.value) (o : Sequelize.object)
  : Sequelize.object :=
  let o' := Sequelize.set (Sequelize.set o (Sequelize.encrypted_ column) encrypted)
                          idColumn keyringId in
  if Sequelize.includes attributes (Sequelize._digest column)
  then Sequelize.set o' (Sequelize._digest column) digest
  else o'.

(** [stored || current] on key ids. *)
Definition id_or (stored : Sequelize.value) (current : Z) : Sequelize.value :=
  if Sequelize.ToBoolean stored then stored else Sequelize.Num (Some current).

(** A string column of the record holds code units, and no unpaired
    surrogate. *)
Definition columns_ok (record : Sequelize.Instance) (columns : list jsstring)
  : Prop :=
  forall column message,
    In column columns ->
    Sequelize.property record column = Sequelize.Str message ->
    jsstring_ok message /\ well_formed message = true.

(** What [afterFind] gives back for a value [beforeSave] was given: the
    string, or [null] for anything else. *)
Definition restored (v : Sequelize.value) : Sequelize.value :=
  match v with
  | Sequelize.Str message => Sequelize.Str message
  | _ => Sequelize.Null
  end.

(** The keyring options with another key map, and the record as it is once
    the caller has changed the key map the model options refer to (the
    hooks read the map anew at every call, and the options of the model and
    [_modelOptions] refer to the same object). *)
Definition rekeyed (o : Sequelize.KeyringOptions) (keys : keymap)
  : Sequelize.KeyringOptions :=
  {| Sequelize.keyring_keys := keys;
     Sequelize.keyring_columns := Sequelize.keyring_columns o;
     Sequelize.keyring_encryption := Sequelize.keyring_encryption o;
     Sequelize.keyringIdColumn := Sequelize.keyringIdColumn o;
     Sequelize.keyring_salt := Sequelize.keyring_salt o |}.

Definition with_keys (record : Sequelize.Instance) (keys : keymap)
  : Sequelize.Instance :=
  let rekey (m : Sequelize.ModelOptions) :=
    {| Sequelize.options_keyring :=
         option_map (fun o => rekeyed o keys) (Sequelize.options_keyring m) |} in
  {| Sequelize._modelOptions := option_map rekey (Sequelize._modelOptions record);
     Sequelize.constructor' :=
       {| Sequelize.model_options :=
            rekey (Sequelize.model_options (Sequelize.constructor' record));
          Sequelize.rawAttributes :=
            Sequelize.rawAttributes (Sequelize.constructor' record);
          Sequelize.hooks := Sequelize.hooks (Sequelize.constructor' record) |};
     Sequelize.attributes := Sequelize.attributes record;
     Sequelize.properties := Sequelize.properties record |}.

(** ** The data of the example of the adapter

    The model [users] of [examples/sequelize.js] once [setup] is called on
    it, and the record the example creates. *)
Definition users : Sequelize.Model :=
  Sequelize.setup
    {| Sequelize.model_options := {| Sequelize.options_keyring := None |};
       Sequelize.rawAttributes :=
         [js "id"; js "email"; js "email_digest"; js "encrypted_email";
          js "secret"; js "encrypted_secret"; js "keyring_id"];
       Sequelize.hooks := [] |}
    [(js "1", VString test_secret_128)]
    [js "email"; js "secret"]
    (Some (js "salt-n-pepper"))
    (Some (js "aes-128-cbc"))
    (Some (js "keyring_id")).

Definition users_keyring : Sequelize.KeyringOptions :=
  {| Sequelize.keyring_keys := [(js "1", VString test_secret_128)];
     Sequelize.keyring_columns := [js "email"; js "secret"];
     Sequelize.keyring_encryption := js "aes-128-cbc";
     Sequelize.keyringIdColumn := js "keyring_id";
     Sequelize.keyring_salt := Some (js "salt-n-pepper") |}.

Definition john : Sequelize.Instance :=
  {| Sequelize._modelOptions := None;
     Sequelize.constructor' := users;
     Sequelize.attributes := None;
     Sequelize.properties :=
       [(js "id", Sequelize.Num (Some 1234));
        (js "email", Sequelize.Str (js "john@example.com"));
        (js "secret", Sequelize.Str (js "don't tell anyone!"))] |}.



(** The second key of the example, and the keyring of the two keys. *)
Definition second_secret : jsstring :=
  js "VN8UXRVMNbIh9FWEFVde0q7GUA1SGOie1+FgAKlNYHc=".

Definition second_keyring : Keyring :=
  Eval vm_compute in
    match keyring [(js "1", VString test_secret_128);
                   (js "2", VString second_secret)]
                  (with_algorithm (js "aes-128-cbc") (js "salt-n-pepper")) with
    | Ok k => k
    | Err _ => {| keys := []; options := defaultKeyringOptions |}
    end.

(** Draws of [crypto.randomBytes(16)] that all return [test_iv]. *)
Definition test_draws (n : nat) : Buffer := test_iv.



(** A record as a query returns it: the encrypted form of its two columns
    and the id of the key; the first envelope is the one of the example
    script, the second one is the same with a bit of its HMAC inverted. *)
Definition john_found : Sequelize.Instance :=
  {| Sequelize._modelOptions := None;
     Sequelize.constructor' := users;
     Sequelize.attributes := None;
     Sequelize.properties :=
       [(js "id", Sequelize.Num (Some 1234));
        (js "encrypted_email", Sequelize.Str example_envelope);
        (js "encrypted_secret", Sequelize.Str example_envelope_bad_hmac);
        (js "keyring_id", Sequelize.Num (Some 1))] |}.


(** The key of [test_keyring]. *)
Definition test_key : Key :=
  nth 0 (keys test_keyring) {| id := None; encryptionKey := []; signingKey := [] |}.

(* ===================================================================== *)
(** * Part II: properties                                                 *)
(* ===================================================================== *)

(** ** Lists, bytes and ranges *)

Lemma range_forallb (P : Z -> bool) (n : nat) :
  forallb P (map Z.of_nat (seq 0 n)) = true ->
  forall z, 0 <= z < Z.of_nat n -> P z = true.
Proof.
  intros H z Hz.
  rewrite forallb_forall in H. apply H.
  apply in_map_iff. exists (Z.to_nat z). split; [lia|].
  apply in_seq. lia.
Qed.

Lemma byte_forallb (P : Z -> bool) :
  forallb P all_bytes = true -> forall b, byte_ok b -> P b = true.
Proof.
  intros H b Hb. apply (range_forallb P 256 H). unfold byte_ok in Hb. lia.
Qed.

Lemma byte_forallb2 (P : Z -> Z -> bool) :
  forallb (fun a => forallb (P a) all_bytes) all_bytes = true ->
  forall a b, byte_ok a -> byte_ok b -> P a b = true.
Proof.
  intros H a b Ha Hb.
  apply (byte_forallb (P a)); [|exact Hb].
  apply (byte_forallb (fun a => forallb (P a) all_bytes) H a Ha).
Qed.

Lemma bytes_ok_app (a b : list Z) :
  bytes_ok (a ++ b) <-> bytes_ok a /\ bytes_ok b.
Proof. apply Forall_app. Qed.

Lemma list_ind3 {A} (P : list A -> Prop) :
  P [] -> (forall a, P [a]) -> (forall a b, P [a; b]) ->
  (forall a b c r, P r -> P (a :: b :: c :: r)) ->
  forall l, P l.
Proof.
  intros H0 H1 H2 H3.
  assert (G : forall l, P l /\ (forall a, P (a :: l)) /\ (forall a b, P (a :: b :: l))).
  { induction l as [|x l IH].
    - auto.
    - destruct IH as (Ha & Hb & Hc). repeat split; auto. }
  intro l. apply G.
Qed.

(** ** Base64 *)

Lemma base64_char (n : Z) :
  0 <= n < 64 ->
  Base64.value_of (Base64.char_of n) = Some n /\ Base64.char_of n <> Base64.pad_char.
Proof.
  intro H.
  assert (G : (match Base64.value_of (Base64.char_of n) with
               | Some v => v =? n
               | None => false
               end && negb (Base64.char_of n =? Base64.pad_char)) = true).
  { apply (range_forallb
             (fun n => match Base64.value_of (Base64.char_of n) with
                       | Some v => v =? n
                       | None => false
                       end && negb (Base64.char_of n =? Base64.pad_char)) 64);
      [vm_compute; reflexivity | exact H]. }
  apply andb_true_iff in G. destruct G as [G1 G2].
  destruct (Base64.value_of (Base64.char_of n)) as [v|]; [|discriminate].
  apply Z.eqb_eq in G1. subst v. split; [reflexivity|].
  apply negb_true_iff, Z.eqb_neq in G2. exact G2.
Qed.

Lemma base64_char_low_byte (n : Z) :
  0 <= n < 64 -> Base64.low_byte (Base64.char_of n) = Base64.char_of n.
Proof.
  intro H. unfold Base64.low_byte, Base64.char_of.
  repeat match goal with
         | |- context [if ?b then _ else _] => destruct b eqn:?
         end;
    rewrite ?Z.ltb_lt, ?Z.ltb_ge, ?Z.eqb_eq, ?Z.eqb_neq in *;
    apply Z.mod_small; lia.
Qed.

Lemma base64_sextets_char (n : Z) (r : jsstring) :
  0 <= n < 64 ->
  Base64.sextets (Base64.char_of n :: r) = n :: Base64.sextets r.
Proof.
  intro H. destruct (base64_char n H) as [Hv Hp].
  cbn [Base64.sextets]. rewrite (base64_char_low_byte n H).
  apply Z.eqb_neq in Hp. rewrite Hp, Hv. reflexivity.
Qed.

Lemma base64_sextets_pad (r : jsstring) :
  Base64.sextets (Base64.pad_char :: r) = [].
Proof. reflexivity. Qed.

Ltac div_mod_lia := Z.div_mod_to_equations; lia.

Lemma base64_decode_encode (bs : Buffer) :
  bytes_ok bs -> Base64.decode (Base64.encode bs) = bs.
Proof.
  unfold Base64.decode.
  induction bs as [| a | a b | a b c r IH] using list_ind3; intro H.
  - reflexivity.
  - inversion_clear H as [|? ? Ha _]. unfold byte_ok in Ha.
    cbn [Base64.encode].
    rewrite !base64_sextets_char, base64_sextets_pad by div_mod_lia.
    cbn [Base64.bytes_of]. f_equal. div_mod_lia.
  - inversion_clear H as [|? ? Ha H']. inversion_clear H' as [|? ? Hb _].
    unfold byte_ok in Ha, Hb.
    cbn [Base64.encode].
    rewrite !base64_sextets_char, base64_sextets_pad by div_mod_lia.
    cbn [Base64.bytes_of]. f_equal; [|f_equal]; div_mod_lia.
  - inversion_clear H as [|? ? Ha H']. inversion_clear H' as [|? ? Hb H''].
    inversion_clear H'' as [|? ? Hc Hr].
    unfold byte_ok in Ha, Hb, Hc.
    cbn [Base64.encode].
    rewrite !base64_sextets_char by div_mod_lia.
    cbn [Base64.bytes_of]. rewrite (IH Hr).
    f_equal; [|f_equal; [|f_equal]]; div_mod_lia.
Qed.

(** ** UTF-8 *)

Ltac bool_lia :=
  unfold Utf8.between, Utf8.cont, is_high_surrogate, is_low_surrogate in *;
  rewrite ?andb_true_iff, ?andb_false_iff, ?orb_true_iff, ?orb_false_iff,
    ?Z.leb_le, ?Z.ltb_lt, ?Z.eqb_eq, ?Z.leb_gt, ?Z.ltb_ge, ?Z.eqb_neq in *;
  div_mod_lia.

Ltac if_true c := replace c with true by (symmetry; bool_lia).
Ltac if_false c := replace c with false by (symmetry; bool_lia).

Lemma utf8_decode_enc2 (u : Z) (x : Buffer) :
  0x80 <= u < 0x800 ->
  Utf8.decode (Utf8.enc2 u ++ x) = u :: Utf8.decode x.
Proof.
  intro H. cbn [Utf8.enc2 app Utf8.decode].
  if_false (0xC0 + u / 64 <? 0x80).
  if_true (Utf8.between 0xC2 0xDF (0xC0 + u / 64)).
  if_true (Utf8.cont (0x80 + u mod 64)).
  f_equal. div_mod_lia.
Qed.

Lemma utf8_decode_enc3 (u : Z) (x : Buffer) :
  0x800 <= u < 0x10000 ->
  is_high_surrogate u = false -> is_low_surrogate u = false ->
  Utf8.decode (Utf8.enc3 u ++ x) = u :: Utf8.decode x.
Proof.
  intros H Hh Hl. cbn [Utf8.enc3 app Utf8.decode].
  if_false (0xE0 + u / 4096 <? 0x80).
  if_false (Utf8.between 0xC2 0xDF (0xE0 + u / 4096)).
  if_true (Utf8.between 0xE0 0xEF (0xE0 + u / 4096)).
  assert (Hs : Utf8.between (fst (Utf8.second3 (0xE0 + u / 4096)))
                            (snd (Utf8.second3 (0xE0 + u / 4096)))
                            (0x80 + (u / 64) mod 64) = true).
  { unfold Utf8.second3.
    destruct (Z.eqb_spec (0xE0 + u / 4096) 0xE0);
      [|destruct (Z.eqb_spec (0xE0 + u / 4096) 0xED)]; cbn [fst snd]; bool_lia. }
  rewrite Hs.
  if_true (Utf8.cont (0x80 + u mod 64)).
  f_equal. div_mod_lia.
Qed.

Lemma utf8_decode_enc4 (hi lo : Z) (x : Buffer) :
  is_high_surrogate hi = true -> is_low_surrogate lo = true ->
  Utf8.decode (Utf8.enc4 (Utf8.pair_code_point hi lo) ++ x) = hi :: lo :: Utf8.decode x.
Proof.
  intros Hh Hl.
  assert (Hc : 0x10000 <= Utf8.pair_code_point hi lo < 0x110000)
    by (unfold Utf8.pair_code_point; bool_lia).
  set (c := Utf8.pair_code_point hi lo) in *.
  cbn [Utf8.enc4 app Utf8.decode].
  if_false (0xF0 + c / 262144 <? 0x80).
  if_false (Utf8.between 0xC2 0xDF (0xF0 + c / 262144)).
  if_false (Utf8.between 0xE0 0xEF (0xF0 + c / 262144)).
  if_true (Utf8.between 0xF0 0xF4 (0xF0 + c / 262144)).
  assert (Hs : Utf8.between (fst (Utf8.second4 (0xF0 + c / 262144)))
                            (snd (Utf8.second4 (0xF0 + c / 262144)))
                            (0x80 + (c / 4096) mod 64) = true).
  { unfold Utf8.second4.
    destruct (Z.eqb_spec (0xF0 + c / 262144) 0xF0);
      [|destruct (Z.eqb_spec (0xF0 + c / 262144) 0xF4)]; cbn [fst snd]; bool_lia. }
  rewrite Hs.
  if_true (Utf8.cont (0x80 + (c / 64) mod 64)).
  if_true (Utf8.cont (0x80 + c mod 64)).
  replace ((0xF0 + c / 262144 - 0xF0) * 262144 + (0x80 + (c / 4096) mod 64 - 0x80) * 4096
           + (0x80 + (c / 64) mod 64 - 0x80) * 64 + (0x80 + c mod 64 - 0x80))
    with c by div_mod_lia.
  unfold Utf8.units. if_false (c <? 0x10000).
  cbn [app]. subst c. unfold Utf8.pair_code_point in *.
  f_equal; [|f_equal]; bool_lia.
Qed.

Lemma utf8_decode_encode_bounded (n : nat) :
  forall s : jsstring,
    (length s <= n)%nat -> jsstring_ok s -> well_formed s = true ->
    Utf8.decode (Utf8.encode s) = s.
Proof.
  induction n as [|n IH]; intros s Hn Hok Hwf.
  - destruct s; [reflexivity | cbn in Hn; lia].
  - destruct s as [|u rest]; [reflexivity|].
    inversion_clear Hok as [|? ? Hu Hrest]. unfold unit_ok in Hu.
    cbn [length] in Hn.
    cbn [Utf8.encode well_formed] in *.
    destruct (Z.ltb_spec u 0x80).
    + assert (is_high_surrogate u = false) as E1 by bool_lia.
      assert (is_low_surrogate u = false) as E2 by bool_lia.
      rewrite E1, E2 in Hwf.
      cbn [Utf8.decode]. if_true (u <? 0x80).
      f_equal. apply IH; [lia | assumption | assumption].
    + destruct (Z.ltb_spec u 0x800).
      * assert (is_high_surrogate u = false) as E1 by bool_lia.
        assert (is_low_surrogate u = false) as E2 by bool_lia.
        rewrite E1, E2 in Hwf.
        rewrite utf8_decode_enc2 by lia.
        f_equal. apply IH; [lia | assumption | assumption].
      * destruct (is_high_surrogate u) eqn:E1.
        -- destruct rest as [|v rest']; [discriminate|].
           apply andb_true_iff in Hwf. destruct Hwf as [E2 Hwf].
           rewrite E2. rewrite utf8_decode_enc4 by assumption.
           inversion_clear Hrest as [|? ? Hv Hrest'].
           cbn [length] in Hn.
           do 2 f_equal. apply IH; [lia | assumption | assumption].
        -- destruct (is_low_surrogate u) eqn:E2; [discriminate|].
           rewrite utf8_decode_enc3 by (assumption || lia).
           f_equal. apply IH; [lia | assumption | assumption].
Qed.

Lemma utf8_decode_encode (s : jsstring) :
  jsstring_ok s -> well_formed s = true -> Utf8.decode (Utf8.encode s) = s.
Proof. apply (utf8_decode_encode_bounded (length s)). lia. Qed.

Lemma utf8_encode_bytes_ok_bounded (n : nat) :
  forall s : jsstring,
    (length s <= n)%nat -> jsstring_ok s -> bytes_ok (Utf8.encode s).
Proof.
  induction n as [|n IH]; intros s Hn Hok.
  - destruct s; [constructor | cbn in Hn; lia].
  - destruct s as [|u rest]; [constructor|].
    inversion_clear Hok as [|? ? Hu Hrest]. unfold unit_ok in Hu.
    cbn [length] in Hn. cbn [Utf8.encode].
    assert (Hr : bytes_ok (Utf8.encode rest)) by (apply IH; [lia | assumption]).
    assert (Hrep : bytes_ok Utf8.replacement)
      by (repeat constructor; unfold byte_ok; lia).
    destruct (Z.ltb_spec u 0x80).
    + constructor; [unfold byte_ok; lia | exact Hr].
    + destruct (Z.ltb_spec u 0x800).
      * apply bytes_ok_app. split; [|exact Hr].
        repeat constructor; unfold byte_ok; div_mod_lia.
      * destruct (is_high_surrogate u) eqn:E1.
        -- destruct rest as [|v rest']; [exact Hrep|].
           destruct (is_low_surrogate v) eqn:E2.
           ++ apply bytes_ok_app. split.
              ** unfold Utf8.enc4, Utf8.pair_code_point.
                 repeat constructor; unfold byte_ok; bool_lia.
              ** inversion_clear Hrest. cbn [length] in Hn.
                 apply IH; [lia | assumption].
           ++ apply bytes_ok_app. split; assumption.
        -- destruct (is_low_surrogate u) eqn:E2.
           ++ apply bytes_ok_app. split; assumption.
           ++ apply bytes_ok_app. split; [|exact Hr].
              repeat constructor; unfold byte_ok; div_mod_lia.
Qed.

Lemma utf8_encode_bytes_ok (s : jsstring) :
  jsstring_ok s -> bytes_ok (Utf8.encode s).
Proof. apply (utf8_encode_bytes_ok_bounded (length s)). lia. Qed.

(** ** Hash outputs *)

Lemma word32_to_bytes_ok (w : Z) : bytes_ok (Word32.to_bytes w).
Proof.
  unfold Word32.to_bytes.
  repeat constructor; unfold byte_ok; apply Z.mod_pos_bound; lia.
Qed.

Lemma word32_to_bytes_length (w : Z) : length (Word32.to_bytes w) = 4%nat.
Proof. reflexivity. Qed.

Lemma sha1_output_length (st : Sha1.state) : length (Sha1.output st) = 20%nat.
Proof. destruct st as [[[[a b] c] d] e]. reflexivity. Qed.

Lemma sha1_output_ok (st : Sha1.state) : bytes_ok (Sha1.output st).
Proof.
  destruct st as [[[[a b] c] d] e]. unfold Sha1.output.
  repeat (apply bytes_ok_app; split); apply word32_to_bytes_ok.
Qed.

Lemma sha1_hash_length (msg : Buffer) : length (Sha1.hash msg) = 20%nat.
Proof. apply sha1_output_length. Qed.

Lemma sha1_hash_ok (msg : Buffer) : bytes_ok (Sha1.hash msg).
Proof. apply sha1_output_ok. Qed.

Lemma sha256_hash_length (msg : Buffer) : length (Sha256.hash msg) = 32%nat.
Proof.
  unfold Sha256.hash.
  destruct (fold_left Sha256.compress _ _) as [[[[[[[a b] c] d] e] f] g] h].
  reflexivity.
Qed.

Lemma sha256_hash_ok (msg : Buffer) : bytes_ok (Sha256.hash msg).
Proof.
  unfold Sha256.hash.
  destruct (fold_left Sha256.compress _ _) as [[[[[[[a b] c] d] e] f] g] h].
  unfold Sha256.output.
  repeat (apply bytes_ok_app; split); apply word32_to_bytes_ok.
Qed.

Lemma hmacDigest_length (key msg : Buffer) : length (hmacDigest key msg) = 32%nat.
Proof. apply sha256_hash_length. Qed.

Lemma hmacDigest_ok (key msg : Buffer) : bytes_ok (hmacDigest key msg).
Proof. apply sha256_hash_ok. Qed.

(** ** Hexadecimal rendering *)

Lemma hex_length (bs : Buffer) : length (Hex.of_bytes bs) = (2 * length bs)%nat.
Proof.
  induction bs as [|b bs IH]; [reflexivity|].
  unfold Hex.of_bytes in *. cbn [flat_map Hex.of_byte app length].
  rewrite IH. lia.
Qed.

Lemma hex_digit_lower (n : Z) :
  0 <= n < 16 -> Hex.lower_hex_char (Hex.digit n) = true.
Proof.
  intro H. unfold Hex.lower_hex_char, Hex.digit.
  destruct (Z.ltb_spec n 10);
    rewrite ?orb_true_iff, ?andb_true_iff, ?Z.leb_le; lia.
Qed.

Lemma hex_lower (bs : Buffer) :
  bytes_ok bs -> forallb Hex.lower_hex_char (Hex.of_bytes bs) = true.
Proof.
  induction 1 as [|b bs Hb _ IH]; [reflexivity|].
  unfold Hex.of_bytes in *. cbn [flat_map Hex.of_byte app forallb].
  unfold byte_ok in Hb.
  rewrite IH, !hex_digit_lower by div_mod_lia. reflexivity.
Qed.

(** ** AES: the inverse cipher undoes the cipher *)

Lemma land_lxor_distr_l (a b c : Z) :
  Z.land (Z.lxor a b) c = Z.lxor (Z.land a c) (Z.land b c).
Proof.
  apply Z.bits_inj'. intros n Hn.
  rewrite Z.lxor_spec, !Z.land_spec, Z.lxor_spec.
  destruct (Z.testbit a n), (Z.testbit b n), (Z.testbit c n); reflexivity.
Qed.

Lemma byte_ok_land (a : Z) : byte_ok a <-> Z.land a 255 = a.
Proof.
  change 255 with (Z.ones 8). rewrite Z.land_ones by lia.
  unfold byte_ok. change (2 ^ 8) with 256. split; intro H.
  - apply Z.mod_small. exact H.
  - rewrite <- H. apply Z.mod_pos_bound. lia.
Qed.

Lemma lxor_byte_ok (a b : Z) : byte_ok a -> byte_ok b -> byte_ok (Z.lxor a b).
Proof.
  rewrite !byte_ok_land. intros Ha Hb.
  rewrite land_lxor_distr_l, Ha, Hb. reflexivity.
Qed.

Lemma byte_check (P : Z -> bool) (Q : Z -> Prop) :
  (forall b, P b = true -> Q b) ->
  forallb P all_bytes = true -> forall b, byte_ok b -> Q b.
Proof. intros HPQ H b Hb. apply HPQ, (byte_forallb P H b Hb). Qed.

Lemma in_byte_ok (x : Z) : in_byte x = true -> byte_ok x.
Proof.
  unfold in_byte, byte_ok. rewrite andb_true_iff, Z.leb_le, Z.ltb_lt. tauto.
Qed.

Lemma sbox_ok (b : Z) : byte_ok b -> byte_ok (Aes.sbox b).
Proof.
  revert b. apply (byte_check (fun b => in_byte (Aes.sbox b))).
  - intros b. apply in_byte_ok.
  - vm_compute. reflexivity.
Qed.

Lemma inv_sbox_sbox (b : Z) : byte_ok b -> Aes.inv_sbox (Aes.sbox b) = b.
Proof.
  revert b. apply (byte_check (fun b => Aes.inv_sbox (Aes.sbox b) =? b)).
  - intros b. apply Z.eqb_eq.
  - vm_compute. reflexivity.
Qed.

Lemma mul2_ok (b : Z) : byte_ok b -> byte_ok (Aes.mul2 b).
Proof.
  revert b. apply (byte_check (fun b => in_byte (Aes.mul2 b))).
  - intros b. apply in_byte_ok.
  - vm_compute. reflexivity.
Qed.

Lemma mul3_ok (b : Z) : byte_ok b -> byte_ok (Aes.mul3 b).
Proof.
  revert b. apply (byte_check (fun b => in_byte (Aes.mul3 b))).
  - intros b. apply in_byte_ok.
  - vm_compute. reflexivity.
Qed.

(** Multiplication by a constant distributes over xor. *)
Lemma lxor_medial (a b c d : Z) :
  Z.lxor (Z.lxor a b) (Z.lxor c d) = Z.lxor (Z.lxor a c) (Z.lxor b d).
Proof.
  rewrite !Z.lxor_assoc. f_equal.
  rewrite <- !Z.lxor_assoc. f_equal. apply Z.lxor_comm.
Qed.

Lemma xtime_linear : linear Aes.xtime.
Proof.
  intros a b. unfold Aes.xtime.
  rewrite Z.shiftl_lxor, land_lxor_distr_l, Z.lxor_spec.
  rewrite (lxor_medial (Z.land (Z.shiftl a 1) 255)).
  f_equal.
  destruct (Z.testbit a 7), (Z.testbit b 7); reflexivity.
Qed.

Lemma linear_lxor (f g : Z -> Z) :
  linear f -> linear g -> linear (fun x => Z.lxor (f x) (g x)).
Proof. intros Hf Hg a b. rewrite Hf, Hg. apply lxor_medial. Qed.

Lemma linear_compose (f g : Z -> Z) :
  linear f -> linear g -> linear (fun x => f (g x)).
Proof. intros Hf Hg a b. rewrite Hg, Hf. reflexivity. Qed.

Lemma linear_id : linear (fun x => x).
Proof. intros a b. reflexivity. Qed.

Lemma mul2_linear : linear Aes.mul2.
Proof. exact xtime_linear. Qed.
Lemma mul4_linear : linear Aes.mul4.
Proof. exact (linear_compose _ _ xtime_linear xtime_linear). Qed.
Lemma mul8_linear : linear Aes.mul8.
Proof. exact (linear_compose _ _ xtime_linear mul4_linear). Qed.
Lemma mul9_linear : linear Aes.mul9.
Proof. exact (linear_lxor _ _ mul8_linear linear_id). Qed.
Lemma mul11_linear : linear Aes.mul11.
Proof.
  exact (linear_lxor _ _ (linear_lxor _ _ mul8_linear mul2_linear) linear_id).
Qed.
Lemma mul13_linear : linear Aes.mul13.
Proof.
  exact (linear_lxor _ _ (linear_lxor _ _ mul8_linear mul4_linear) linear_id).
Qed.
Lemma mul14_linear : linear Aes.mul14.
Proof.
  exact (linear_lxor _ _ (linear_lxor _ _ mul8_linear mul4_linear) mul2_linear).
Qed.

Lemma linear_xor4 (f : Z -> Z) (w x y z : Z) :
  linear f -> f (Aes.xor4 w x y z) = Aes.xor4 (f w) (f x) (f y) (f z).
Proof. intros Hf. unfold Aes.xor4. rewrite !Hf. reflexivity. Qed.

Lemma xor4_transpose (a1 b1 c1 d1 a2 b2 c2 d2 a3 b3 c3 d3 a4 b4 c4 d4 : Z) :
  Aes.xor4 (Aes.xor4 a1 b1 c1 d1) (Aes.xor4 a2 b2 c2 d2)
           (Aes.xor4 a3 b3 c3 d3) (Aes.xor4 a4 b4 c4 d4)
  = Aes.xor4 (Aes.xor4 a1 a2 a3 a4) (Aes.xor4 b1 b2 b3 b4)
             (Aes.xor4 c1 c2 c3 c4) (Aes.xor4 d1 d2 d3 d4).
Proof.
  unfold Aes.xor4.
  rewrite (lxor_medial (Z.lxor a1 b1) (Z.lxor c1 d1) (Z.lxor a2 b2) (Z.lxor c2 d2)).
  rewrite (lxor_medial a1 b1 a2 b2), (lxor_medial c1 d1 c2 d2).
  rewrite (lxor_medial (Z.lxor a3 b3) (Z.lxor c3 d3) (Z.lxor a4 b4) (Z.lxor c4 d4)).
  rewrite (lxor_medial a3 b3 a4 b4), (lxor_medial c3 d3 c4 d4).
  rewrite (lxor_medial (Z.lxor (Z.lxor a1 a2) (Z.lxor b1 b2))).
  rewrite (lxor_medial (Z.lxor a1 a2) (Z.lxor b1 b2)).
  rewrite (lxor_medial (Z.lxor c1 c2) (Z.lxor d1 d2)).
  reflexivity.
Qed.

Lemma column_identities_hold (x : Z) : byte_ok x -> column_identities x = true.
Proof. apply byte_forallb. vm_compute. reflexivity. Qed.

Lemma inv_mix_column_mix_column (a b c d : Z) :
  byte_ok a -> byte_ok b -> byte_ok c -> byte_ok d ->
  Aes.inv_mix_column (Aes.mix_column [a; b; c; d]) = [a; b; c; d].
Proof.
  intros Ha Hb Hc Hd.
  pose proof (mul2_ok a Ha). pose proof (mul2_ok b Hb).
  pose proof (mul2_ok c Hc). pose proof (mul2_ok d Hd).
  pose proof (mul3_ok a Ha). pose proof (mul3_ok b Hb).
  pose proof (mul3_ok c Hc). pose proof (mul3_ok d Hd).
  pose proof (column_identities_hold a Ha) as Ia.
  pose proof (column_identities_hold b Hb) as Ib.
  pose proof (column_identities_hold c Hc) as Ic.
  pose proof (column_identities_hold d Hd) as Id.
  unfold column_identities in Ia, Ib, Ic, Id.
  rewrite !andb_true_iff, !Z.eqb_eq in Ia, Ib, Ic, Id.
  cbn [Aes.mix_column Aes.inv_mix_column].
  repeat match goal with
         | H : _ /\ _ |- _ => destruct H
         end.
  repeat match goal with
         | |- _ :: _ = _ :: _ => f_equal
         end;
    rewrite (linear_xor4 Aes.mul14), (linear_xor4 Aes.mul11),
      (linear_xor4 Aes.mul13), (linear_xor4 Aes.mul9)
      by (apply mul9_linear || apply mul11_linear
          || apply mul13_linear || apply mul14_linear);
    rewrite xor4_transpose;
    repeat match goal with
           | H : Aes.xor4 _ _ _ _ = _ |- _ => rewrite H; clear H
           end;
    unfold Aes.xor4; rewrite ?Z.lxor_0_r, ?Z.lxor_0_l; reflexivity.
Qed.

Lemma inv_mix_column_explicit (a b c d : Z) :
  byte_ok a -> byte_ok b -> byte_ok c -> byte_ok d ->
  Aes.inv_mix_column
    [Aes.xor4 (Aes.mul2 a) (Aes.mul3 b) c d;
     Aes.xor4 a (Aes.mul2 b) (Aes.mul3 c) d;
     Aes.xor4 a b (Aes.mul2 c) (Aes.mul3 d);
     Aes.xor4 (Aes.mul3 a) b c (Aes.mul2 d)] = [a; b; c; d].
Proof. exact (inv_mix_column_mix_column a b c d). Qed.

Lemma xor4_ok (a b c d : Z) :
  byte_ok a -> byte_ok b -> byte_ok c -> byte_ok d -> byte_ok (Aes.xor4 a b c d).
Proof. intros. unfold Aes.xor4. repeat apply lxor_byte_ok; assumption. Qed.

(** Naming the sixteen bytes of a block. *)
Ltac explode_block s H :=
  let Hl := fresh "Hl" in
  let Hb := fresh "Hb" in
  destruct H as [Hl Hb];
  do 16 (destruct s as [|? s]; [discriminate Hl|]);
  destruct s; [clear Hl | discriminate Hl];
  unfold bytes_ok in Hb;
  repeat match goal with
         | H : Forall _ (_ :: _) |- _ => inversion_clear H
         end.

Ltac block_ok :=
  split; [reflexivity|];
  cbv [Aes.shift_rows Aes.pick map nth Aes.mix_columns Aes.mix_column app bytes_ok];
  repeat (apply Forall_cons;
          [auto using lxor_byte_ok, xor4_ok, mul2_ok, mul3_ok, sbox_ok|]);
  apply Forall_nil.

Lemma sub_bytes_block (s : list Z) : is_block s -> is_block (Aes.sub_bytes s).
Proof.
  intros [Hl Hb]. split.
  - unfold Aes.sub_bytes. rewrite length_map. exact Hl.
  - unfold Aes.sub_bytes. apply Forall_map.
    eapply Forall_impl; [|exact Hb]. apply sbox_ok.
Qed.

Lemma inv_sub_bytes_sub_bytes (s : list Z) :
  bytes_ok s -> Aes.inv_sub_bytes (Aes.sub_bytes s) = s.
Proof.
  induction 1 as [|b s Hb _ IH]; [reflexivity|].
  unfold Aes.inv_sub_bytes, Aes.sub_bytes in *. cbn [map].
  rewrite IH, inv_sbox_sbox by exact Hb. reflexivity.
Qed.

Lemma shift_rows_block (s : list Z) : is_block s -> is_block (Aes.shift_rows s).
Proof. intro H. explode_block s H. block_ok. Qed.

Lemma inv_shift_rows_shift_rows (s : list Z) :
  is_block s -> Aes.inv_shift_rows (Aes.shift_rows s) = s.
Proof. intro H. explode_block s H. reflexivity. Qed.

Lemma mix_columns_block (s : list Z) : is_block s -> is_block (Aes.mix_columns s).
Proof. intro H. explode_block s H. block_ok. Qed.

Lemma inv_mix_columns_mix_columns (s : list Z) :
  is_block s -> Aes.inv_mix_columns (Aes.mix_columns s) = s.
Proof.
  intro H. explode_block s H.
  cbn [Aes.mix_columns Aes.mix_column app Aes.inv_mix_columns].
  rewrite !inv_mix_column_explicit by assumption. reflexivity.
Qed.

Lemma xor_bytes_length (a b : list Z) :
  length b = length a -> length (Aes.xor_bytes a b) = length a.
Proof.
  intro H. unfold Aes.xor_bytes. rewrite length_map, length_combine. lia.
Qed.

Lemma xor_bytes_ok (a b : list Z) :
  bytes_ok a -> bytes_ok b -> bytes_ok (Aes.xor_bytes a b).
Proof.
  intro Ha. revert b. induction Ha as [|x a Hx _ IH]; intros b Hb.
  - constructor.
  - destruct Hb as [|y b Hy Hb]; [constructor|].
    unfold Aes.xor_bytes in *. cbn [combine map fst snd]. constructor.
    + apply lxor_byte_ok; assumption.
    + apply IH. exact Hb.
Qed.

Lemma xor_bytes_cancel (a b : list Z) :
  length b = length a -> Aes.xor_bytes (Aes.xor_bytes a b) b = a.
Proof.
  revert b. induction a as [|x a IH]; intros [|y b] H; try discriminate H.
  - reflexivity.
  - unfold Aes.xor_bytes in *. cbn [combine map fst snd].
    rewrite IH by (cbn in H; lia).
    rewrite Z.lxor_assoc, Z.lxor_nilpotent, Z.lxor_0_r. reflexivity.
Qed.

Lemma xor_bytes_block (a b : list Z) :
  is_block a -> is_block b -> is_block (Aes.xor_bytes a b).
Proof.
  intros [Hla Hba] [Hlb Hbb]. split.
  - rewrite xor_bytes_length; congruence.
  - apply xor_bytes_ok; assumption.
Qed.

Lemma round_block (k s : list Z) :
  is_block k -> is_block s -> is_block (Aes.round k s).
Proof.
  intros Hk Hs. unfold Aes.round, Aes.add_round_key.
  apply xor_bytes_block; [|exact Hk].
  apply mix_columns_block, shift_rows_block, sub_bytes_block, Hs.
Qed.

Lemma final_round_block (k s : list Z) :
  is_block k -> is_block s -> is_block (Aes.final_round k s).
Proof.
  intros Hk Hs. unfold Aes.final_round, Aes.add_round_key.
  apply xor_bytes_block; [|exact Hk].
  apply shift_rows_block, sub_bytes_block, Hs.
Qed.

Lemma inv_round_round (k s : list Z) :
  is_block k -> is_block s -> Aes.inv_round k (Aes.round k s) = s.
Proof.
  intros Hk Hs. unfold Aes.inv_round, Aes.round, Aes.add_round_key.
  pose proof (sub_bytes_block s Hs) as H1.
  pose proof (shift_rows_block _ H1) as H2.
  pose proof (mix_columns_block _ H2) as H3.
  rewrite xor_bytes_cancel by (destruct Hk, H3; congruence).
  rewrite inv_mix_columns_mix_columns by exact H2.
  rewrite inv_shift_rows_shift_rows by exact H1.
  apply inv_sub_bytes_sub_bytes, Hs.
Qed.

Lemma inv_final_round_final_round (k s : list Z) :
  is_block k -> is_block s -> Aes.inv_final_round k (Aes.final_round k s) = s.
Proof.
  intros Hk Hs. unfold Aes.inv_final_round, Aes.final_round, Aes.add_round_key.
  pose proof (sub_bytes_block s Hs) as H1.
  pose proof (shift_rows_block _ H1) as H2.
  rewrite xor_bytes_cancel by (destruct Hk, H2; congruence).
  rewrite inv_shift_rows_shift_rows by exact H1.
  apply inv_sub_bytes_sub_bytes, Hs.
Qed.

Lemma rounds_block (ks : list (list Z)) :
  Forall is_block ks -> forall s, is_block s -> is_block (Aes.rounds ks s).
Proof.
  induction 1 as [|k ks Hk Hks IH]; intros s Hs; [exact Hs|].
  destruct ks as [|k' ks'].
  - apply final_round_block; assumption.
  - change (is_block (Aes.rounds (k' :: ks') (Aes.round k s))).
    apply IH, round_block; assumption.
Qed.

Lemma inv_rounds_rounds (ks : list (list Z)) :
  Forall is_block ks ->
  forall s, is_block s -> Aes.inv_rounds ks (Aes.rounds ks s) = s.
Proof.
  induction 1 as [|k ks Hk Hks IH]; intros s Hs; [reflexivity|].
  destruct ks as [|k' ks'].
  - apply inv_final_round_final_round; assumption.
  - change (Aes.inv_round k (Aes.inv_rounds (k' :: ks')
              (Aes.rounds (k' :: ks') (Aes.round k s))) = s).
    rewrite IH by (apply round_block; assumption).
    apply inv_round_round; assumption.
Qed.

Lemma cipher_block (ks : list (list Z)) (s : list Z) :
  Forall is_block ks -> is_block s -> is_block (Aes.cipher ks s).
Proof.
  intros Hks Hs. destruct Hks as [|k0 ks Hk0 Hks]; [exact Hs|].
  cbn [Aes.cipher]. apply rounds_block; [exact Hks|].
  apply xor_bytes_block; assumption.
Qed.

Lemma inv_cipher_cipher (ks : list (list Z)) (s : list Z) :
  Forall is_block ks -> is_block s -> Aes.inv_cipher ks (Aes.cipher ks s) = s.
Proof.
  intros Hks Hs. destruct Hks as [|k0 ks Hk0 Hks]; [reflexivity|].
  cbn [Aes.cipher Aes.inv_cipher].
  rewrite inv_rounds_rounds by (try apply xor_bytes_block; assumption).
  unfold Aes.add_round_key. apply xor_bytes_cancel.
  destruct Hk0, Hs. congruence.
Qed.

(** ** Cutting into pieces *)

Section Chunks.
Context {A : Type}.
Variable n : nat.
Hypothesis n_pos : (1 <= n)%nat.

Lemma chunks_aux_fuel (f f' : nat) :
  forall l : list A,
    (length l <= f)%nat -> (length l <= f')%nat ->
    chunks_aux f n l = chunks_aux f' n l.
Proof.
  revert f'. induction f as [|f IH]; intros f' l Hf Hf'.
  - destruct l; [|cbn in Hf; lia]. destruct f'; reflexivity.
  - destruct l as [|x l]; [destruct f'; reflexivity|].
    destruct f' as [|f']; [cbn in Hf'; lia|].
    cbn [chunks_aux]. f_equal.
    cbn [length] in Hf, Hf'.
    apply IH; rewrite length_skipn; cbn [length]; lia.
Qed.

Lemma chunks_cons (x : A) (l : list A) :
  chunks n (x :: l) = firstn n (x :: l) :: chunks n (skipn n (x :: l)).
Proof.
  unfold chunks. cbn [length chunks_aux]. f_equal.
  apply chunks_aux_fuel; rewrite ?length_skipn; cbn [length]; lia.
Qed.

Lemma chunks_nil : chunks n (@nil A) = [].
Proof. reflexivity. Qed.

Lemma chunks_app (a l : list A) :
  length a = n -> chunks n (a ++ l) = a :: chunks n l.
Proof.
  intro Ha. destruct a as [|x a]; [cbn in Ha; lia|].
  change ((x :: a) ++ l) with (x :: (a ++ l)).
  rewrite chunks_cons.
  change (x :: (a ++ l)) with ((x :: a) ++ l).
  rewrite firstn_app, skipn_app. rewrite <- Ha.
  rewrite Nat.sub_diag, firstn_all, skipn_all.
  cbn [firstn skipn app]. rewrite app_nil_r. reflexivity.
Qed.

Lemma chunks_concat (bl : list (list A)) :
  Forall (fun c => length c = n) bl -> chunks n (concat bl) = bl.
Proof.
  induction 1 as [|c bl Hc _ IH]; [reflexivity|].
  cbn [concat]. rewrite chunks_app by exact Hc. rewrite IH. reflexivity.
Qed.

Lemma chunks_exact (k : nat) :
  forall l : list A,
    length l = (k * n)%nat ->
    length (chunks n l) = k
    /\ Forall (fun c => length c = n) (chunks n l)
    /\ concat (chunks n l) = l.
Proof.
  induction k as [|k IH]; intros l Hl.
  - destruct l; [|discriminate Hl]. repeat split. constructor.
  - rewrite <- (firstn_skipn n l).
    assert (Hf : length (firstn n l) = n) by (rewrite length_firstn; lia).
    rewrite chunks_app by exact Hf.
    destruct (IH (skipn n l)) as (H1 & H2 & H3);
      [rewrite length_skipn; lia|].
    cbn [length concat]. rewrite H1, H3. repeat split.
    constructor; assumption.
Qed.

End Chunks.

(** ** AES: the round keys are blocks *)

Lemma rcon_ok (i : nat) : byte_ok (nth i Aes.rcon 0).
Proof.
  do 10 (destruct i as [|i]; [unfold byte_ok; cbn; lia|]).
  destruct i; unfold byte_ok; cbn; lia.
Qed.

Ltac explode_word w H :=
  let Hl := fresh "Hl" in
  let Hb := fresh "Hb" in
  destruct H as [Hl Hb];
  do 4 (destruct w as [|? w]; [discriminate Hl|]);
  destruct w; [clear Hl | discriminate Hl];
  unfold bytes_ok in Hb;
  repeat match goal with
         | H : Forall _ (_ :: _) |- _ => inversion_clear H
         end.

Lemma is_word_nth (i : nat) (ws : list (list Z)) :
  Forall is_word ws -> (i < length ws)%nat -> is_word (nth i ws []).
Proof.
  intros H Hi. rewrite Forall_forall in H. apply H, nth_In, Hi.
Qed.

Lemma xor_word (a b : list Z) :
  is_word a -> is_word b -> is_word (Aes.xor_bytes a b).
Proof.
  intros [Hla Hba] [Hlb Hbb]. split.
  - rewrite xor_bytes_length; congruence.
  - apply xor_bytes_ok; assumption.
Qed.

Lemma sub_word_word (w : list Z) : is_word w -> is_word (Aes.sub_word w).
Proof.
  intros [Hl Hb]. unfold Aes.sub_word. split.
  - rewrite length_map. exact Hl.
  - apply Forall_map. eapply Forall_impl; [|exact Hb]. apply sbox_ok.
Qed.

Lemma rot_word_word (w : list Z) : is_word w -> is_word (Aes.rot_word w).
Proof.
  intro H. explode_word w H. split; [reflexivity|].
  cbn [Aes.rot_word app]. repeat (apply Forall_cons; [assumption|]).
  apply Forall_nil.
Qed.

Lemma expand_step_word (nk i : nat) (rev_w : list (list Z)) :
  (1 <= nk <= length rev_w)%nat -> Forall is_word rev_w ->
  is_word (Aes.expand_step nk i rev_w).
Proof.
  intros Hnk Hw. unfold Aes.expand_step.
  assert (Hp : is_word (nth 0 rev_w [])) by (apply is_word_nth; [assumption|lia]).
  apply xor_word; [apply is_word_nth; [assumption|lia]|].
  destruct (i mod nk =? 0)%nat.
  - apply xor_word; [apply sub_word_word, rot_word_word, Hp|].
    split; [reflexivity|].
    repeat (apply Forall_cons; [first [apply rcon_ok | unfold byte_ok; lia]|]).
    apply Forall_nil.
  - destruct ((6 <? nk)%nat && (i mod nk =? 4)%nat).
    + apply sub_word_word, Hp.
    + exact Hp.
Qed.

Lemma expand_words (n nk : nat) :
  forall (i : nat) (rev_w : list (list Z)),
    (1 <= nk <= length rev_w)%nat -> Forall is_word rev_w ->
    Forall is_word (Aes.expand n nk i rev_w)
    /\ length (Aes.expand n nk i rev_w) = (n + length rev_w)%nat.
Proof.
  induction n as [|n IH]; intros i rev_w Hnk Hw.
  - split; [exact Hw | reflexivity].
  - cbn [Aes.expand].
    destruct (IH (S i) (Aes.expand_step nk i rev_w :: rev_w)) as [H1 H2].
    + cbn [length]. lia.
    + constructor; [apply expand_step_word; assumption | exact Hw].
    + split; [exact H1|]. rewrite H2. cbn [length]. lia.
Qed.

Lemma concat_words_block (ws : list (list Z)) :
  length ws = 4%nat -> Forall is_word ws -> is_block (concat ws).
Proof.
  intros Hl Hw.
  do 4 (destruct ws as [|? ws]; [discriminate Hl|]).
  destruct ws; [|discriminate Hl].
  repeat match goal with
         | H : Forall _ (_ :: _) |- _ => inversion_clear H
         end.
  repeat match goal with
         | H : is_word _ |- _ => destruct H
         end.
  cbn [concat]. rewrite app_nil_r. split.
  - rewrite !length_app. lia.
  - repeat (apply bytes_ok_app; split); assumption.
Qed.

Lemma Forall_firstn_skipn {A} (P : A -> Prop) (n : nat) (l : list A) :
  Forall P l -> Forall P (firstn n l) /\ Forall P (skipn n l).
Proof. intro H. apply Forall_app. rewrite firstn_skipn. exact H. Qed.

Lemma Forall_sublist_chunks {A} (P : A -> Prop) (n : nat) (l : list A) :
  Forall P l -> Forall (Forall P) (chunks n l).
Proof.
  unfold chunks. generalize (length l) as f. intros f. revert l.
  induction f as [|f IH]; intros l H; [constructor|].
  destruct l as [|x l]; [constructor|].
  cbn [chunks_aux]. constructor.
  - apply Forall_firstn_skipn, H.
  - apply IH, (Forall_firstn_skipn P n (x :: l)), H.
Qed.

Lemma key_schedule_blocks (key : Buffer) :
  bytes_ok key ->
  (length key = 16 \/ length key = 24 \/ length key = 32)%nat ->
  Forall is_block (Aes.key_schedule key).
Proof.
  intros Hb Hl. unfold Aes.key_schedule.
  set (nk := (length key / 4)%nat).
  assert (Hnk : (1 <= nk)%nat /\ length key = (nk * 4)%nat).
  { subst nk. destruct Hl as [E | [E | E]]; rewrite E;
      (split; [apply Nat.leb_le | apply Nat.eqb_eq]); reflexivity. }
  destruct Hnk as [Hnk Hlen].
  destruct (chunks_exact 4 (ltac:(lia)) nk key Hlen) as (Hc1 & Hc2 & _).
  assert (Hkw : Forall is_word (rev (chunks 4 key))).
  { apply Forall_rev.
    exact (Forall_and Hc2 (Forall_sublist_chunks byte_ok 4 key Hb)). }
  destruct (expand_words (4 * (nk + 7) - nk) nk nk (rev (chunks 4 key)))
    as [He1 He2]; [rewrite length_rev; lia | exact Hkw |].
  rewrite length_rev, Hc1 in He2.
  set (w := rev (Aes.expand _ _ _ _)).
  assert (Hw : Forall is_word w) by (apply Forall_rev, He1).
  assert (Hwl : length w = ((nk + 7) * 4)%nat)
    by (subst w; rewrite length_rev, He2; lia).
  destruct (chunks_exact 4 (ltac:(lia)) (nk + 7) w Hwl) as (_ & Hg & _).
  pose proof (Forall_and Hg (Forall_sublist_chunks is_word 4 w Hw)) as Hg'.
  apply Forall_map. eapply Forall_impl; [|exact Hg'].
  intros g [Hg1 Hg2]. apply concat_words_block; assumption.
Qed.

(** ** CBC and padding *)

Lemma cbc_encrypt_blocks (ks : list (list Z)) :
  Forall is_block ks ->
  forall blocks prev,
    is_block prev -> Forall is_block blocks ->
    Forall is_block (Aes.cbc_encrypt ks prev blocks).
Proof.
  intros Hks. induction blocks as [|p r IH]; intros prev Hprev Hbl.
  - constructor.
  - inversion_clear Hbl as [|? ? Hp Hr]. cbn [Aes.cbc_encrypt].
    assert (Hc : is_block (Aes.cipher ks (Aes.xor_bytes p prev)))
      by (apply cipher_block; [|apply xor_bytes_block]; assumption).
    constructor; [exact Hc | apply IH; assumption].
Qed.

Lemma cbc_decrypt_encrypt (ks : list (list Z)) :
  Forall is_block ks ->
  forall blocks prev,
    is_block prev -> Forall is_block blocks ->
    Aes.cbc_decrypt ks prev (Aes.cbc_encrypt ks prev blocks) = blocks.
Proof.
  intros Hks. induction blocks as [|p r IH]; intros prev Hprev Hbl.
  - reflexivity.
  - inversion_clear Hbl as [|? ? Hp Hr]. cbn [Aes.cbc_encrypt Aes.cbc_decrypt].
    rewrite inv_cipher_cipher by (try apply xor_bytes_block; assumption).
    rewrite xor_bytes_cancel by (destruct Hp, Hprev; congruence).
    f_equal. apply IH; [|exact Hr].
    apply cipher_block; [|apply xor_bytes_block]; assumption.
Qed.

Lemma pkcs7_pad_spec (bs : Buffer) :
  bytes_ok bs ->
  exists k : nat,
    length (Aes.pkcs7_pad bs) = (S k * 16)%nat /\ bytes_ok (Aes.pkcs7_pad bs).
Proof.
  intro Hb. unfold Aes.pkcs7_pad.
  pose proof (Nat.mod_upper_bound (length bs) 16 (ltac:(lia))) as Hm.
  pose proof (Nat.div_mod_eq (length bs) 16) as Hd.
  exists (length bs / 16)%nat. split.
  - rewrite length_app, repeat_length. lia.
  - apply bytes_ok_app. split; [exact Hb|].
    apply Forall_forall. intros x Hx. apply repeat_spec in Hx. subst x.
    unfold byte_ok. lia.
Qed.

Lemma pkcs7_unpad_pad (bs : Buffer) :
  Aes.pkcs7_unpad (Aes.pkcs7_pad bs) = Some bs.
Proof.
  unfold Aes.pkcs7_pad, Aes.pkcs7_unpad.
  pose proof (Nat.mod_upper_bound (length bs) 16 (ltac:(lia))) as Hm.
  set (n := (16 - length bs mod 16)%nat) in *.
  assert (Hn : (1 <= n <= 16)%nat) by (subst n; lia).
  assert (Hlast : last (bs ++ repeat (Z.of_nat n) n) 0 = Z.of_nat n).
  { destruct n as [|m]; [lia|].
    replace (repeat (Z.of_nat (S m)) (S m))
      with (repeat (Z.of_nat (S m)) m ++ [Z.of_nat (S m)])
      by (symmetry; apply (repeat_cons m)).
    rewrite app_assoc. apply last_last. }
  rewrite Hlast, Nat2Z.id, length_app, repeat_length.
  replace (length bs + n - n)%nat with (length bs) by lia.
  rewrite skipn_app, Nat.sub_diag, skipn_all, firstn_app, Nat.sub_diag, firstn_all.
  cbn [skipn firstn app]. rewrite app_nil_r.
  replace (forallb (Z.eqb (Z.of_nat n)) (repeat (Z.of_nat n) n)) with true.
  - replace (1 <=? Z.of_nat n) with true by (symmetry; apply Z.leb_le; lia).
    replace (Z.of_nat n <=? 16) with true by (symmetry; apply Z.leb_le; lia).
    replace (n <=? length bs + n)%nat with true
      by (symmetry; apply Nat.leb_le; lia).
    reflexivity.
  - symmetry. apply forallb_forall. intros x Hx. apply repeat_spec in Hx.
    subst x. apply Z.eqb_refl.
Qed.

Lemma cipher_run_blocks (c : Aes.Cipheriv) (data : Buffer) :
  cipher_ok c -> bytes_ok data ->
  exists blocks,
    Aes.cipher_run c data = concat blocks
    /\ blocks = Aes.cbc_encrypt (Aes.round_keys c) (Aes.init_vector c)
                                (chunks 16 (Aes.pkcs7_pad data))
    /\ Forall is_block blocks /\ (1 <= length blocks)%nat
    /\ Forall is_block (chunks 16 (Aes.pkcs7_pad data)).
Proof.
  intros [Hks Hiv] Hd.
  destruct (pkcs7_pad_spec data Hd) as (k & Hlen & Hpb).
  destruct (chunks_exact 16 (ltac:(lia)) (S k) _ Hlen) as (Hc1 & Hc2 & Hc3).
  assert (Hbl : Forall is_block (chunks 16 (Aes.pkcs7_pad data))).
  { exact (Forall_and Hc2 (Forall_sublist_chunks byte_ok 16 _ Hpb)). }
  eexists. split; [reflexivity|]. split; [reflexivity|].
  split; [apply cbc_encrypt_blocks; assumption|]. split; [|exact Hbl].
  clear - Hc1. revert Hc1.
  generalize (Aes.init_vector c), (chunks 16 (Aes.pkcs7_pad data)).
  intros prev l. destruct l; cbn; [discriminate | lia].
Qed.

Lemma concat_blocks (blocks : list (list Z)) :
  Forall is_block blocks ->
  length (concat blocks) = (length blocks * 16)%nat
  /\ bytes_ok (concat blocks)
  /\ chunks 16 (concat blocks) = blocks.
Proof.
  intro H. split; [|split].
  - induction H as [|b bl [Hb _] _ IH]; [reflexivity|].
    cbn [concat length]. rewrite length_app, IH, Hb. lia.
  - induction H as [|b bl [_ Hb] _ IH]; [constructor|].
    cbn [concat]. apply bytes_ok_app. split; assumption.
  - apply chunks_concat; [lia|].
    eapply Forall_impl; [|exact H]. intros b [Hb _]. exact Hb.
Qed.

Lemma decipher_run_cipher_run (c : Aes.Cipheriv) (data : Buffer) :
  cipher_ok c -> bytes_ok data ->
  Aes.decipher_run c (Aes.cipher_run c data) = Ok data.
Proof.
  intros Hc Hd.
  destruct (cipher_run_blocks c data Hc Hd) as (blocks & E & Eb & Hbl & Hne & Hpl).
  destruct (concat_blocks blocks Hbl) as (Hlen & _ & Hch).
  destruct Hc as [Hks Hiv].
  unfold Aes.decipher_run. rewrite E, Hlen, Hch.
  replace (length blocks * 16 =? 0)%nat with false
    by (symmetry; apply Nat.eqb_neq; lia).
  rewrite Nat.Div0.mod_mul. cbn [Nat.eqb negb orb].
  rewrite Eb, cbc_decrypt_encrypt by assumption.
  destruct (pkcs7_pad_spec data Hd) as (k & Hk & _).
  destruct (chunks_exact 16 (ltac:(lia)) (S k) _ Hk) as (_ & _ & Hcc).
  rewrite Hcc, pkcs7_unpad_pad. reflexivity.
Qed.

(** ** [parseInt] reads back the numeral of an integer *)

Lemma digits_aux_value (f : nat) :
  forall n acc p q,
    0 <= n < 2 ^ Z.of_nat f -> reads_as acc p q ->
    digits_value 0 (digits_aux f n acc) = n * p + q.
Proof.
  induction f as [|f IH]; intros n acc p q Hn Ha.
  - cbn [digits_aux]. change (2 ^ Z.of_nat 0) with 1 in Hn.
    assert (n = 0) as -> by lia. rewrite Ha. reflexivity.
  - cbn [digits_aux]. destruct (Z.ltb_spec n 10) as [Hlt | Hge].
    + cbn [digits_value]. unfold is_digit.
      replace ((48 <=? 48 + n) && (48 + n <=? 57)) with true
        by (symmetry; rewrite andb_true_iff, !Z.leb_le; lia).
      rewrite Ha. lia.
    + rewrite (IH (n / 10) _ (10 * p) ((n mod 10) * p + q)).
      * pose proof (Z.div_mod n 10 (ltac:(lia))). nia.
      * rewrite Nat2Z.inj_succ, Z.pow_succ_r in Hn by lia. div_mod_lia.
      * intro v. cbn [digits_value]. unfold is_digit.
        replace ((48 <=? 48 + n mod 10) && (48 + n mod 10 <=? 57)) with true
          by (symmetry; rewrite andb_true_iff, !Z.leb_le; div_mod_lia).
        rewrite Ha. ring.
Qed.

Lemma digits_aux_head (f : nat) :
  forall n acc,
    0 <= n ->
    exists d rest, digits_aux (S f) n acc = d :: rest /\ is_digit d = true.
Proof.
  induction f as [|f IH]; intros n acc Hn.
  - cbn [digits_aux]. destruct (Z.ltb_spec n 10).
    + exists (48 + n), acc. split; [reflexivity|].
      unfold is_digit. rewrite andb_true_iff, !Z.leb_le. lia.
    + exists (48 + n mod 10), acc. split; [reflexivity|].
      unfold is_digit. rewrite andb_true_iff, !Z.leb_le. div_mod_lia.
  - change (digits_aux (S (S f)) n acc)
      with (if n <? 10 then (48 + n) :: acc
            else digits_aux (S f) (n / 10) ((48 + n mod 10) :: acc)).
    destruct (Z.ltb_spec n 10).
    + exists (48 + n), acc. split; [reflexivity|].
      unfold is_digit. rewrite andb_true_iff, !Z.leb_le. lia.
    + apply IH. div_mod_lia.
Qed.

Lemma decimal_value (n : Z) : 0 <= n -> digits_value 0 (decimal n) = n.
Proof.
  intro Hn. unfold decimal.
  rewrite (digits_aux_value _ n [] 1 0).
  - lia.
  - split; [exact Hn|].
    rewrite Nat2Z.inj_succ, Z2Nat.id by apply Z.log2_nonneg.
    destruct (Z.eq_dec n 0) as [-> | Hz]; [reflexivity|].
    apply Z.log2_spec. lia.
  - intro v. cbn [digits_value]. lia.
Qed.

Lemma decimal_head (n : Z) :
  0 <= n -> exists d rest, decimal n = d :: rest /\ is_digit d = true.
Proof. intro Hn. apply digits_aux_head, Hn. Qed.

Lemma parseInt_digits (d : Z) (rest : jsstring) :
  is_digit d = true ->
  parseInt (d :: rest) = Some (digits_value 0 (d :: rest)).
Proof.
  intro Hd. unfold parseInt.
  assert (H : 48 <= d <= 57)
    by (unfold is_digit in Hd; rewrite andb_true_iff, !Z.leb_le in Hd; exact Hd).
  assert (Hw : is_white_space d = false).
  { unfold is_white_space.
    rewrite !orb_false_iff, !andb_false_iff, !Z.leb_gt, !Z.eqb_neq. lia. }
  cbn [trim_start]. rewrite Hw.
  destruct (Z.eq_dec d 45) as [E|_]; [lia|].
  destruct (Z.eq_dec d 43) as [E|_]; [lia|].
  assert (Hm : match d :: rest with
               | 45 :: r => (-1, r)
               | 43 :: r => (1, r)
               | _ => (1, d :: rest)
               end = (1, d :: rest)).
  { destruct d as [|p|p]; try lia.
    do 6 (destruct p as [p|p|]; try lia; try reflexivity). }
  rewrite Hm. cbn [starts_with_digit]. rewrite Hd.
  f_equal. lia.
Qed.

Lemma parseInt_decimal (n : Z) : 0 <= n -> parseInt (decimal n) = Some n.
Proof.
  intro Hn. destruct (decimal_head n Hn) as (d & rest & E & Hd).
  rewrite E, parseInt_digits by exact Hd.
  rewrite <- E, decimal_value by exact Hn. reflexivity.
Qed.

Lemma parseInt_number_to_string (z : Z) :
  parseInt (number_to_string (Some z)) = Some z.
Proof.
  cbn [number_to_string]. destruct (Z.ltb_spec z 0) as [Hneg | Hpos].
  - destruct (decimal_head (- z) (ltac:(lia))) as (d & rest & E & Hd).
    unfold parseInt. cbn [trim_start].
    change (is_white_space 45) with false. cbv iota.
    rewrite E. cbn [starts_with_digit]. rewrite Hd.
    rewrite <- E, decimal_value by lia. f_equal. lia.
  - apply parseInt_decimal, Hpos.
Qed.

Lemma parseInt_NaN : parseInt (number_to_string None) = None.
Proof. reflexivity. Qed.

(** ** [verifySignature] is equality of buffers *)

Lemma fold_lor_zero (l : list (Z * Z)) :
  forall acc,
    fold_left (fun acc p => Z.lor acc (Z.lxor (fst p) (snd p))) l acc = 0
    <-> acc = 0 /\ Forall (fun p => fst p = snd p) l.
Proof.
  induction l as [|[x y] l IH]; intro acc; cbn [fold_left fst snd].
  - split; [intro H; split; [exact H | constructor] | intros [H _]; exact H].
  - rewrite IH, Z.lor_eq_0_iff. split.
    + intros [[Ha Hx] Hl]. split; [exact Ha|]. constructor; [|exact Hl].
      apply Z.lxor_eq, Hx.
    + intros [Ha Hl]. inversion_clear Hl as [|? ? Hx Hl']. cbn [fst snd] in Hx.
      subst y. rewrite Z.lxor_nilpotent. auto.
Qed.

Lemma combine_eq (a : list Z) :
  forall b, length a = length b ->
            (Forall (fun p => fst p = snd p) (combine a b) <-> a = b).
Proof.
  induction a as [|x a IH]; intros [|y b] Hl; try discriminate Hl.
  - split; [reflexivity | constructor].
  - cbn [combine]. split.
    + intro H. inversion_clear H as [|? ? Hx Hr]. cbn [fst snd] in Hx.
      subst y. f_equal. apply IH; [cbn in Hl; lia | exact Hr].
    + intro H. injection H as -> ->. constructor; [reflexivity|].
      apply IH; [cbn in Hl; lia | reflexivity].
Qed.

Lemma verifySignature_spec (expected actual : Buffer) :
  verifySignature expected actual = true <-> expected = actual.
Proof.
  unfold verifySignature.
  destruct (Nat.eqb_spec (length expected) (length actual)) as [Hl | Hl];
    cbn [negb].
  - rewrite Z.eqb_eq, fold_lor_zero, combine_eq by exact Hl. tauto.
  - split; [discriminate | intros ->; contradiction].
Qed.

Lemma verifySignature_refl (b : Buffer) : verifySignature b b = true.
Proof. apply verifySignature_spec. reflexivity. Qed.

(** ** Base64 decoding yields bytes *)

Lemma base64_value_range (c v : Z) : Base64.value_of c = Some v -> 0 <= v < 64.
Proof.
  unfold Base64.value_of.
  repeat match goal with
         | |- context [if ?b then _ else _] => destruct b eqn:?
         end;
    intro H; inversion H; subst;
    rewrite ?andb_true_iff, ?orb_true_iff, ?Z.leb_le, ?Z.eqb_eq in *; lia.
Qed.

Lemma base64_sextets_range (s : jsstring) :
  Forall (fun v => 0 <= v < 64) (Base64.sextets s).
Proof.
  induction s as [|c r IH]; [constructor|].
  cbn [Base64.sextets].
  destruct (Base64.low_byte c =? Base64.pad_char); [constructor|].
  destruct (Base64.value_of (Base64.low_byte c)) as [v|] eqn:E; [|exact IH].
  constructor; [apply (base64_value_range _ v E) | exact IH].
Qed.

Lemma base64_bytes_of_ok (l : list Z) :
  Forall (fun v => 0 <= v < 64) l -> bytes_ok (Base64.bytes_of l).
Proof.
  assert (G : forall n l, (length l <= n)%nat ->
                          Forall (fun v => 0 <= v < 64) l ->
                          bytes_ok (Base64.bytes_of l)).
  { clear l. induction n as [|n IH]; intros l Hn H.
    - destruct l; [constructor | cbn in Hn; lia].
    - destruct H as [|a l Ha H]; [constructor|].
      destruct H as [|b l Hb H]; [constructor|].
      destruct H as [|c l Hc H].
      { repeat constructor; unfold byte_ok; div_mod_lia. }
      destruct H as [|d l Hd H].
      { repeat (apply Forall_cons; [unfold byte_ok; div_mod_lia|]).
        apply Forall_nil. }
      cbn [Base64.bytes_of].
      repeat (apply Forall_cons; [unfold byte_ok; div_mod_lia|]).
      apply IH; [cbn [length] in Hn; lia | exact H]. }
  apply (G (length l)). lia.
Qed.

Lemma base64_decode_ok (s : jsstring) : bytes_ok (Base64.decode s).
Proof. apply base64_bytes_of_ok, base64_sextets_range. Qed.

(** ** Inverting a bit *)

Lemma flip_bit_length (bs : Buffer) (i : nat) (k : Z) :
  (i < length bs)%nat -> length (flip_bit bs i k) = length bs.
Proof.
  intro Hi. unfold flip_bit.
  rewrite <- (firstn_skipn i bs) at 3.
  rewrite !length_app. f_equal.
  destruct (skipn i bs) eqn:E; [|reflexivity].
  apply (f_equal (@length Z)) in E. rewrite length_skipn in E. cbn in E. lia.
Qed.

Lemma pow2_byte (k : Z) : 0 <= k < 8 -> byte_ok (2 ^ k) /\ 2 ^ k <> 0.
Proof.
  intro H. assert (E : k = 0 \/ k = 1 \/ k = 2 \/ k = 3 \/ k = 4 \/ k = 5
                       \/ k = 6 \/ k = 7) by lia.
  unfold byte_ok.
  destruct E as [-> | [-> | [-> | [-> | [-> | [-> | [-> | ->]]]]]]]; cbn; lia.
Qed.

Lemma flip_bit_ok (bs : Buffer) (i : nat) (k : Z) :
  0 <= k < 8 -> bytes_ok bs -> bytes_ok (flip_bit bs i k).
Proof.
  intros Hk Hb. unfold flip_bit.
  destruct (Forall_firstn_skipn byte_ok i bs Hb) as [H1 H2].
  apply bytes_ok_app. split; [exact H1|].
  destruct (skipn i bs); [constructor|].
  inversion_clear H2. constructor; [|assumption].
  apply lxor_byte_ok; [assumption | apply pow2_byte, Hk].
Qed.

Lemma flip_bit_neq (bs : Buffer) (i : nat) (k : Z) :
  0 <= k < 8 -> (i < length bs)%nat -> flip_bit bs i k <> bs.
Proof.
  intros Hk Hi E. unfold flip_bit in E.
  rewrite <- (firstn_skipn i bs) in E at 3.
  apply app_inv_head in E.
  destruct (skipn i bs) as [|b r] eqn:Es.
  - apply (f_equal (@length Z)) in Es. rewrite length_skipn in Es. cbn in Es. lia.
  - injection E as E.
    apply (pow2_byte k Hk).
    transitivity (Z.lxor b (Z.lxor b (2 ^ k))).
    + rewrite <- Z.lxor_assoc, Z.lxor_nilpotent, Z.lxor_0_l. reflexivity.
    + rewrite E. apply Z.lxor_nilpotent.
Qed.

Lemma flip_bit_app_l (a b : Buffer) (i : nat) (k : Z) :
  (i < length a)%nat -> flip_bit (a ++ b) i k = flip_bit a i k ++ b.
Proof.
  intro Hi. unfold flip_bit.
  rewrite firstn_app, skipn_app.
  replace (i - length a)%nat with 0%nat by lia.
  cbn [firstn skipn]. rewrite app_nil_r, <- app_assoc. f_equal.
  destruct (skipn i a) as [|x r] eqn:E; [|reflexivity].
  apply (f_equal (@length Z)) in E. rewrite length_skipn in E. cbn in E. lia.
Qed.

Lemma flip_bit_app_r (a b : Buffer) (i : nat) (k : Z) :
  (length a <= i)%nat -> flip_bit (a ++ b) i k = a ++ flip_bit b (i - length a) k.
Proof.
  intro Hi. unfold flip_bit.
  rewrite firstn_app, skipn_app, firstn_all2, skipn_all2 by lia.
  cbn [app]. rewrite <- app_assoc. reflexivity.
Qed.

(** ** Construction of a keyring *)

Lemma string_eqb_eq (a b : list Z) : string_eqb a b = true <-> a = b.
Proof.
  unfold string_eqb. destruct (list_eq_dec Z.eq_dec a b); split; auto; discriminate.
Qed.

Lemma keySizes_supported (alg : list Z) (n : nat) :
  keySizes alg = Some n ->
  supported alg /\ Aes.key_length alg = Some n
  /\ (n = 16 \/ n = 24 \/ n = 32)%nat.
Proof.
  unfold keySizes, Aes.key_length, supported.
  destruct (string_eqb alg (js "aes-128-cbc")) eqn:E1.
  { apply string_eqb_eq in E1. intro H. injection H as <-. auto. }
  destruct (string_eqb alg (js "aes-192-cbc")) eqn:E2.
  { apply string_eqb_eq in E2. intro H. injection H as <-. auto. }
  destruct (string_eqb alg (js "aes-256-cbc")) eqn:E3.
  { apply string_eqb_eq in E3. intro H. injection H as <-. auto 6. }
  discriminate.
Qed.

Lemma keyBuffer_ok (v : jsval) (secret : list Z) :
  value_ok v -> keyBuffer v = Ok secret -> bytes_ok secret.
Proof.
  destruct v; cbn; intros Hv H; try discriminate; injection H as <-.
  - apply base64_decode_ok.
  - exact Hv.
Qed.

Lemma subarray_prefix (a b : list Z) (n : nat) :
  length a = n -> subarray (a ++ b) 0 n = a.
Proof.
  intro H. unfold subarray. cbn [skipn]. rewrite Nat.sub_0_r.
  rewrite firstn_app, H, Nat.sub_diag. rewrite <- H, firstn_all.
  cbn [firstn]. apply app_nil_r.
Qed.

Lemma normalizeKeys_inv (raw : keymap) (n : nat) :
  forall ks,
    normalizeKeys raw n = Ok ks ->
    map id ks = map (fun e => parseInt (fst e)) raw
    /\ (Forall (fun e => value_ok (snd e)) raw -> Forall (key_ok n) ks)
    /\ Forall (fun e => exists secret, keyBuffer (snd e) = Ok secret
                                       /\ length secret = (2 * n)%nat) raw.
Proof.
  induction raw as [|[name value] rest IH]; intros ks H.
  - injection H as <-. repeat split; constructor.
  - cbn [normalizeKeys] in H.
    destruct (keyBuffer value) as [secret|] eqn:Es; [|discriminate H].
    cbn [rbind] in H.
    destruct (Nat.eqb_spec (length secret) (2 * n)) as [Hl|]; [|discriminate H].
    cbn [negb] in H.
    destruct (normalizeKeys rest n) as [buffer|] eqn:Er; [|discriminate H].
    cbn [rbind] in H. injection H as <-.
    destruct (IH buffer eq_refl) as (H1 & H2 & H3).
    split; [|split].
    + cbn [map id fst]. f_equal. exact H1.
    + intro Hv. inversion_clear Hv as [|? ? Hv1 Hv2]. cbn [snd] in Hv1.
      pose proof (keyBuffer_ok value secret Hv1 Es) as Hs.
      constructor; [|apply H2, Hv2].
      destruct (Forall_firstn_skipn byte_ok n secret Hs) as [Hf Hk].
      unfold key_ok. cbn [encryptionKey signingKey].
      unfold subarray_from, subarray. cbn [skipn]. rewrite Nat.sub_0_r.
      rewrite length_skipn, length_firstn. repeat split; (lia || assumption).
    + constructor; [|exact H3]. cbn [snd]. exists secret. auto.
Qed.

Lemma normalizeKeys_app (a b : keymap) (n : nat) :
  forall ks,
    normalizeKeys (a ++ b) n = Ok ks <->
    exists ka kb, normalizeKeys a n = Ok ka /\ normalizeKeys b n = Ok kb
                  /\ ks = ka ++ kb.
Proof.
  induction a as [|[name value] a IH]; intro ks.
  - cbn [app normalizeKeys]. split.
    + intro H. exists [], ks. auto.
    + intros (ka & kb & Ha & Hb & ->). injection Ha as <-. exact Hb.
  - cbn [app normalizeKeys].
    destruct (keyBuffer value) as [secret|]; cbn [rbind];
      [|split; [discriminate | intros (? & ? & H & _); discriminate H]].
    destruct (negb (length secret =? 2 * n)%nat);
      [split; [discriminate | intros (? & ? & H & _); discriminate H]|].
    destruct (normalizeKeys (a ++ b) n) as [kab|] eqn:Eab; cbn [rbind].
    + destruct (proj1 (IH kab) eq_refl) as (ka & kb & Ha & Hb & ->).
      rewrite Ha. cbn [rbind]. split.
      * intro H. injection H as <-. eexists _, kb. split; [reflexivity|]. auto.
      * intros (ka' & kb' & Ha' & Hb' & ->). injection Ha' as <-.
        rewrite Hb in Hb'. injection Hb' as <-. reflexivity.
    + split; [discriminate|].
      intros (ka' & kb' & Ha' & Hb' & ->).
      destruct (normalizeKeys a n) as [ka|] eqn:Ea; [|discriminate Ha'].
      assert (Hc : @Err (list Key) e = Ok (ka ++ kb')) by (apply IH; eauto).
      discriminate Hc.
Qed.

(** What a successful construction establishes. *)
Lemma keyring_inv (raw : keymap) (opts : Options) (k : Keyring) :
  keyring raw opts = Ok k ->
  exists alg s n,
    options k = {| encryption := Some alg; salt := Some s |}
    /\ salt opts = Some s
    /\ (encryption opts = Some alg
        \/ (encryption opts = None /\ alg = js "aes-128-cbc"))
    /\ keySizes alg = Some n
    /\ normalizeKeys raw n = Ok (keys k)
    /\ keys k <> []
    /\ Forall (fun key => exists z, id key = Some z) (keys k).
Proof.
  unfold keyring. intro H.
  destruct opts as [oe os].
  cbn [Object_assign encryption salt defaultKeyringOptions] in H.
  destruct os as [s|]; [|discriminate H].
  assert (G : forall alg,
             match keySizes alg with
             | Some keySize =>
                 keys <-- normalizeKeys raw keySize;;
                 _ <-- validateKeyring keys;;
                 Ok {| keys := keys;
                       options := {| encryption := Some alg; salt := Some s |} |}
             | None =>
                 if inherited alg then
                   keys <-- normalizeKeys_NaN raw;;
                   _ <-- validateKeyring keys;;
                   Ok {| keys := keys;
                         options := {| encryption := Some alg; salt := Some s |} |}
                 else Err UnsupportedAlgorithm
             end = Ok k ->
             exists n,
               options k = {| encryption := Some alg; salt := Some s |}
               /\ keySizes alg = Some n
               /\ normalizeKeys raw n = Ok (keys k)
               /\ keys k <> []
               /\ Forall (fun key => exists z, id key = Some z) (keys k)).
  { clear H. intros alg H.
    destruct (keySizes alg) as [n|] eqn:En.
    2:{ destruct (inherited alg); [|discriminate H].
        destruct raw as [|[name value] rest]; [discriminate H|].
        cbn [normalizeKeys_NaN] in H.
        destruct (keyBuffer value); discriminate H. }
    destruct (normalizeKeys raw n) as [ks|] eqn:Ek; [|discriminate H].
    cbn [rbind] in H. unfold validateKeyring in H.
    destruct (Nat.eqb_spec (length ks) 0) as [|Hne]; [discriminate H|].
    destruct (existsb (fun key => isNaN (id key)) ks) eqn:Ex; [discriminate H|].
    cbn [rbind] in H. injection H as <-. cbn [keys options].
    exists n. repeat split; try assumption.
    - intros ->. apply Hne. reflexivity.
    - apply Forall_forall. intros key Hin.
      destruct (id key) as [z|] eqn:Ei; [eauto|].
      assert (Ht : existsb (fun key => isNaN (id key)) ks = true).
      { apply existsb_exists. exists key. rewrite Ei. auto. }
      rewrite Ht in Ex. discriminate Ex. }
  destruct oe as [e|]; cbn [salt encryption].
  - destruct (G e H) as (n & H1 & H2 & H3 & H4 & H5).
    exists e, s, n. auto 10.
  - destruct (G (js "aes-128-cbc") H) as (n & H1 & H2 & H3 & H4 & H5).
    exists (js "aes-128-cbc"), s, n. auto 10.
Qed.

Lemma keyring_keys_ok (raw : keymap) (opts : Options) (k : Keyring) (n : nat) :
  keymap_ok raw -> normalizeKeys raw n = Ok (keys k) -> Forall (key_ok n) (keys k).
Proof.
  intros [_ Hv] H. apply (normalizeKeys_inv raw n (keys k) H), Hv.
Qed.

(** ** The current key *)

Lemma fold_current (rest : list Key) :
  forall k0,
    let r := fold_left (fun a b => if gt (id a) (id b) then a else b) rest k0 in
    In r (k0 :: rest)
    /\ (Forall (fun key => exists z, id key = Some z) (k0 :: rest) ->
        exists N, id r = Some N
                  /\ forall key z, In key (k0 :: rest) -> id key = Some z -> z <= N).
Proof.
  induction rest as [|b rest IH]; intros k0; cbn zeta.
  - cbn [fold_left]. split; [left; reflexivity|].
    intro H. inversion_clear H as [|? ? [z Hz] _]. exists z. split; [exact Hz|].
    intros key z' [<- | []] Hz'. assert (z' = z) as -> by congruence. lia.
  - cbn [fold_left].
    destruct (IH (if gt (id k0) (id b) then k0 else b)) as [H1 H2].
    split.
    + destruct H1 as [H1 | H1].
      * rewrite <- H1. destruct (gt (id k0) (id b)); [left | right; left]; reflexivity.
      * right. right. exact H1.
    + intro HF. inversion_clear HF as [|? ? [z0 Hz0] HF'].
      inversion_clear HF' as [|? ? [zb Hzb] HF''].
      destruct H2 as (N & HN & Hmax).
      { constructor; [|exact HF''].
        destruct (gt (id k0) (id b)); eauto. }
      exists N. split; [exact HN|].
      intros key z Hin Hz.
      assert (Hw : forall z', id (if gt (id k0) (id b) then k0 else b) = Some z' -> z' <= N)
        by (intros z' Hz'; apply (Hmax _ z' (or_introl eq_refl) Hz')).
      rewrite Hz0, Hzb in Hw. cbn [gt] in Hw.
      destruct Hin as [<- | [<- | Hin]].
      * assert (z = z0) as -> by congruence.
        destruct (Z.ltb_spec zb z0);
          [apply Hw, Hz0 | specialize (Hw zb Hzb); lia].
      * assert (z = zb) as -> by congruence.
        destruct (Z.ltb_spec zb z0);
          [specialize (Hw z0 Hz0); lia | apply Hw, Hzb].
      * apply (Hmax key z); [right; exact Hin | exact Hz].
Qed.

Lemma currentKey_spec (ks : list Key) :
  ks <> [] -> Forall (fun key => exists z, id key = Some z) ks ->
  exists key N,
    currentKey ks = Ok key /\ In key ks /\ id key = Some N
    /\ forall key' z, In key' ks -> id key' = Some z -> z <= N.
Proof.
  intros Hne HF. destruct ks as [|k0 rest]; [contradiction|].
  destruct (fold_current rest k0) as [H1 H2]. destruct (H2 HF) as (N & HN & Hmax).
  eexists _, N. split; [reflexivity|]. auto.
Qed.

(** ** Looking a key up *)

Lemma parseInt_key_id (i : option Z) : parseInt (number_to_string i) = i.
Proof. destruct i; [apply parseInt_number_to_string | reflexivity]. Qed.

Lemma findKey_unfold (ks : list Key) (req : jsval) :
  findKey ks req =
  match find (fun key => strict_eq (id key) (parseInt (ToString req))) ks with
  | Some key => Ok key
  | None => Err UnknownKeyId
  end.
Proof.
  unfold findKey.
  replace (find (fun key => strict_eq (parseInt (number_to_string (id key)))
                                      (parseInt (ToString req))) ks)
    with (find (fun key => strict_eq (id key) (parseInt (ToString req))) ks);
    [reflexivity|].
  induction ks as [|k ks IH]; [reflexivity|].
  cbn [find]. rewrite parseInt_key_id, IH. reflexivity.
Qed.

Lemma find_by_id (ks : list Key) (key : Key) (z : Z) :
  NoDup (map id ks) -> In key ks -> id key = Some z ->
  find (fun key => strict_eq (id key) (Some z)) ks = Some key.
Proof.
  induction ks as [|k ks IH]; intros Hnd Hin Hz; [contradiction|].
  cbn [map] in Hnd. inversion_clear Hnd as [|? ? Hni Hnd'].
  cbn [find]. destruct Hin as [-> | Hin].
  - rewrite Hz. cbn [strict_eq]. rewrite Z.eqb_refl. reflexivity.
  - destruct (id k) as [zk|] eqn:Ek; cbn [strict_eq]; [|apply IH; assumption].
    destruct (Z.eqb_spec zk z) as [-> | _]; [|apply IH; assumption].
    exfalso. apply Hni. rewrite <- Hz. apply in_map, Hin.
Qed.

Lemma findKey_number (ks : list Key) (key : Key) (z : Z) :
  NoDup (map id ks) -> In key ks -> id key = Some z ->
  findKey ks (VNumber z) = Ok key.
Proof.
  intros Hnd Hin Hz. rewrite findKey_unfold.
  cbn [ToString]. rewrite parseInt_number_to_string.
  rewrite (find_by_id ks key z Hnd Hin Hz). reflexivity.
Qed.

(** ** [encrypt] and [decrypt] on the bytes of an envelope *)

Lemma firstn_app_exact {A} (a b : list A) (n : nat) :
  length a = n -> firstn n (a ++ b) = a.
Proof.
  intros <-. rewrite firstn_app, Nat.sub_diag, firstn_all.
  cbn [firstn]. apply app_nil_r.
Qed.

Lemma skipn_app_exact {A} (a b : list A) (n : nat) :
  length a = n -> skipn n (a ++ b) = b.
Proof.
  intros <-. rewrite skipn_app, Nat.sub_diag, skipn_all. reflexivity.
Qed.

Lemma envelope_split (tag iv ct : list Z) :
  length tag = 32%nat -> length iv = 16%nat ->
  subarray (tag ++ iv ++ ct) 0 32 = tag
  /\ subarray (tag ++ iv ++ ct) 32 48 = iv
  /\ subarray_from (tag ++ iv ++ ct) 48 = ct.
Proof.
  intros Ht Hi. unfold subarray, subarray_from.
  change (32 - 0)%nat with 32%nat. change (48 - 32)%nat with 16%nat.
  change (skipn 0 (tag ++ iv ++ ct)) with (tag ++ iv ++ ct).
  rewrite (firstn_app_exact tag _ 32 Ht), (skipn_app_exact tag _ 32 Ht).
  rewrite (firstn_app_exact iv _ 16 Hi).
  rewrite app_assoc, skipn_app_exact by (rewrite length_app; lia).
  auto.
Qed.

Lemma createCipheriv_ok (alg : list Z) (n : nat) (key : Key) (iv : list Z) :
  keySizes alg = Some n -> key_ok n key -> length iv = 16%nat ->
  Aes.createCipheriv alg (encryptionKey key) iv
  = Ok {| Aes.round_keys := Aes.key_schedule (encryptionKey key);
          Aes.init_vector := iv |}.
Proof.
  intros Hn (Hl & _) Hi. unfold Aes.createCipheriv.
  destruct (keySizes_supported alg n Hn) as (_ & -> & _).
  rewrite Hl, Hi, !Nat.eqb_refl. reflexivity.
Qed.

Lemma cipher_of_key_ok (alg : list Z) (n : nat) (key : Key) (iv : list Z) :
  keySizes alg = Some n -> key_ok n key -> is_block iv ->
  cipher_ok {| Aes.round_keys := Aes.key_schedule (encryptionKey key);
               Aes.init_vector := iv |}.
Proof.
  intros Hn (Hl & Hb & _) Hi. split; [|exact Hi]. cbn [Aes.round_keys].
  apply key_schedule_blocks; [exact Hb|].
  destruct (keySizes_supported alg n Hn) as (_ & _ & H). lia.
Qed.

Lemma encrypt_eq (ks : list Key) (alg s : list Z) (n : nat) (key : Key)
      (iv p : list Z) :
  currentKey ks = Ok key -> keySizes alg = Some n -> key_ok n key ->
  length iv = 16%nat ->
  encrypt ks {| encryption := Some alg; salt := Some s |} iv (VString p)
  = Ok (Base64.encode (tag_of key iv (ciphertext_of alg key iv p) ++ iv
                         ++ ciphertext_of alg key iv p),
        id key, digest_of p s).
Proof.
  intros Hc Hn Hk Hi. unfold encrypt. rewrite Hc. cbn [rbind encryption salt].
  rewrite (createCipheriv_ok alg n key iv Hn Hk Hi). reflexivity.
Qed.

Lemma ciphertext_ok (alg : list Z) (n : nat) (key : Key) (iv p : list Z) :
  keySizes alg = Some n -> key_ok n key -> is_block iv -> jsstring_ok p ->
  bytes_ok (ciphertext_of alg key iv p)
  /\ exists m : nat, length (ciphertext_of alg key iv p) = (S m * 16)%nat.
Proof.
  intros Hn Hk Hi Hp. unfold ciphertext_of.
  destruct (cipher_run_blocks _ (Utf8.encode p)
              (cipher_of_key_ok alg n key iv Hn Hk Hi)
              (utf8_encode_bytes_ok p Hp)) as (blocks & E & _ & Hbl & Hne & _).
  destruct (concat_blocks blocks Hbl) as (Hlen & Hb & _).
  rewrite E. split; [exact Hb|].
  exists (length blocks - 1)%nat. rewrite Hlen. lia.
Qed.

(** [decrypt] on the envelope of any [tag ++ iv ++ ct]. *)
Lemma decrypt_bytes (alg : list Z) (s : option (list Z)) (n : nat) (key : Key)
      (tag iv ct : list Z) :
  keySizes alg = Some n -> key_ok n key ->
  length tag = 32%nat -> length iv = 16%nat -> bytes_ok (tag ++ iv ++ ct) ->
  decrypt key {| encryption := Some alg; salt := s |}
          (Base64.encode (tag ++ iv ++ ct))
  = match Aes.decipher_run
            {| Aes.round_keys := Aes.key_schedule (encryptionKey key);
               Aes.init_vector := iv |} ct with
    | Err e => ([EvDecipher iv ct], Err e)
    | Ok d =>
        ([EvDecipher iv ct; EvVerify (tag_of key iv ct) tag],
         if verifySignature (tag_of key iv ct) tag
         then Ok (Utf8.decode d) else Err IntegrityError)
    end.
Proof.
  intros Hn Hk Ht Hi Hb. unfold decrypt.
  rewrite (base64_decode_encode _ Hb).
  destruct (envelope_split tag iv ct Ht Hi) as (-> & -> & ->).
  cbn [encryption lift bind app].
  unfold Aes.createDecipheriv. rewrite (createCipheriv_ok alg n key iv Hn Hk Hi).
  cbn [tick bind app].
  destruct (Aes.decipher_run _ ct) as [d | e]; cbn [lift bind app]; [|reflexivity].
  unfold tag_of.
  destruct (verifySignature (hmacDigest (signingKey key) (iv ++ ct)) tag);
    reflexivity.
Qed.

(** [decrypt] on an envelope [encrypt] made, with any tag in place of its
    own. *)
Lemma decrypt_envelope (alg : list Z) (s : option (list Z)) (n : nat) (key : Key)
      (tag iv p : list Z) :
  keySizes alg = Some n -> key_ok n key -> is_block iv -> jsstring_ok p ->
  length tag = 32%nat -> bytes_ok tag ->
  decrypt key {| encryption := Some alg; salt := s |}
          (Base64.encode (tag ++ iv ++ ciphertext_of alg key iv p))
  = ([EvDecipher iv (ciphertext_of alg key iv p);
      EvVerify (tag_of key iv (ciphertext_of alg key iv p)) tag],
     if verifySignature (tag_of key iv (ciphertext_of alg key iv p)) tag
     then Ok (Utf8.decode (Utf8.encode p)) else Err IntegrityError).
Proof.
  intros Hn Hk Hi Hp Ht Hb.
  destruct (ciphertext_ok alg n key iv p Hn Hk Hi Hp) as [Hc _].
  rewrite (decrypt_bytes alg s n key tag iv _ Hn Hk Ht (proj1 Hi)).
  - unfold ciphertext_of at 1.
    rewrite decipher_run_cipher_run;
      [reflexivity | eapply cipher_of_key_ok; eassumption
       | apply utf8_encode_bytes_ok, Hp].
  - repeat (apply bytes_ok_app; split); [exact Hb | apply Hi | exact Hc].
Qed.

(** A valid keyring, opened up. *)
Lemma keyring_current (raw : keymap) (opts : Options) (k : Keyring) :
  keymap_ok raw -> keyring raw opts = Ok k ->
  exists alg s n key N,
    options k = {| encryption := Some alg; salt := Some s |}
    /\ salt opts = Some s
    /\ keySizes alg = Some n
    /\ normalizeKeys raw n = Ok (keys k)
    /\ Forall (key_ok n) (keys k)
    /\ currentKey (keys k) = Ok key /\ In key (keys k) /\ id key = Some N
    /\ key_ok n key
    /\ forall key' z, In key' (keys k) -> id key' = Some z -> z <= N.
Proof.
  intros Hm Hk.
  destruct (keyring_inv raw opts k Hk) as (alg & s & n & Ho & Hs & _ & Hn & Hnk & Hne & Hid).
  destruct (currentKey_spec (keys k) Hne Hid) as (key & N & Hc & Hin & HN & Hmax).
  pose proof (keyring_keys_ok raw opts k n Hm Hnk) as Hok.
  exists alg, s, n, key, N. repeat split; try assumption.
  all: try (rewrite Forall_forall in Hok; apply (Hok key Hin)).
Qed.

(** ** The keyring as a whole *)

Lemma Keyring_decrypt_found (k : Keyring) (key : Key) (message : list Z)
      (keyringId : jsval) :
  findKey (keys k) keyringId = Ok key ->
  Keyring_decrypt k message keyringId = decrypt key (options k) message.
Proof.
  intro H. unfold Keyring_decrypt. rewrite H. cbn [lift bind].
  destruct (decrypt key (options k) message). reflexivity.
Qed.

Lemma decipher_run_outcomes (c : Aes.Cipheriv) (ct : list Z) (m : nat) :
  length ct = (S m * 16)%nat ->
  (exists d, Aes.decipher_run c ct = Ok d)
  \/ Aes.decipher_run c ct = Err (DecryptionError BadDecrypt).
Proof.
  intro Hl. unfold Aes.decipher_run. rewrite Hl.
  replace (S m * 16 =? 0)%nat with false by (symmetry; apply Nat.eqb_neq; lia).
  rewrite Nat.Div0.mod_mul. cbn [Nat.eqb negb orb].
  destruct (Aes.pkcs7_unpad _); eauto.
Qed.

Lemma verifySignature_neq (expected actual : list Z) :
  expected <> actual -> verifySignature expected actual = false.
Proof.
  intro H. destruct (verifySignature expected actual) eqn:E; [|reflexivity].
  apply verifySignature_spec in E. contradiction.
Qed.

Lemma keyring_same_options (raw raw' : keymap) (opts : Options) (k k' : Keyring) :
  keyring raw opts = Ok k -> keyring raw' opts = Ok k' -> options k = options k'.
Proof.
  intros H H'.
  destruct (keyring_inv raw opts k H) as (alg & s & n & Ho & Hs & Ha & _).
  destruct (keyring_inv raw' opts k' H') as (alg' & s' & n' & Ho' & Hs' & Ha' & _).
  rewrite Ho, Ho'.
  assert (s' = s) as -> by congruence.
  destruct Ha as [Ha | [Ha ->]], Ha' as [Ha' | [Ha' ->]]; congruence.
Qed.

Lemma keymap_ok_remove (l1 l2 : keymap) (e : list Z * jsval) :
  keymap_ok (l1 ++ e :: l2) -> keymap_ok (l1 ++ l2).
Proof.
  intros [Hnd Hv]. split.
  - rewrite map_app in *. cbn [map] in Hnd. apply (NoDup_remove_1 _ _ _ Hnd).
  - apply Forall_app in Hv. destruct Hv as [H1 H2].
    inversion_clear H2. apply Forall_app. auto.
Qed.

Lemma NoDup_ids_insert (ka kb : list Key) (knew : Key) :
  NoDup (map id (ka ++ kb)) -> ~ In (id knew) (map id (ka ++ kb)) ->
  NoDup (map id (ka ++ knew :: kb)).
Proof.
  intros Hnd Hni.
  apply (Permutation_NoDup (l := map id (knew :: ka ++ kb))).
  - apply Permutation_map, Permutation_middle.
  - cbn [map]. constructor; assumption.
Qed.

Lemma normalizeKeys_total (raw : keymap) (n : nat) :
  Forall (fun e => exists secret, keyBuffer (snd e) = Ok secret
                                  /\ length secret = (2 * n)%nat) raw ->
  exists ks, normalizeKeys raw n = Ok ks.
Proof.
  induction 1 as [|[name value] rest (secret & Hs & Hl) _ [ks IH]].
  - exists []. reflexivity.
  - cbn [snd] in Hs. cbn [normalizeKeys]. rewrite Hs. cbn [rbind].
    rewrite Hl, Nat.eqb_refl. cbn [negb]. rewrite IH. cbn [rbind]. eauto.
Qed.

Lemma NoDup_map_injective_on {A B} (f : A -> B) (l : list A) :
  (forall x y, In x l -> In y l -> f x = f y -> x = y) ->
  NoDup l -> NoDup (map f l).
Proof.
  intros Hinj Hnd. induction Hnd as [|x l Hni Hnd IH]; [constructor|].
  cbn [map]. constructor.
  - intro Hin. apply in_map_iff in Hin. destruct Hin as (y & Hy1 & Hy2).
    assert (y = x) by (apply Hinj; [right | left |]; auto).
    subst y. contradiction.
  - apply IH. intros a b Ha Hb. apply Hinj; right; assumption.
Qed.

Lemma find_none_NaN (ks : list Key) :
  find (fun key => strict_eq (id key) None) ks = None.
Proof.
  induction ks as [|k ks IH]; [reflexivity|].
  cbn [find]. destruct (id k); cbn [strict_eq]; exact IH.
Qed.

Lemma strict_eq_some (i : option Z) (z : Z) :
  strict_eq i (Some z) = true <-> i = Some z.
Proof.
  destruct i as [x|]; cbn [strict_eq].
  - rewrite Z.eqb_eq. split; congruence.
  - split; discriminate.
Qed.


(** ** What an altered block reaches in CBC

    A block of the plaintext depends on its own cipher block and on the one
    before it.  The padding sits in the last block, so whatever is changed
    before the last two cipher blocks (or in the initialization vector, when
    there are at least two blocks) leaves the padding as it was. *)

Lemma cbc_decrypt_last (ks : list (list Z)) (front : list (list Z))
      (cp cl : list Z) :
  forall prev,
  exists pre,
    Aes.cbc_decrypt ks prev (front ++ [cp; cl])
    = pre ++ [Aes.xor_bytes (Aes.inv_cipher ks cl) cp].
Proof.
  induction front as [|b front IH]; intro prev.
  - exists [Aes.xor_bytes (Aes.inv_cipher ks cp) prev]. reflexivity.
  - destruct (IH b) as [pre E].
    exists (Aes.xor_bytes (Aes.inv_cipher ks b) prev :: pre).
    cbn [app Aes.cbc_decrypt]. rewrite E. reflexivity.
Qed.

Lemma last_app_block {A} (x l : list A) (d : A) :
  l <> [] -> last (x ++ l) d = last l d.
Proof.
  intro Hl. induction x as [|a x IH]; [reflexivity|].
  cbn [app]. rewrite <- IH.
  destruct (x ++ l) eqn:E; [|reflexivity].
  apply app_eq_nil in E. destruct E as [_ E]. contradiction.
Qed.

Lemma pkcs7_unpad_last_block (x x' l p : Buffer) :
  length l = 16%nat ->
  Aes.pkcs7_unpad (x ++ l) = Some p ->
  exists p', Aes.pkcs7_unpad (x' ++ l) = Some p'.
Proof.
  intros Hl. unfold Aes.pkcs7_unpad.
  assert (Hne : l <> []) by (intros ->; discriminate Hl).
  rewrite !(last_app_block _ l 0 Hne), !length_app, Hl.
  set (v := last l 0).
  destruct ((1 <=? v) && (v <=? 16)) eqn:Ev; [|discriminate].
  apply andb_true_iff in Ev. destruct Ev as [E1 E2].
  apply Z.leb_le in E1, E2.
  assert (Hn : (Z.to_nat v <= 16)%nat) by lia.
  replace (Z.to_nat v <=? length x + 16)%nat with true
    by (symmetry; apply Nat.leb_le; lia).
  replace (Z.to_nat v <=? length x' + 16)%nat with true
    by (symmetry; apply Nat.leb_le; lia).
  cbn [andb].
  assert (Hs : forall y : Buffer,
             skipn (length y + 16 - Z.to_nat v) (y ++ l)
             = skipn (16 - Z.to_nat v) l).
  { intro y. rewrite skipn_app, skipn_all2 by lia. cbn [app].
    f_equal. lia. }
  rewrite !Hs.
  destruct (forallb (Z.eqb v) (skipn (16 - Z.to_nat v) l)); [|discriminate].
  eauto.
Qed.

Lemma concat_length_16 (blocks : list (list Z)) :
  Forall (fun b => length b = 16%nat) blocks ->
  length (concat blocks) = (length blocks * 16)%nat.
Proof.
  induction 1 as [|b bl Hb _ IH]; [reflexivity|].
  cbn [concat length]. rewrite length_app, IH, Hb. lia.
Qed.

(** Decrypting what [cipher_run] made, with any initialization vector and
    with anything of the same length in place of all but its last two
    blocks, ends with a valid padding. *)
Lemma decipher_run_last_two (c : Aes.Cipheriv) (data iv' a' : Buffer) :
  cipher_ok c -> bytes_ok data ->
  let ct := Aes.cipher_run c data in
  (32 <= length ct)%nat -> length a' = (length ct - 32)%nat ->
  exists d',
    Aes.decipher_run {| Aes.round_keys := Aes.round_keys c;
                        Aes.init_vector := iv' |}
                     (a' ++ skipn (length ct - 32) ct) = Ok d'.
Proof.
  intros Hc Hd ct Hlen Ha.
  destruct (cipher_run_blocks c data Hc Hd) as (blocks & E & Eb & Hbl & _ & Hpl).
  destruct (concat_blocks blocks Hbl) as (Hcl & _ & _).
  fold ct in E. rewrite E in *. rewrite Hcl in *.
  set (m := length blocks) in *.
  assert (Hm : (2 <= m)%nat) by lia.
  assert (H16 : Forall (fun b => length b = 16%nat) blocks).
  { eapply Forall_impl; [|exact Hbl]. intros b [Hb _]. exact Hb. }
  (* the last two blocks *)
  pose proof (firstn_skipn (m - 2) blocks) as Hsplit.
  set (front := firstn (m - 2) blocks) in *.
  assert (Hfl : length front = (m - 2)%nat)
    by (subst front; rewrite length_firstn; lia).
  destruct (skipn (m - 2) blocks) as [|cp [|cl [|? ?]]] eqn:Etail;
    try (apply (f_equal (@length (list Z))) in Etail;
         rewrite length_skipn in Etail; cbn [length] in Etail; lia).
  rewrite <- Hsplit in H16. apply Forall_app in H16. destruct H16 as [Hf16 Ht16].
  assert (Hcf : length (concat front) = (m * 16 - 32)%nat).
  { rewrite (concat_length_16 front Hf16), Hfl. lia. }
  assert (Hskip : skipn (m * 16 - 32) (concat blocks) = concat [cp; cl]).
  { rewrite <- Hsplit, concat_app. apply skipn_app_exact. exact Hcf. }
  rewrite Hskip.
  (* the changed front, cut into blocks *)
  destruct (chunks_exact 16 (ltac:(lia)) (m - 2) a') as (Hn' & Hf16' & Hcc');
    [lia|].
  set (front' := chunks 16 a') in *.
  rewrite <- Hcc', <- concat_app.
  assert (H16' : Forall (fun b => length b = 16%nat) (front' ++ [cp; cl]))
    by (apply Forall_app; split; assumption).
  unfold Aes.decipher_run. cbn [Aes.round_keys Aes.init_vector].
  rewrite (concat_length_16 _ H16'), length_app, Hn'. cbn [length].
  replace (m - 2 + 2)%nat with m by lia.
  replace (m * 16 =? 0)%nat with false by (symmetry; apply Nat.eqb_neq; lia).
  rewrite Nat.Div0.mod_mul. cbn [Nat.eqb negb orb].
  rewrite (chunks_concat 16 (ltac:(lia)) _ H16').
  destruct (cbc_decrypt_last (Aes.round_keys c) front' cp cl iv') as [pre' E'].
  rewrite E'.
  (* the padding of the original *)
  destruct Hc as [Hks Hiv].
  pose proof (cbc_decrypt_encrypt (Aes.round_keys c) Hks _ (Aes.init_vector c)
                Hiv Hpl) as Hdec.
  rewrite <- Eb, <- Hsplit in Hdec.
  destruct (cbc_decrypt_last (Aes.round_keys c) front cp cl (Aes.init_vector c))
    as [pre Epre].
  rewrite Epre in Hdec.
  set (L := Aes.xor_bytes (Aes.inv_cipher (Aes.round_keys c) cl) cp) in *.
  assert (HL : length L = 16%nat).
  { rewrite <- Hdec in Hpl. apply Forall_app in Hpl. destruct Hpl as [_ Hpl].
    inversion_clear Hpl as [|? ? [HL _] _]. exact HL. }
  destruct (pkcs7_pad_spec data Hd) as (k & Hk & _).
  destruct (chunks_exact 16 (ltac:(lia)) (S k) _ Hk) as (_ & _ & Hcc).
  pose proof (pkcs7_unpad_pad data) as Hun.
  rewrite <- Hcc, <- Hdec, concat_app in Hun. cbn [concat] in Hun.
  rewrite app_nil_r in Hun.
  rewrite concat_app. cbn [concat]. rewrite app_nil_r.
  destruct (pkcs7_unpad_last_block (concat pre) (concat pre') L data HL Hun)
    as [p' Hp'].
  rewrite Hp'. eauto.
Qed.

(** Two messages whose HMACs differ do not collide. *)
Lemma no_collision_check (key a b : Buffer) :
  verifySignature (Hmac.sha256 key a) (Hmac.sha256 key b) = false ->
  ~ hmac_collision key a b.
Proof.
  intros F [_ E]. rewrite E, verifySignature_refl in F. discriminate F.
Qed.

(** ** The model against published vectors and the tests of the repository *)

(** FIPS 180-4: the SHA-1 and SHA-256 digests of ["abc"]. *)
Example sha1_abc :
  Hex.of_bytes (Sha1.hash (js "abc"))
  = js "a9993e364706816aba3e25717850c26c9cd0d89d".
Proof. vm_compute. reflexivity. Qed.

Example sha256_abc :
  Hex.of_bytes (Sha256.hash (js "abc"))
  = js "ba7816bf8f01cfea414140de5dae2223b00361a396177a9cb410ff61f20015ad".
Proof. vm_compute. reflexivity. Qed.

(** RFC 4231, test case 2. *)
Example hmac_sha256_rfc4231 :
  Hex.of_bytes (Hmac.sha256 (js "Jefe") (js "what do ya want for nothing?"))
  = js "5bdcc146bf60754e6a042426089575c75a003f089d2739839dec58b964ec3843".
Proof. vm_compute. reflexivity. Qed.

(** FIPS 197, appendix C: the keys 00 01 02 ... of 16, 24 and 32 bytes on
    the block 00 11 22 ... ff. *)
Example aes_fips197 :
  let block := map (fun i => 17 * Z.of_nat i) (seq 0 16) in
  let key (n : nat) := map Z.of_nat (seq 0 n) in
  Hex.of_bytes (Aes.cipher (Aes.key_schedule (key 16%nat)) block)
  = js "69c4e0d86a7b0430d8cdb78070b4c55a"
  /\ Hex.of_bytes (Aes.cipher (Aes.key_schedule (key 24%nat)) block)
     = js "dda97ca4864cdfe06eaf70a0ec0d7191"
  /\ Hex.of_bytes (Aes.cipher (Aes.key_schedule (key 32%nat)) block)
     = js "8ea2b7ca516745bfeafc49904b496089".
Proof. vm_compute. repeat split; reflexivity. Qed.

(** The example script: with the initialization vector of the envelope it
    prints, [encrypt("TESTE SECRETO")] is that envelope, key id 1 and the
    digest it prints; [decrypt] of the envelope is the message. *)
Example example_script :
  Keyring_encrypt example_keyring
                  (subarray (Base64.decode example_envelope) 32 48)
                  (VString (js "TESTE SECRETO"))
  = Ok (example_envelope, Some 1, js "d8bf9acf6c7558d61b7a1cc1f303e6c15dc4bc81")
  /\ outcome (Keyring_decrypt example_keyring example_envelope (VNumber 1))
     = Ok (js "TESTE SECRETO").
Proof. vm_compute. split; reflexivity. Qed.

(** keyring_test.js: the three "should encrypts property using ..." tests. *)
Example test_encrypts_property :
  forall alg secret,
    In (alg, secret) [(js "aes-128-cbc", test_secret_128);
                      (js "aes-192-cbc", test_secret_192);
                      (js "aes-256-cbc", test_secret_256)] ->
    exists k envelope digest,
      keyring [(js "0", VString secret)] (with_algorithm alg []) = Ok k
      /\ Keyring_encrypt k test_iv (VString (js "42"))
         = Ok (envelope, Some 0, digest)
      /\ envelope <> js "42"
      /\ outcome (Keyring_decrypt k envelope (VNumber 0)) = Ok (js "42").
Proof.
  intros alg secret [E | [E | [E | []]]]; injection E as <- <-;
    eexists; eexists; eexists;
    (split; [vm_compute; reflexivity|]);
    (split; [vm_compute; reflexivity|]);
    (split; [discriminate|]); vm_compute; reflexivity.
Qed.

(** keyring_test.js: missing salt, empty keyring, non-integer keys, digest
    with salt, keyring id, non-string message. *)
Example test_construction_errors :
  keyring test_keys {| encryption := None; salt := None |} = Err MissingSalt
  /\ keyring [] (with_salt []) = Err EmptyKeyring
  /\ keyring [(js "a", VString test_secret_128)] (with_salt []) = Err InvalidKeyId
  /\ (exists k, keyring [(js "1", VString test_secret_128)] (with_salt []) = Ok k
                /\ Keyring_currentId k = Ok (Some 1))
  /\ Keyring_encrypt test_keyring test_iv (VNumber 1234) = Err TypeError.
Proof.
  repeat split; try (vm_compute; reflexivity).
  eexists. split; vm_compute; reflexivity.
Qed.

(** [Buffer.from(string, "base64")] on code units above 255: sixty-four
    units U+0141, whose low byte is the one of ["A"], decode to forty-eight
    zero bytes, and a secret whose first unit is U+0175 is read as if it
    began with ["u"]. *)
Example base64_low_byte :
  Base64.decode (repeat 0x141 64) = repeat 0 48
  /\ Base64.decode (0x175 :: tl test_secret_128) = Base64.decode test_secret_128.
Proof. split; vm_compute; reflexivity. Qed.

(** An algorithm name that [Object.prototype] defines passes the test
    [!keySize]: the constructor then fails on the first secret, whose length
    is compared with NaN, or on the empty key map.  Any other unlisted name
    is rejected as unsupported. *)
Example inherited_algorithm_name :
  keyring test_keys (with_algorithm (js "constructor") []) = Err (KeyLengthNaN 32)
  /\ keyring [] (with_algorithm (js "toString") []) = Err EmptyKeyring
  /\ keyring test_keys (with_algorithm (js "aes-512-cbc") [])
     = Err UnsupportedAlgorithm.
Proof. repeat split; vm_compute; reflexivity. Qed.

(** ** Concrete data: the typing predicates decided, the keyrings evaluated *)

Lemma bytes_check_ok (l : list Z) : bytes_check l = true -> bytes_ok l.
Proof.
  intro H. apply Forall_forall. intros x Hx. apply in_byte_ok.
  unfold bytes_check in H. rewrite forallb_forall in H. apply H, Hx.
Qed.

Lemma units_check_ok (l : list Z) : units_check l = true -> jsstring_ok l.
Proof.
  intro H. apply Forall_forall. intros x Hx.
  unfold units_check in H. rewrite forallb_forall in H. specialize (H x Hx).
  apply andb_true_iff in H. destruct H as [H1 H2].
  apply Z.leb_le in H1. apply Z.ltb_lt in H2. split; assumption.
Qed.

Lemma block_check_ok (l : list Z) :
  length l = 16%nat -> bytes_check l = true -> is_block l.
Proof. intros Hl H. split; [exact Hl | apply bytes_check_ok, H]. Qed.

Lemma test_keys_ok : keymap_ok test_keys.
Proof.
  split.
  - constructor; [intros [] | constructor].
  - constructor; [|constructor]. apply units_check_ok. vm_compute. reflexivity.
Defined.

Lemma test_iv_block : is_block test_iv.
Proof. apply block_check_ok; vm_compute; reflexivity. Defined.

Lemma test_keyring_eq : keyring test_keys (with_salt []) = Ok test_keyring.
Proof. vm_compute. reflexivity. Defined.

Lemma test_encrypt_eq :
  Keyring_encrypt test_keyring test_iv (VString (js "42"))
  = Ok (test_envelope, Some 0, test_digest).
Proof. vm_compute. reflexivity. Defined.

Lemma test_plaintext_ok : jsstring_ok (js "42").
Proof. apply units_check_ok. vm_compute. reflexivity. Defined.

Lemma test_keyring_ids : NoDup (map id (keys test_keyring)).
Proof. constructor; [intros [] | constructor]. Defined.

Lemma test_keyring_safe : safe_ids (keys test_keyring).
Proof.
  constructor; [|constructor]. cbn. unfold safe_integer. split; reflexivity.
Defined.

Lemma long_encrypt_eq :
  Keyring_encrypt test_keyring test_iv (VString long_message)
  = Ok (long_envelope, Some 0, long_digest).
Proof. vm_compute. reflexivity. Defined.

Lemma long_message_ok : jsstring_ok long_message.
Proof. apply units_check_ok. vm_compute. reflexivity. Defined.

Lemma test_key_current : currentKey (keys test_keyring) = Ok test_key.
Proof. reflexivity. Defined.

(** ** The claims *)

(** *** C1 *)

(** C1, as stated, fails: the string made of the single code unit U+D800
    (an unpaired surrogate) is encrypted as the bytes of U+FFFD, and
    decrypting the envelope returns the string U+FFFD. *)
Lemma C1_counterexample :
  match Keyring_encrypt test_keyring test_iv (VString [0xD800]) with
  | Ok (envelope, Some keyId, _) =>
      outcome (Keyring_decrypt test_keyring envelope (VNumber keyId))
      = Ok [0xFFFD]
  | _ => False
  end
  /\ keyring test_keys (with_salt []) = Ok test_keyring
  /\ [0xFFFD] <> [0xD800].
Proof.
  split; [vm_compute; reflexivity|].
  split; [vm_compute; reflexivity | discriminate].
Qed.

(** C1, amended. Round trip: for every algorithm of the three, every key
    map the constructor accepts whose ids are pairwise distinct, and every
    well-formed string plaintext [p] (no unpaired surrogate), [encrypt]
    succeeds and decrypting its envelope with the key id it returned
    yields [p]. *)
Theorem C1_round_trip
        (raw : keymap) (opts : Options) (k : Keyring) (iv p : list Z) :
  keymap_ok raw -> keyring raw opts = Ok k ->
  NoDup (map id (keys k)) -> safe_ids (keys k) ->
  is_block iv -> jsstring_ok p -> well_formed p = true ->
  exists alg envelope keyId digest,
    encryption (options k) = Some alg /\ supported alg
    /\ Keyring_encrypt k iv (VString p) = Ok (envelope, Some keyId, digest)
    /\ outcome (Keyring_decrypt k envelope (VNumber keyId)) = Ok p.
Proof.
  intros Hm Hk Hnd _ Hi Hp Hwf.
  destruct (keyring_current raw opts k Hm Hk)
    as (alg & s & n & key & N & Ho & _ & Hn & _ & _ & Hc & Hin & HN & Hkey & _).
  exists alg, (Base64.encode (tag_of key iv (ciphertext_of alg key iv p) ++ iv
                                ++ ciphertext_of alg key iv p)), N, (digest_of p s).
  split; [rewrite Ho; reflexivity|].
  split; [apply (keySizes_supported alg n Hn)|].
  split.
  - unfold Keyring_encrypt. rewrite Ho, <- HN.
    apply (encrypt_eq (keys k) alg s n key iv p Hc Hn Hkey (proj1 Hi)).
  - rewrite (Keyring_decrypt_found k key _ _ (findKey_number _ key N Hnd Hin HN)).
    rewrite Ho.
    rewrite (decrypt_envelope alg (Some s) n key
               (tag_of key iv (ciphertext_of alg key iv p)) iv p Hn Hkey Hi Hp
               (hmacDigest_length _ _) (hmacDigest_ok _ _)).
    cbn [outcome snd]. rewrite verifySignature_refl.
    rewrite (utf8_decode_encode p Hp Hwf). reflexivity.
Qed.

Lemma C1_witness :
  exists alg envelope keyId digest,
    encryption (options test_keyring) = Some alg /\ supported alg
    /\ Keyring_encrypt test_keyring test_iv (VString (js "42"))
       = Ok (envelope, Some keyId, digest)
    /\ outcome (Keyring_decrypt test_keyring envelope (VNumber keyId))
       = Ok (js "42").
Proof.
  apply (C1_round_trip test_keys (with_salt []) test_keyring test_iv (js "42")).
  - exact test_keys_ok.
  - exact test_keyring_eq.
  - exact test_keyring_ids.
  - exact test_keyring_safe.
  - exact test_iv_block.
  - apply units_check_ok. vm_compute. reflexivity.
  - vm_compute. reflexivity.
Defined.

(** *** C2 *)

(** C2, as stated, fails: in the envelope [encrypt] returns for ["42"],
    inverting the lowest bit of byte 48 (the first byte of the ciphertext)
    makes [decrypt] fail with the cipher's "bad decrypt" error, not with
    IntegrityError. *)
Lemma C2_counterexample :
  match Keyring_encrypt test_keyring test_iv (VString (js "42")) with
  | Ok (envelope, Some keyId, _) =>
      outcome (Keyring_decrypt
                 test_keyring
                 (Base64.encode (flip_bit (Base64.decode envelope) 48 0))
                 (VNumber keyId))
      = Err (DecryptionError BadDecrypt)
  | _ => False
  end
  /\ keyring test_keys (with_salt []) = Ok test_keyring
  /\ @Err (list Z) (DecryptionError BadDecrypt) <> Err IntegrityError.
Proof.
  split; [vm_compute; reflexivity|].
  split; [vm_compute; reflexivity | discriminate].
Qed.

(** C2, amended. Tamper detection, for every envelope [encrypt] produces
    on a keyring whose ids are pairwise distinct safe integers.  Inverting
    any single bit of the HMAC region, bytes [0:32) of the decoded envelope,
    makes [decrypt] fail with IntegrityError.  Inverting a single bit of the
    ciphertext region, bytes [48:), makes [decrypt] fail, and no plaintext
    is returned, provided HMAC-SHA256 under the signing key does not
    collide on the original and the altered bytes [32:): the failure is
    IntegrityError when the inverted bit lies before the last two cipher
    blocks (the padding is then intact and the cipher succeeds), and
    otherwise IntegrityError or the cipher's DecryptionError (bad padding,
    raised before the HMAC is compared). *)
Theorem C2_tamper_detection
        (raw : keymap) (opts : Options) (k : Keyring) (key : Key)
        (iv p : list Z) (envelope : list Z) (keyId : Z) (digest : list Z)
        (i j : nat) (bit : Z) :
  keymap_ok raw -> keyring raw opts = Ok k ->
  NoDup (map id (keys k)) -> safe_ids (keys k) ->
  is_block iv -> jsstring_ok p ->
  Keyring_encrypt k iv (VString p) = Ok (envelope, Some keyId, digest) ->
  currentKey (keys k) = Ok key ->
  0 <= bit < 8 ->
  let decoded := Base64.decode envelope in
  let altered n := flip_bit decoded n bit in
  let result n :=
    outcome (Keyring_decrypt k (Base64.encode (altered n)) (VNumber keyId)) in
  ((i < 32)%nat -> result i = Err IntegrityError)
  /\ ((48 <= j < length decoded)%nat ->
      ~ hmac_collision (signingKey key) (subarray_from decoded 32)
                       (subarray_from (altered j) 32) ->
      (result j = Err (DecryptionError BadDecrypt)
       \/ result j = Err IntegrityError)
      /\ ((j + 32 < length decoded)%nat -> result j = Err IntegrityError)).
Proof.
  intros Hm Hk Hnd _ Hi Hp He Hcur Hbit.
  destruct (keyring_current raw opts k Hm Hk)
    as (alg & s & n & key0 & N & Ho & _ & Hn & _ & _ & Hc & Hin & HN & Hkey & _).
  assert (key0 = key) as -> by congruence.
  unfold Keyring_encrypt in He. rewrite Ho in He.
  rewrite (encrypt_eq (keys k) alg s n key iv p Hc Hn Hkey (proj1 Hi)) in He.
  destruct (ciphertext_ok alg n key iv p Hn Hkey Hi Hp) as [Hct [m Hlen]].
  pose proof (cipher_of_key_ok alg n key iv Hn Hkey Hi) as Hcok.
  pose proof (utf8_encode_bytes_ok p Hp) as Hdata.
  pose proof (fun a' => decipher_run_last_two _ (Utf8.encode p) iv a' Hcok Hdata)
    as Hlast.
  cbn zeta in Hlast.
  cbn [Aes.round_keys] in Hlast.
  change (Aes.cipher_run _ (Utf8.encode p))
    with (ciphertext_of alg key iv p) in Hlast.
  set (ct := ciphertext_of alg key iv p) in *.
  set (tag := tag_of key iv ct) in *.
  assert (Ht : length tag = 32%nat) by apply hmacDigest_length.
  assert (Htb : bytes_ok tag) by apply hmacDigest_ok.
  assert (Hb : bytes_ok (tag ++ iv ++ ct)).
  { repeat (apply bytes_ok_app; split); [exact Htb | apply Hi | exact Hct]. }
  injection He as <- HN' <-. rewrite HN in HN'. injection HN' as ->.
  cbn zeta. rewrite (base64_decode_encode _ Hb).
  rewrite !(Keyring_decrypt_found k key _ _ (findKey_number _ key keyId Hnd Hin HN)).
  rewrite Ho. split.
  - intro Hlt. rewrite flip_bit_app_l by lia.
    pose proof (decrypt_envelope alg (Some s) n key (flip_bit tag i bit) iv p
                  Hn Hkey Hi Hp) as Hd.
    fold ct in Hd. fold tag in Hd. rewrite Hd.
    + cbn [outcome snd].
      rewrite verifySignature_neq; [reflexivity|].
      intro E. apply (flip_bit_neq tag i bit Hbit); [lia | symmetry; exact E].
    + rewrite flip_bit_length; lia.
    + apply flip_bit_ok; assumption.
  - intros [Hge Hlt] Hnc. pose proof (proj1 Hi) as Hil.
    rewrite !length_app in Hlt. rewrite !length_app.
    set (ct' := flip_bit ct (j - 48) bit).
    assert (Ealt : flip_bit (tag ++ iv ++ ct) j bit = tag ++ iv ++ ct').
    { rewrite (app_assoc tag iv ct).
      rewrite flip_bit_app_r by (rewrite length_app; lia).
      rewrite <- app_assoc, length_app, Ht, Hil. reflexivity. }
    rewrite Ealt in Hnc |- *.
    assert (Hj : (j - 48 < length ct)%nat) by lia.
    assert (Hl' : length ct' = (S m * 16)%nat).
    { subst ct'. rewrite flip_bit_length; [exact Hlen | exact Hj]. }
    assert (Hb' : bytes_ok (tag ++ iv ++ ct')).
    { apply bytes_ok_app. split; [exact Htb|].
      apply bytes_ok_app. split; [apply Hi|].
      apply flip_bit_ok; assumption. }
    (* the altered bytes do not verify *)
    assert (Hv : verifySignature (tag_of key iv ct') tag = false).
    { apply verifySignature_neq. intro E. apply Hnc.
      unfold subarray_from. rewrite !(skipn_app_exact tag _ 32 Ht).
      split; [|symmetry; exact E].
      intro E'. apply app_inv_head in E'.
      apply (flip_bit_neq ct (j - 48) bit Hbit Hj). symmetry. exact E'. }
    rewrite (decrypt_bytes alg (Some s) n key tag iv ct' Hn Hkey Ht Hil Hb').
    rewrite Hv. split.
    + destruct (decipher_run_outcomes
                  {| Aes.round_keys := Aes.key_schedule (encryptionKey key);
                     Aes.init_vector := iv |} ct' m Hl') as [[d Hd] | Hd];
        rewrite Hd; cbn [outcome snd]; auto.
    + intro Hearly.
      destruct (Hlast (flip_bit (firstn (length ct - 32) ct) (j - 48) bit))
        as [d Hd].
      * lia.
      * rewrite flip_bit_length; rewrite length_firstn; lia.
      * rewrite <- flip_bit_app_l in Hd by (rewrite length_firstn; lia).
        rewrite firstn_skipn in Hd. fold ct' in Hd.
        rewrite Hd. reflexivity.
Qed.

Lemma C2_witness :
  let decoded := Base64.decode long_envelope in
  let result n :=
    outcome (Keyring_decrypt test_keyring
                             (Base64.encode (flip_bit decoded n 3))
                             (VNumber 0)) in
  result 5%nat = Err IntegrityError
  /\ (result 95%nat = Err (DecryptionError BadDecrypt)
      \/ result 95%nat = Err IntegrityError)
  /\ result 48%nat = Err IntegrityError.
Proof.
  pose proof (fun i j =>
                C2_tamper_detection
                  test_keys (with_salt []) test_keyring test_key test_iv
                  long_message long_envelope 0 long_digest i j 3
                  test_keys_ok test_keyring_eq test_keyring_ids
                  test_keyring_safe test_iv_block long_message_ok
                  long_encrypt_eq test_key_current
                  (ltac:(lia) : 0 <= 3 < 8)) as H.
  cbn zeta in H. cbn zeta.
  assert (Hlen : length (Base64.decode long_envelope) = 96%nat)
    by (vm_compute; reflexivity).
  split; [|split].
  - destruct (H 5%nat 0%nat) as [H1 _]. apply H1. lia.
  - destruct (H 0%nat 95%nat) as [_ H2]. destruct H2 as [H2 _].
    + rewrite Hlen. lia.
    + apply no_collision_check. vm_compute. reflexivity.
    + exact H2.
  - destruct (H 0%nat 48%nat) as [_ H2]. destruct H2 as [_ H2].
    + rewrite Hlen. lia.
    + apply no_collision_check. vm_compute. reflexivity.
    + apply H2. rewrite Hlen. lia.
Defined.

(** *** C3 *)

(** C3, as stated, fails.  On the envelope of the example script with a
    bit of its HMAC inverted, [decrypt] runs the block cipher on the
    ciphertext before it compares the HMAC.  On the same envelope with a
    bit of its ciphertext inverted, so that its HMAC does not verify
    either, [decrypt] fails with the cipher's "bad decrypt" error, not
    with IntegrityError, and the HMAC is never compared. *)
Lemma C3_counterexample :
  (exists iv data expected actual,
     Keyring_decrypt example_keyring example_envelope_bad_hmac (VNumber 1)
     = ([EvDecipher iv data; EvVerify expected actual], Err IntegrityError)
     /\ verifySignature expected actual = false)
  /\ (exists iv data,
        Keyring_decrypt example_keyring example_envelope_bad_ciphertext (VNumber 1)
        = ([EvDecipher iv data], Err (DecryptionError BadDecrypt))
        /\ verifySignature
             (hmacDigest (signingKey (hd {| id := None; encryptionKey := [];
                                            signingKey := [] |}
                                         (keys example_keyring)))
                         (iv ++ data))
             (subarray (Base64.decode example_envelope_bad_ciphertext) 0 32)
           = false).
Proof.
  split.
  - eexists _, _, _, _. split; [vm_compute; reflexivity|].
    vm_compute. reflexivity.
  - eexists _, _. split; [vm_compute; reflexivity|].
    vm_compute. reflexivity.
Qed.

(** C3, amended. Order in [decrypt]: the block cipher is run on the
    ciphertext first and the HMAC is compared afterwards, only if the
    cipher succeeded; a failure of the cipher (DecryptionError) is raised
    before any comparison.  When the cipher succeeds and the HMAC does not
    match, [decrypt] fails with IntegrityError.  A plaintext is returned
    only after the comparison was made and succeeded: none is ever
    returned from an input whose HMAC does not verify. *)
Theorem C3_decrypt_order (key : Key) (opts : Options) (message : list Z) :
  let decoded := Base64.decode message in
  let hmac := subarray decoded 0 32 in
  let iv := subarray decoded 32 48 in
  let encrypted := subarray_from decoded 48 in
  let expected := hmacDigest (signingKey key) (iv ++ encrypted) in
  let run := decrypt key opts message in
  (trace run = []
   \/ (trace run = [EvDecipher iv encrypted]
       /\ exists c, outcome run = Err (DecryptionError c))
   \/ trace run = [EvDecipher iv encrypted; EvVerify expected hmac])
  /\ (trace run = [EvDecipher iv encrypted; EvVerify expected hmac] ->
      expected <> hmac -> outcome run = Err IntegrityError)
  /\ (forall p,
        outcome run = Ok p ->
        trace run = [EvDecipher iv encrypted; EvVerify expected hmac]
        /\ expected = hmac).
Proof.
  cbn zeta. unfold decrypt.
  destruct (encryption opts) as [alg|]; cbn [lift bind app];
    [|repeat split; (auto || discriminate)].
  destruct (Aes.createDecipheriv alg (encryptionKey key) _) as [c|e];
    cbn [lift bind app tick]; [|repeat split; (auto || discriminate)].
  destruct (Aes.decipher_run c _) as [d|e] eqn:Ed; cbn [lift bind app].
  - destruct (verifySignature _ _) eqn:Ev; cbn [negb throw ret trace outcome fst snd].
    + apply verifySignature_spec in Ev. repeat split; auto.
      intros _ Hne. contradiction.
    + repeat split; auto; discriminate.
  - cbn [trace outcome fst snd]. split; [|split].
    + right. left. split; [reflexivity|].
      unfold Aes.decipher_run in Ed.
      destruct (_ || _) in Ed; [injection Ed as <-; eauto|].
      destruct (Aes.pkcs7_unpad _) in Ed; [discriminate Ed|].
      injection Ed as <-. eauto.
    + discriminate.
    + discriminate.
Qed.

(** *** C4 *)

(** C4, as stated, fails.  The constructor accepts the key map with the
    names ["1"] and ["01"]: both keys get id 1, the maximum.  [encrypt]
    uses the last of them and reports id 1; once the map is expanded with a
    key ["2"], the new keyring reports id 2, and its lookup of id 1 finds
    the first key of id 1, so that decrypting the envelope produced under
    id 1 fails. *)
Lemma C4_counterexample :
  exists k k',
    keyring duplicate_keys (with_salt []) = Ok k
    /\ keyring duplicate_keys_expanded (with_salt []) = Ok k'
    /\ Keyring_currentId k = Ok (Some 1)
    /\ Keyring_currentId k' = Ok (Some (1 + 1))
    /\ match Keyring_encrypt k test_iv (VString (js "42")) with
       | Ok (envelope, keyId, _) =>
           keyId = Some 1
           /\ outcome (Keyring_decrypt k' envelope (VNumber 1))
              = Err (DecryptionError BadDecrypt)
       | Err _ => False
       end.
Proof.
  eexists. eexists.
  split; [vm_compute; reflexivity|].
  split; [vm_compute; reflexivity|].
  split; [vm_compute; reflexivity|].
  split; [vm_compute; reflexivity|].
  vm_compute. split; reflexivity.
Qed.

(** C4, amended. Current key and rotation, for a registry whose ids are
    pairwise distinct: [currentId] is the maximum id [N] of the registry
    and [encrypt] reports it; once a keyring is constructed from the map
    expanded with a key of id [N + 1], its [currentId] and every [encrypt]
    report [N + 1], and it still decrypts the envelopes produced under id
    [N]. *)
Theorem C4_current_key_and_rotation
        (l1 l2 : keymap) (name : list Z) (secret : jsval) (opts : Options)
        (k k' : Keyring) (N : Z) (iv iv' p p' : list Z) :
  keymap_ok (l1 ++ (name, secret) :: l2) ->
  keyring (l1 ++ l2) opts = Ok k ->
  keyring (l1 ++ (name, secret) :: l2) opts = Ok k' ->
  NoDup (map id (keys k)) -> safe_ids (keys k') ->
  Keyring_currentId k = Ok (Some N) ->
  parseInt name = Some (N + 1) ->
  is_block iv -> is_block iv' -> jsstring_ok p -> jsstring_ok p' ->
  (exists key, In key (keys k) /\ id key = Some N)
  /\ (forall key z, In key (keys k) -> id key = Some z -> z <= N)
  /\ (exists envelope digest,
        Keyring_encrypt k iv (VString p) = Ok (envelope, Some N, digest)
        /\ exists q,
             outcome (Keyring_decrypt k' envelope (VNumber N)) = Ok q
             /\ (well_formed p = true -> q = p))
  /\ Keyring_currentId k' = Ok (Some (N + 1))
  /\ (exists envelope' digest',
        Keyring_encrypt k' iv' (VString p')
        = Ok (envelope', Some (N + 1), digest')).
Proof.
  intros Hm' Hk Hk' Hnd _ Hcur Hname Hi Hi' Hp Hp'.
  pose proof (keymap_ok_remove l1 l2 _ Hm') as Hm.
  destruct (keyring_current _ opts k Hm Hk)
    as (alg & s & n & key & N0 & Ho & _ & Hn & Hnk & _ & Hc & Hin & HN & Hkey & Hmax).
  destruct (keyring_current _ opts k' Hm' Hk')
    as (alg' & s' & n' & key' & N' & Ho' & _ & Hn' & Hnk' & Hok' & Hc' & Hin' & HN'
        & Hkey' & Hmax').
  assert (N0 = N) as ->.
  { unfold Keyring_currentId in Hcur. rewrite Hc in Hcur. cbn [rbind] in Hcur.
    congruence. }
  pose proof (keyring_same_options _ _ opts k k' Hk Hk') as Hsame.
  rewrite Ho, Ho' in Hsame. injection Hsame as <- <-.
  assert (n' = n) as -> by congruence.
  (* the keys of the two registries *)
  apply normalizeKeys_app in Hnk. destruct Hnk as (ka & kb & Ha & Hb & Ek).
  apply normalizeKeys_app in Hnk'. destruct Hnk' as (ka' & kb' & Ha' & Hb' & Ek').
  assert (ka' = ka) as -> by congruence.
  change ((name, secret) :: l2) with ([(name, secret)] ++ l2) in Hb'.
  apply normalizeKeys_app in Hb'. destruct Hb' as (kn & kb'' & Hn1 & Hb'' & ->).
  assert (kb'' = kb) as -> by congruence.
  destruct (normalizeKeys_inv [(name, secret)] n kn Hn1) as (Hid & _ & _).
  destruct kn as [|knew [|? ?]]; try discriminate Hid.
  cbn [map fst] in Hid. injection Hid as Hid. rewrite Hname in Hid.
  cbn [app] in Ek'.
  assert (Hnew : In knew (keys k')) by (rewrite Ek'; apply in_elt).
  assert (Hsub : forall x, In x (keys k) -> In x (keys k')).
  { intros x Hx. rewrite Ek in Hx. rewrite Ek'.
    apply in_app_or in Hx. apply in_or_app. cbn [In]. tauto. }
  assert (Hni : ~ In (id knew) (map id (ka ++ kb))).
  { rewrite Hid. intro Hx. apply in_map_iff in Hx. destruct Hx as (x & Hx1 & Hx2).
    rewrite <- Ek in Hx2. specialize (Hmax x (N + 1) Hx2 Hx1). lia. }
  assert (Hnd' : NoDup (map id (keys k'))).
  { rewrite Ek'. apply NoDup_ids_insert; [rewrite <- Ek; exact Hnd | exact Hni]. }
  assert (N' = N + 1) as ->.
  { pose proof (Hmax' knew (N + 1) Hnew Hid) as Hge.
    rewrite Ek' in Hin'. apply in_app_or in Hin'.
    assert (Hcases : key' = knew \/ In key' (keys k)).
    { rewrite Ek. destruct Hin' as [H | [H | H]]; auto using in_or_app. }
    destruct Hcases as [-> | Hold]; [congruence|].
    specialize (Hmax key' N' Hold HN'). lia. }
  split; [exists key; auto|]. split; [exact Hmax|]. split; [|split].
  - exists (Base64.encode (tag_of key iv (ciphertext_of alg key iv p) ++ iv
                             ++ ciphertext_of alg key iv p)), (digest_of p s).
    split.
    + unfold Keyring_encrypt. rewrite Ho, <- HN.
      apply (encrypt_eq (keys k) alg s n key iv p Hc Hn Hkey (proj1 Hi)).
    + exists (Utf8.decode (Utf8.encode p)). split.
      * rewrite (Keyring_decrypt_found k' key _ _
                   (findKey_number _ key N Hnd' (Hsub key Hin) HN)).
        rewrite Ho'.
        rewrite (decrypt_envelope alg (Some s) n key
                   (tag_of key iv (ciphertext_of alg key iv p)) iv p Hn Hkey Hi Hp
                   (hmacDigest_length _ _) (hmacDigest_ok _ _)).
        cbn [outcome snd]. rewrite verifySignature_refl. reflexivity.
      * intro Hwf. apply utf8_decode_encode; assumption.
  - unfold Keyring_currentId. rewrite Hc'. cbn [rbind]. rewrite HN'. reflexivity.
  - exists (Base64.encode (tag_of key' iv' (ciphertext_of alg key' iv' p') ++ iv'
                             ++ ciphertext_of alg key' iv' p')), (digest_of p' s).
    unfold Keyring_encrypt. rewrite Ho', <- HN'.
    apply (encrypt_eq (keys k') alg s n key' iv' p' Hc' Hn' Hkey' (proj1 Hi')).
Qed.

Lemma C4_witness :
  (exists key, In key (keys test_keyring) /\ id key = Some 0)
  /\ (forall key z, In key (keys test_keyring) -> id key = Some z -> z <= 0)
  /\ (exists envelope digest,
        Keyring_encrypt test_keyring test_iv (VString (js "42"))
        = Ok (envelope, Some 0, digest)
        /\ exists q,
             outcome (Keyring_decrypt rotated_keyring envelope (VNumber 0)) = Ok q
             /\ (well_formed (js "42") = true -> q = js "42"))
  /\ Keyring_currentId rotated_keyring = Ok (Some (0 + 1))
  /\ (exists envelope' digest',
        Keyring_encrypt rotated_keyring test_iv (VString (js "42"))
        = Ok (envelope', Some (0 + 1), digest')).
Proof.
  apply (C4_current_key_and_rotation
           test_keys [] (js "1") rotation_secret (with_salt [])
           test_keyring rotated_keyring 0 test_iv test_iv (js "42") (js "42")).
  - split.
    + constructor; [intros [H | []]; discriminate H|].
      constructor; [intros [] | constructor].
    + constructor; [apply units_check_ok; vm_compute; reflexivity|].
      constructor; [apply bytes_check_ok; vm_compute; reflexivity | constructor].
  - vm_compute. reflexivity.
  - vm_compute. reflexivity.
  - exact test_keyring_ids.
  - constructor; [cbn; unfold safe_integer; split; reflexivity|].
    constructor; [cbn; unfold safe_integer; split; reflexivity | constructor].
  - vm_compute. reflexivity.
  - vm_compute. reflexivity.
  - exact test_iv_block.
  - exact test_iv_block.
  - exact test_plaintext_ok.
  - exact test_plaintext_ok.
Defined.

(** *** C5 *)



(** *** C6 *)

(** C6. Digest definition: on a keyring constructed with salt [s] (the
    empty string included), [digest p] is the SHA-1 hash of the UTF-8 bytes
    of [p] directly followed by [s], as 40 lowercase hexadecimal
    characters; a keyring with other keys or another algorithm and the
    same salt gives the same digest; with salt ["a"] the digest of ["42"]
    is ["118c884d37dde5fb6816daba052d94e82f1dc41f"]. *)
Theorem C6_digest_definition
        (raw raw' : keymap) (opts opts' : Options) (k k' : Keyring)
        (s p : list Z) :
  keyring raw opts = Ok k -> salt opts = Some s ->
  keyring raw' opts' = Ok k' -> salt opts' = Some s ->
  exists d,
    Keyring_digest k (VString p) = Ok d
    /\ d = Hex.of_bytes (Sha1.hash (Utf8.encode (p ++ s)))
    /\ length d = 40%nat
    /\ forallb Hex.lower_hex_char d = true
    /\ Keyring_digest k' (VString p) = Ok d
    /\ exists k0,
         keyring test_keys (with_salt (js "a")) = Ok k0
         /\ Keyring_digest k0 (VString (js "42"))
            = Ok (js "118c884d37dde5fb6816daba052d94e82f1dc41f").
Proof.
  intros Hk Hs Hk' Hs'.
  destruct (keyring_inv raw opts k Hk) as (alg & s1 & n & Ho & Hs1 & _).
  destruct (keyring_inv raw' opts' k' Hk') as (alg' & s2 & n' & Ho' & Hs2 & _).
  assert (s1 = s) as -> by congruence.
  assert (s2 = s) as -> by congruence.
  exists (digest_of p s). repeat split.
  - unfold Keyring_digest. rewrite Ho. reflexivity.
  - unfold digest_of. rewrite hex_length, sha1_hash_length. reflexivity.
  - apply hex_lower, sha1_hash_ok.
  - unfold Keyring_digest. rewrite Ho'. reflexivity.
  - eexists. split; [vm_compute; reflexivity|]. vm_compute. reflexivity.
Qed.

Lemma C6_witness :
  exists d,
    Keyring_digest test_keyring (VString (js "42")) = Ok d
    /\ d = Hex.of_bytes (Sha1.hash (Utf8.encode (js "42" ++ [])))
    /\ length d = 40%nat
    /\ forallb Hex.lower_hex_char d = true
    /\ Keyring_digest test_keyring (VString (js "42")) = Ok d
    /\ exists k0,
         keyring test_keys (with_salt (js "a")) = Ok k0
         /\ Keyring_digest k0 (VString (js "42"))
            = Ok (js "118c884d37dde5fb6816daba052d94e82f1dc41f").
Proof.
  apply (C6_digest_definition test_keys test_keys (with_salt []) (with_salt [])
                              test_keyring test_keyring [] (js "42")).
  - exact test_keyring_eq.
  - reflexivity.
  - exact test_keyring_eq.
  - reflexivity.
Defined.

(** *** C7 *)

(** C7, as stated, fails.  With the id ["a"] and a secret of the wrong
    length, construction fails with KeyLengthMismatch, not with
    InvalidKeyId: the lengths are checked first.  With the id ["1.5"],
    which is not an integer, construction succeeds and the key has id 1. *)
Lemma C7_counterexample :
  keyring [(js "a", VString (js "AAAA"))] (with_salt [])
  = Err (KeyLengthMismatch 32 3)
  /\ exists k,
       keyring [(js "1.5", VString test_secret_128)] (with_salt []) = Ok k
       /\ map id (keys k) = [Some 1].
Proof.
  split; [vm_compute; reflexivity|].
  eexists. split; [vm_compute; reflexivity|]. vm_compute. reflexivity.
Qed.

(** C7, amended. Every key id is read with [parseInt(id, 10)]: after
    leading white space and an optional sign, the longest prefix of decimal
    digits.  If some id has no such prefix ([parseInt] gives NaN),
    construction fails: with InvalidKeyId when the salt is given, the
    algorithm is supported and every secret has the expected length, and
    with the error raised before the ids are validated otherwise.  No key
    of a constructed keyring has the id NaN, and no name of its key map is
    read as NaN; when the names are read as safe integers (magnitude below
    2^53), every key has exactly the integer [parseInt] read from its
    name. *)
Theorem C7_key_id_validation (raw : keymap) (opts : Options) :
  (forall k,
      keyring raw opts = Ok k ->
      Forall (fun key => isNaN (id key) = false) (keys k)
      /\ Forall (fun e => isNaN (parseInt (fst e)) = false) raw
      /\ (names_ok raw ->
          map id (keys k) = map (fun e => parseInt (fst e)) raw))
  /\ ((exists name value, In (name, value) raw /\ parseInt name = None) ->
      exists e, keyring raw opts = Err e)
  /\ (forall s alg n,
        salt opts = Some s ->
        encryption (Object_assign defaultKeyringOptions opts) = Some alg ->
        keySizes alg = Some n ->
        Forall (fun e => exists secret, keyBuffer (snd e) = Ok secret
                                        /\ length secret = (2 * n)%nat) raw ->
        (exists name value, In (name, value) raw /\ parseInt name = None) ->
        keyring raw opts = Err InvalidKeyId).
Proof.
  assert (G : forall k,
             keyring raw opts = Ok k ->
             map id (keys k) = map (fun e => parseInt (fst e)) raw
             /\ Forall (fun key => exists z, id key = Some z) (keys k)).
  { intros k Hk.
    destruct (keyring_inv raw opts k Hk) as (alg & s & n & _ & _ & _ & _ & Hnk & _ & Hid).
    split; [apply (normalizeKeys_inv raw n (keys k) Hnk) | exact Hid]. }
  assert (B : forall ks,
             (exists name value, In (name, value) raw /\ parseInt name = None) ->
             map id ks = map (fun e => parseInt (fst e)) raw ->
             existsb (fun key => isNaN (id key)) ks = true /\ ks <> []).
  { intros ks (name & value & Hin & Hnan) Hids.
    assert (Hn : In None (map id ks)).
    { rewrite Hids. apply in_map_iff. exists (name, value). auto. }
    apply in_map_iff in Hn. destruct Hn as (key & Hk1 & Hk2). split.
    - apply existsb_exists. exists key. rewrite Hk1. auto.
    - intros ->. contradiction. }
  split; [|split].
  - intros k Hk. destruct (G k Hk) as [Hids Hall].
    assert (Hkeys : Forall (fun key => isNaN (id key) = false) (keys k)).
    { eapply Forall_impl; [|exact Hall]. intros key [z ->]. reflexivity. }
    split; [exact Hkeys|]. split; [|intros _; exact Hids].
    apply Forall_forall. intros e He.
    assert (Hin : In (parseInt (fst e)) (map id (keys k))).
    { rewrite Hids. apply (in_map (fun e => parseInt (fst e))). exact He. }
    apply in_map_iff in Hin. destruct Hin as (key & <- & Hkey).
    rewrite Forall_forall in Hkeys. apply Hkeys, Hkey.
  - intros Hbad. destruct (keyring raw opts) as [k|e] eqn:Hk; [|eauto].
    exfalso. destruct (G k eq_refl) as [Hids Hall].
    destruct (B (keys k) Hbad Hids) as [Hex _].
    apply existsb_exists in Hex. destruct Hex as (key & Hin & Hnan).
    rewrite Forall_forall in Hall. destruct (Hall key Hin) as [z Hz].
    rewrite Hz in Hnan. discriminate Hnan.
  - intros s alg n Hs Ha Hn Hsec Hbad.
    destruct (normalizeKeys_total raw n Hsec) as [ks Hks].
    destruct (B ks Hbad (proj1 (normalizeKeys_inv raw n ks Hks))) as [Hex Hne].
    unfold keyring.
    assert (Hs' : salt (Object_assign defaultKeyringOptions opts) = Some s).
    { unfold Object_assign. cbn [salt]. rewrite Hs. reflexivity. }
    rewrite Hs', Ha, Hn, Hks. cbn [rbind]. unfold validateKeyring.
    destruct ks as [|k0 ks]; [contradiction|].
    cbn [length Nat.eqb]. rewrite Hex. reflexivity.
Qed.

(** *** C8 *)

(** C8, as stated, fails: the key map with the two properties ["1"] and
    ["01"] is accepted, and both keys of the registry have id 1. *)
Lemma C8_counterexample :
  exists k,
    keyring [(js "1", VString test_secret_128); (js "01", VString test_secret_128)]
            (with_salt []) = Ok k
    /\ map id (keys k) = [Some 1; Some 1]
    /\ ~ NoDup (map id (keys k))
    /\ js "1" <> js "01".
Proof.
  eexists. split; [vm_compute; reflexivity|].
  split; [vm_compute; reflexivity|]. split; [|discriminate].
  intro H. vm_compute in H. inversion_clear H as [|? ? Hni _].
  apply Hni. left. reflexivity.
Qed.

(** C8, amended. Construction does not check that ids are unique: the
    registry has one key per property of the map, in order, and when the
    names are read as safe integers the id of each key is the integer
    [parseInt] reads from its name.  The ids are pairwise distinct when the
    names are the decimal numerals of safe integers (what [String(n)] gives
    for an integer of magnitude below 2^53), as the names of one object are
    pairwise distinct. *)
Theorem C8_registry_ids (raw : keymap) (opts : Options) (k : Keyring) :
  keyring raw opts = Ok k ->
  length (keys k) = length raw
  /\ (names_ok raw -> map id (keys k) = map (fun e => parseInt (fst e)) raw)
  /\ (NoDup (map fst raw) ->
      (forall name, In name (map fst raw) ->
                    exists z, safe_integer z
                              /\ name = number_to_string (Some z)) ->
      NoDup (map id (keys k))).
Proof.
  intro Hk.
  destruct (keyring_inv raw opts k Hk) as (alg & s & n & _ & _ & _ & _ & Hnk & _).
  destruct (normalizeKeys_inv raw n (keys k) Hnk) as (Hids & _).
  split; [|split; [intros _; exact Hids|]].
  - rewrite <- (length_map id), Hids, length_map. reflexivity.
  - intros Hnd Hcanon.
    rewrite Hids. rewrite <- (map_map fst parseInt).
    apply NoDup_map_injective_on; [|exact Hnd].
    intros x y Hx Hy E.
    destruct (Hcanon x Hx) as (zx & _ & ->).
    destruct (Hcanon y Hy) as (zy & _ & ->).
    rewrite !parseInt_number_to_string in E. congruence.
Qed.

Lemma C8_witness :
  length (keys test_keyring) = length test_keys
  /\ map id (keys test_keyring) = map (fun e => parseInt (fst e)) test_keys
  /\ NoDup (map id (keys test_keyring)).
Proof.
  destruct (C8_registry_ids test_keys (with_salt []) test_keyring
                            test_keyring_eq) as (H1 & H2 & H3).
  split; [exact H1|]. split.
  - apply H2. constructor; [|constructor].
    cbn. unfold safe_integer. split; reflexivity.
  - apply H3.
    + constructor; [intros [] | constructor].
    + intros name [<- | []]. exists 0. split; [|reflexivity].
      unfold safe_integer. split; reflexivity.
Defined.

(** *** C9 *)

(** C9, as stated, fails: the requested values ["1abc"] and [" 1.9"] are
    not the integer 1, and both resolve to the key of id 1. *)
Lemma C9_counterexample :
  exists key,
    findKey (keys example_keyring) (VString (js "1abc")) = Ok key
    /\ findKey (keys example_keyring) (VString (js " 1.9")) = Ok key
    /\ id key = Some 1.
Proof.
  eexists. split; [vm_compute; reflexivity|].
  split; vm_compute; reflexivity.
Qed.

(** C9, amended. For keys whose ids are safe integers and a requested
    value that is a string, [undefined], a buffer or a number that is a
    safe integer: the lookup reads the requested value with
    [parseInt(value, 10)] and returns the first key whose id equals the
    integer read; it fails with UnknownKeyId when no integer can be read or
    no key has that id.  For a requested number this is the exact match:
    the key returned has exactly the requested id, and the lookup fails
    exactly when no key has it. *)
Theorem C9_key_lookup (ks : list Key) (req : jsval) :
  safe_ids ks -> request_ok req ->
  findKey ks req
  = match parseInt (ToString req) with
    | Some z =>
        match find (fun key => strict_eq (id key) (Some z)) ks with
        | Some key => Ok key
        | None => Err UnknownKeyId
        end
    | None => Err UnknownKeyId
    end
  /\ (forall z,
        req = VNumber z ->
        (forall key, findKey ks req = Ok key -> In key ks /\ id key = Some z)
        /\ ((forall key, In key ks -> id key <> Some z) ->
            findKey ks req = Err UnknownKeyId)
        /\ ((exists key, In key ks /\ id key = Some z) ->
            exists key, findKey ks req = Ok key /\ id key = Some z)).
Proof.
  intros _ _. split.
  - rewrite findKey_unfold.
    destruct (parseInt (ToString req)); [reflexivity|].
    rewrite find_none_NaN. reflexivity.
  - intros z ->. rewrite findKey_unfold. cbn [ToString].
    rewrite parseInt_number_to_string.
    destruct (find (fun key => strict_eq (id key) (Some z)) ks) as [key|] eqn:E.
    + apply find_some in E. destruct E as [Hin Hz].
      apply strict_eq_some in Hz. repeat split.
      * injection H as <-. exact Hin.
      * injection H as <-. exact Hz.
      * intro Hno. exfalso. apply (Hno key Hin Hz).
      * intros _. eauto.
    + repeat split; try discriminate.
      intros (key & Hin & Hz). exfalso.
      pose proof (find_none _ _ E key Hin) as Hf. cbn beta in Hf.
      apply strict_eq_some in Hz. rewrite Hz in Hf. discriminate Hf.
Qed.

Lemma C9_witness :
  findKey (keys test_keyring) (VNumber 0)
  = match parseInt (ToString (VNumber 0)) with
    | Some z =>
        match find (fun key => strict_eq (id key) (Some z)) (keys test_keyring) with
        | Some key => Ok key
        | None => Err UnknownKeyId
        end
    | None => Err UnknownKeyId
    end
  /\ (forall z,
        VNumber 0 = VNumber z ->
        (forall key, findKey (keys test_keyring) (VNumber 0) = Ok key ->
                     In key (keys test_keyring) /\ id key = Some z)
        /\ ((forall key, In key (keys test_keyring) -> id key <> Some z) ->
            findKey (keys test_keyring) (VNumber 0) = Err UnknownKeyId)
        /\ ((exists key, In key (keys test_keyring) /\ id key = Some z) ->
            exists key, findKey (keys test_keyring) (VNumber 0) = Ok key
                        /\ id key = Some z)).
Proof.
  apply (C9_key_lookup (keys test_keyring) (VNumber 0)).
  - exact test_keyring_safe.
  - cbn. unfold safe_integer. split; reflexivity.
Defined.

(** *** C10 *)

(** C10. On a valid keyring and for every string plaintext [p], the third
    component of what [encrypt] returns is what the [digest] function of
    the keyring returns: the SHA-1 hex digest of [p] followed by the salt.
    It is the same for any other keyring with the same salt and any other
    initialization vector. *)
Theorem C10_encrypt_digest_consistency
        (raw raw' : keymap) (opts opts' : Options) (k k' : Keyring)
        (iv iv' p : list Z) :
  keymap_ok raw -> keyring raw opts = Ok k -> length iv = 16%nat ->
  keymap_ok raw' -> keyring raw' opts' = Ok k' -> length iv' = 16%nat ->
  salt opts' = salt opts ->
  exists envelope keyId envelope' keyId' digest s,
    Keyring_encrypt k iv (VString p) = Ok (envelope, keyId, digest)
    /\ Keyring_digest k (VString p) = Ok digest
    /\ salt opts = Some s
    /\ digest = Hex.of_bytes (Sha1.hash (Utf8.encode (p ++ s)))
    /\ Keyring_encrypt k' iv' (VString p) = Ok (envelope', keyId', digest).
Proof.
  intros Hm Hk Hi Hm' Hk' Hi' Hs.
  destruct (keyring_current raw opts k Hm Hk)
    as (alg & s & n & key & N & Ho & Hso & Hn & _ & _ & Hc & _ & _ & Hkey & _).
  destruct (keyring_current raw' opts' k' Hm' Hk')
    as (alg' & s' & n' & key' & N' & Ho' & Hso' & Hn' & _ & _ & Hc' & _ & _ & Hkey' & _).
  assert (s' = s) as -> by congruence.
  eexists _, _, _, _, (digest_of p s), s.
  split; [|split; [|split; [|split]]].
  - unfold Keyring_encrypt. rewrite Ho.
    apply (encrypt_eq (keys k) alg s n key iv p Hc Hn Hkey Hi).
  - unfold Keyring_digest. rewrite Ho. reflexivity.
  - exact Hso.
  - reflexivity.
  - unfold Keyring_encrypt. rewrite Ho'.
    apply (encrypt_eq (keys k') alg' s n' key' iv' p Hc' Hn' Hkey' Hi').
Qed.

Lemma C10_witness :
  exists envelope keyId envelope' keyId' digest s,
    Keyring_encrypt test_keyring test_iv (VString (js "42"))
    = Ok (envelope, keyId, digest)
    /\ Keyring_digest test_keyring (VString (js "42")) = Ok digest
    /\ salt (with_salt []) = Some s
    /\ digest = Hex.of_bytes (Sha1.hash (Utf8.encode (js "42" ++ s)))
    /\ Keyring_encrypt test_keyring (repeat 7 16) (VString (js "42"))
       = Ok (envelope', keyId', digest).
Proof.
  apply (C10_encrypt_digest_consistency
           test_keys test_keys (with_salt []) (with_salt [])
           test_keyring test_keyring test_iv (repeat 7 16) (js "42")).
  - exact test_keys_ok.
  - exact test_keyring_eq.
  - reflexivity.
  - exact test_keys_ok.
  - exact test_keyring_eq.
  - reflexivity.
  - reflexivity.
Defined.


(** * Further properties of the code *)

(** ** Sizes *)

Lemma base64_encode_length (bs : list Z) :
  length (Base64.encode bs) = (4 * ((length bs + 2) / 3))%nat.
Proof.
  induction bs as [| a | a b | a b c r IH] using list_ind3; try reflexivity.
  cbn [Base64.encode length]. rewrite IH.
  replace (S (S (S (length r))) + 2)%nat with (length r + 2 + 1 * 3)%nat by lia.
  rewrite Nat.div_add by lia. lia.
Qed.

Lemma base64_char_of_output (n : Z) :
  0 <= n < 64 -> base64_output_char (Base64.char_of n) = true.
Proof.
  intro H.
  apply (range_forallb (fun n => base64_output_char (Base64.char_of n)) 64);
    [vm_compute; reflexivity | exact H].
Qed.

Lemma base64_encode_output (bs : list Z) :
  bytes_ok bs -> forallb base64_output_char (Base64.encode bs) = true.
Proof.
  induction bs as [| a | a b | a b c r IH] using list_ind3; intro H.
  - reflexivity.
  - inversion_clear H as [|? ? Ha _]. unfold byte_ok in Ha.
    cbn [Base64.encode forallb].
    rewrite !base64_char_of_output by div_mod_lia. reflexivity.
  - inversion_clear H as [|? ? Ha H']. inversion_clear H' as [|? ? Hb _].
    unfold byte_ok in Ha, Hb. cbn [Base64.encode forallb].
    rewrite !base64_char_of_output by div_mod_lia. reflexivity.
  - inversion_clear H as [|? ? Ha H']. inversion_clear H' as [|? ? Hb H''].
    inversion_clear H'' as [|? ? Hc Hr].
    unfold byte_ok in Ha, Hb, Hc. cbn [Base64.encode forallb].
    rewrite !base64_char_of_output by div_mod_lia. rewrite (IH Hr). reflexivity.
Qed.

Lemma pkcs7_pad_length (bs : list Z) :
  length (Aes.pkcs7_pad bs) = (16 * (length bs / 16 + 1))%nat.
Proof.
  unfold Aes.pkcs7_pad. rewrite length_app, repeat_length.
  pose proof (Nat.mod_upper_bound (length bs) 16 (ltac:(lia))).
  pose proof (Nat.div_mod_eq (length bs) 16). lia.
Qed.

Lemma cbc_encrypt_length (ks : list (list Z)) (blocks : list (list Z)) :
  forall prev, length (Aes.cbc_encrypt ks prev blocks) = length blocks.
Proof.
  induction blocks as [|p r IH]; intro prev; [reflexivity|].
  cbn [Aes.cbc_encrypt length]. rewrite IH. reflexivity.
Qed.

Lemma cipher_run_length (c : Aes.Cipheriv) (data : list Z) :
  cipher_ok c -> bytes_ok data ->
  length (Aes.cipher_run c data) = (16 * (length data / 16 + 1))%nat.
Proof.
  intros Hc Hd.
  destruct (cipher_run_blocks c data Hc Hd) as (blocks & E & Eb & Hbl & _ & _).
  destruct (concat_blocks blocks Hbl) as (Hlen & _ & _).
  rewrite E, Hlen, Eb, cbc_encrypt_length.
  destruct (chunks_exact 16 (ltac:(lia)) (length data / 16 + 1) (Aes.pkcs7_pad data))
    as (Hn & _ & _).
  { rewrite pkcs7_pad_length. lia. }
  rewrite Hn. lia.
Qed.

Lemma utf8_encode_length (s : list Z) :
  (length (Utf8.encode s) <= 3 * length s)%nat.
Proof.
  assert (G : forall n s, (length s <= n)%nat ->
                          (length (Utf8.encode s) <= 3 * length s)%nat).
  { clear s. induction n as [|n IH]; intros s Hn.
    - destruct s; [cbn; lia | cbn in Hn; lia].
    - destruct s as [|u rest]; [cbn; lia|].
      cbn [length] in Hn. cbn [Utf8.encode].
      assert (Hr : (length (Utf8.encode rest) <= 3 * length rest)%nat)
        by (apply IH; lia).
      destruct (u <? 128); [cbn [length]; lia|].
      destruct (u <? 2048); [rewrite length_app; cbn [Utf8.enc2 length]; lia|].
      destruct (is_high_surrogate u).
      + destruct rest as [|v rest']; [cbn; lia|].
        destruct (is_low_surrogate v).
        * rewrite length_app. cbn [Utf8.enc4 length].
          assert (length (Utf8.encode rest') <= 3 * length rest')%nat
            by (apply IH; cbn [length] in Hn; lia).
          cbn [length]. lia.
        * rewrite length_app. cbn [Utf8.replacement length] in *. lia.
      + destruct (is_low_surrogate u);
          rewrite length_app; cbn [Utf8.replacement Utf8.enc3 length]; lia. }
  apply (G (length s)). lia.
Qed.

(** ** Construction *)

Lemma normalizeKeys_ok_iff (raw : keymap) (n : nat) :
  (exists ks, normalizeKeys raw n = Ok ks) <-> Forall (secret_fits n) raw.
Proof.
  split.
  - intros [ks H]. apply (normalizeKeys_inv raw n ks H).
  - apply normalizeKeys_total.
Qed.

Lemma normalizeKeys_length (raw : keymap) (n : nat) (ks : list Key) :
  normalizeKeys raw n = Ok ks -> length ks = length raw.
Proof.
  intro H. destruct (normalizeKeys_inv raw n ks H) as (Hm & _ & _).
  apply (f_equal (@length (option Z))) in Hm. rewrite !length_map in Hm.
  exact Hm.
Qed.

Lemma validateKeyring_ok_iff (ks : list Key) :
  validateKeyring ks = Ok tt
  <-> ks <> [] /\ Forall (fun key => id key <> None) ks.
Proof.
  unfold validateKeyring. split.
  - intro H.
    destruct (Nat.eqb_spec (length ks) 0) as [|Hne]; [discriminate H|].
    destruct (existsb (fun key => isNaN (id key)) ks) eqn:Ex; [discriminate H|].
    split; [intros ->; apply Hne; reflexivity|].
    apply Forall_forall. intros key Hin Hid.
    assert (Ht : existsb (fun key => isNaN (id key)) ks = true).
    { apply existsb_exists. exists key. rewrite Hid. auto. }
    rewrite Ht in Ex. discriminate Ex.
  - intros [Hne Hall].
    destruct (Nat.eqb_spec (length ks) 0) as [H0|_].
    { destruct ks; [contradiction | discriminate H0]. }
    destruct (existsb (fun key => isNaN (id key)) ks) eqn:Ex; [|reflexivity].
    apply existsb_exists in Ex. destruct Ex as [key [Hin Hnan]].
    rewrite Forall_forall in Hall. specialize (Hall key Hin).
    destruct (id key); [discriminate Hnan | contradiction].
Qed.

(** The first secret of the wrong length ends the normalization. *)
Lemma normalizeKeys_mismatch (l1 l2 : keymap) (name : list Z) (value : jsval)
      (secret : list Z) (n : nat) :
  Forall (secret_fits n) l1 ->
  keyBuffer value = Ok secret -> length secret <> (2 * n)%nat ->
  normalizeKeys (l1 ++ (name, value) :: l2) n
  = Err (KeyLengthMismatch (Z.of_nat (2 * n)) (len secret)).
Proof.
  intros H1 Hs Hl. induction H1 as [|[nm v] l1 (sec & Hsec & Hlen) _ IH].
  - cbn [app normalizeKeys]. rewrite Hs. cbn [rbind].
    destruct (Nat.eqb_spec (length secret) (2 * n)); [contradiction|].
    reflexivity.
  - cbn [snd] in Hsec. cbn [app normalizeKeys]. rewrite Hsec. cbn [rbind].
    rewrite Hlen, Nat.eqb_refl. cbn [negb]. rewrite IH. reflexivity.
Qed.


(** A secret given as a buffer and the same secret given in base64 are
    normalized alike. *)
Lemma normalizeKeys_same_secret (l1 l2 : keymap) (name : list Z) (v v' : jsval)
      (n : nat) :
  keyBuffer v = keyBuffer v' ->
  normalizeKeys (l1 ++ (name, v) :: l2) n
  = normalizeKeys (l1 ++ (name, v') :: l2) n.
Proof.
  intro E. induction l1 as [|[nm x] l1 IH].
  - cbn [app normalizeKeys]. rewrite E. reflexivity.
  - cbn [app normalizeKeys]. rewrite IH. reflexivity.
Qed.

(** ** The current key *)

Lemma fold_current_last (rest : list Key) :
  forall k0,
    Forall (fun key => exists z, id key = Some z) (k0 :: rest) ->
    exists l1 key l2 N,
      k0 :: rest = l1 ++ key :: l2
      /\ fold_left (fun a b => if gt (id a) (id b) then a else b) rest k0 = key
      /\ id key = Some N
      /\ (forall k' z, In k' l1 -> id k' = Some z -> z <= N)
      /\ (forall k' z, In k' l2 -> id k' = Some z -> z < N).
Proof.
  induction rest as [|b rest IH] using rev_ind; intros k0 H.
  - inversion_clear H as [|? ? [z Hz] _].
    exists [], k0, [], z. cbn. repeat split; auto; intros ? ? [].
  - rewrite app_comm_cons in H. apply Forall_app in H. destruct H as [H Hb].
    inversion_clear Hb as [|? ? [zb Hzb] _].
    destruct (IH k0 H) as (l1 & key & l2 & N & E & Ef & HN & Hl1 & Hl2).
    rewrite fold_left_app. cbn [fold_left]. rewrite Ef, HN, Hzb. cbn [gt].
    destruct (Z.ltb_spec zb N) as [Hlt|Hge].
    + exists l1, key, (l2 ++ [b]), N.
      rewrite app_comm_cons, E, <- app_assoc. cbn [app].
      repeat split; auto.
      intros k' z Hin Hz. apply in_app_or in Hin. destruct Hin as [Hin|[<-|[]]].
      * eauto.
      * congruence.
    + exists (k0 :: rest), b, [], zb.
      rewrite app_comm_cons. repeat split; auto; [|intros ? ? []].
      intros k' z Hin Hz. rewrite E in Hin.
      apply in_app_or in Hin. destruct Hin as [Hin|[<-|Hin]].
      * specialize (Hl1 _ _ Hin Hz). lia.
      * assert (z = N) by congruence. lia.
      * specialize (Hl2 _ _ Hin Hz). lia.
Qed.

(** ** The pattern of [resolveDigestSuffix] *)

Lemma flat_map_nonempty {A B} (f : A -> list B) (l : list A) :
  flat_map f l <> [] <-> exists x, In x l /\ f x <> [].
Proof.
  induction l as [|x l IH]; cbn [flat_map].
  - split; [congruence | intros (x & [] & _)].
  - split.
    + intro H. destruct (f x) as [|y r] eqn:E.
      * cbn [app] in H. apply IH in H. destruct H as (x' & Hin & Hx').
        exists x'. split; [right; exact Hin | exact Hx'].
      * exists x. split; [left; reflexivity | rewrite E; discriminate].
    + intros (x' & [<- | Hin] & Hx') H; apply app_eq_nil in H; destruct H as [H1 H2].
      * contradiction.
      * apply (proj2 IH); [exists x'; auto | exact H2].
Qed.

Lemma plus_ends_In (c : RegExp.class) (s rest : list Z) :
  In rest (RegExp.plus_ends c s)
  <-> exists pre u,
        s = pre ++ u :: rest
        /\ forallb (RegExp.in_class c) (pre ++ [u]) = true.
Proof.
  revert rest. induction s as [|x s IH]; intro rest; cbn [RegExp.plus_ends].
  - split; [intros [] | intros (pre & u & E & _); destruct pre; discriminate E].
  - destruct (RegExp.in_class c x) eqn:Ex.
    + rewrite in_app_iff, IH. cbn [In]. split.
      * intros [(pre & u & -> & Hall) | [<- | []]].
        -- exists (x :: pre), u. split; [reflexivity|].
           cbn [app forallb]. rewrite Ex. exact Hall.
        -- exists [], x. split; [reflexivity|]. cbn. rewrite Ex. reflexivity.
      * intros (pre & u & E & Hall). destruct pre as [|y pre].
        -- cbn [app] in E. injection E as -> ->. right. left. reflexivity.
        -- cbn [app] in E. injection E as -> ->. left.
           exists pre, u. split; [reflexivity|].
           cbn [app forallb] in Hall. apply andb_true_iff in Hall. apply Hall.
    + split; [intros [] | intros (pre & u & E & Hall)].
      destruct pre as [|y pre]; cbn [app] in E; injection E as -> ->;
        cbn [app forallb] in Hall; rewrite Ex in Hall; discriminate Hall.
Qed.

Lemma in_class_lower_or_digit (u : Z) :
  RegExp.in_class [(97, 122); (48, 57)] u = is_lower_or_digit u.
Proof.
  unfold RegExp.in_class, is_lower_or_digit. cbn [existsb fst snd].
  rewrite orb_false_r. reflexivity.
Qed.

Lemma forallb_pointwise {A} (f g : A -> bool) (l : list A) :
  (forall x, f x = g x) -> forallb f l = forallb g l.
Proof.
  intro H. induction l as [|x l IH]; [reflexivity|].
  cbn [forallb]. rewrite H, IH. reflexivity.
Qed.

Lemma in_class_upper (u : Z) : RegExp.in_class [(65, 90)] u = is_upper u.
Proof.
  unfold RegExp.in_class, is_upper. cbn [existsb fst snd].
  rewrite orb_false_r. reflexivity.
Qed.

(** The pattern matches at the start of [s] exactly when [s] starts with
    lower-case letters or digits, at least one, followed by an upper-case
    letter. *)
Lemma camelCase_ends (s : list Z) :
  RegExp.ends camelCase s <> []
  <-> exists pre u v b,
        s = pre ++ u :: v :: b
        /\ forallb is_lower_or_digit (pre ++ [u]) = true
        /\ is_upper v = true.
Proof.
  unfold camelCase. cbn [RegExp.ends]. rewrite flat_map_nonempty. split.
  - intros (rest & Hin & Hne). apply plus_ends_In in Hin.
    destruct Hin as (pre & u & -> & Hall).
    destruct rest as [|v b]; [contradiction Hne; reflexivity|].
    rewrite in_class_upper in Hne.
    destruct (is_upper v) eqn:Ev; [|contradiction Hne; reflexivity].
    exists pre, u, v, b. split; [reflexivity|]. split; [|exact Ev].
    rewrite <- Hall. apply forallb_pointwise. intro x.
    symmetry. apply in_class_lower_or_digit.
  - intros (pre & u & v & b & -> & Hall & Hv).
    exists (v :: b). split.
    + apply plus_ends_In. exists pre, u. split; [reflexivity|].
      rewrite <- Hall. apply forallb_pointwise. intro x.
      apply in_class_lower_or_digit.
    + rewrite in_class_upper, Hv. discriminate.
Qed.

Lemma matches_iff (r : RegExp.regex) (s : list Z) :
  RegExp.matches r s = true
  <-> exists a t, s = a ++ t /\ RegExp.ends r t <> [].
Proof.
  induction s as [|x s IH]; cbn [RegExp.matches].
  - destruct (RegExp.ends r []) eqn:E.
    + split; [discriminate|]. intros (a & t & Es & Hne).
      symmetry in Es. apply app_eq_nil in Es. destruct Es as [-> ->].
      contradiction.
    + split; [|reflexivity]. intros _. exists [], []. rewrite E.
      split; [reflexivity | discriminate].
  - destruct (RegExp.ends r (x :: s)) eqn:E.
    + rewrite IH. split.
      * intros (a & t & -> & Hne). exists (x :: a), t. auto.
      * intros (a & t & Es & Hne). destruct a as [|y a].
        -- cbn [app] in Es. subst t. contradiction.
        -- cbn [app] in Es. injection Es as -> ->. exists a, t. auto.
    + split; [|reflexivity]. intros _. exists [], (x :: s). rewrite E.
      split; [reflexivity | discriminate].
Qed.

(** The pattern matches somewhere in [s] exactly when a lower-case letter
    or a digit of [s] is directly followed by an upper-case letter. *)
Lemma camelCase_matches (s : list Z) :
  RegExp.matches camelCase s = true
  <-> exists a u v b,
        s = a ++ u :: v :: b
        /\ is_lower_or_digit u = true /\ is_upper v = true.
Proof.
  rewrite matches_iff. split.
  - intros (a & t & -> & Hne). apply camelCase_ends in Hne.
    destruct Hne as (pre & u & v & b & -> & Hall & Hv).
    exists (a ++ pre), u, v, b. rewrite <- app_assoc.
    split; [reflexivity|]. split; [|exact Hv].
    rewrite forallb_app in Hall. apply andb_true_iff in Hall.
    destruct Hall as [_ Hu]. cbn [forallb] in Hu.
    rewrite andb_true_r in Hu. exact Hu.
  - intros (a & u & v & b & -> & Hu & Hv).
    exists a, (u :: v :: b). split; [reflexivity|].
    apply camelCase_ends. exists [], u, v, b.
    split; [reflexivity|]. split; [|exact Hv].
    cbn [app forallb]. rewrite Hu. reflexivity.
Qed.

(** ** keyring.js beyond the claims *)

(** X1. [verifySignature] is an equality test: on two buffers it returns
    [true] exactly when they have the same length and the same bytes, and
    so [false] as soon as the lengths differ. *)
Theorem X1_verifySignature_equality (expected actual : list Z) :
  bytes_ok expected -> bytes_ok actual ->
  (verifySignature expected actual = true <-> expected = actual)
  /\ (length expected <> length actual ->
      verifySignature expected actual = false).
Proof.
  intros _ _. split; [apply verifySignature_spec|].
  intro H. apply verifySignature_neq. intros ->. apply H. reflexivity.
Qed.

Lemma X1_witness :
  (verifySignature [1; 2; 255] [1; 2; 254] = true <-> [1; 2; 255] = [1; 2; 254])
  /\ (length [1; 2; 255] <> length [1; 2; 254] ->
      verifySignature [1; 2; 255] [1; 2; 254] = false).
Proof.
  apply (X1_verifySignature_equality [1; 2; 255] [1; 2; 254]);
    apply bytes_check_ok; reflexivity.
Defined.

(** X2. [keyring(keys, options)] returns a keyring exactly when the salt is
    given, the algorithm (["aes-128-cbc"] when the option is absent) is one
    [keySizes] lists, the key map has at least one property, every secret
    decodes to twice the key size in bytes, and [parseInt] reads a number
    from every property name; in every other case it throws. *)
Theorem X2_construction_succeeds_iff (raw : keymap) (opts : Options) :
  (exists k, keyring raw opts = Ok k)
  <-> (exists s n,
         salt opts = Some s
         /\ keySizes match encryption opts with
                     | Some alg => alg
                     | None => js "aes-128-cbc"
                     end = Some n
         /\ raw <> []
         /\ Forall (secret_fits n) raw
         /\ Forall (fun e => parseInt (fst e) <> None) raw).
Proof.
  split.
  - intros [k Hk].
    destruct (keyring_inv raw opts k Hk)
      as (alg & s & n & _ & Hs & Ha & Hn & Hnk & Hne & Hid).
    destruct (normalizeKeys_inv raw n (keys k) Hnk) as (Hm & _ & Hf).
    exists s, n. split; [exact Hs|]. split.
    { destruct Ha as [-> | [-> ->]]; exact Hn. }
    split.
    { intros ->. apply Hne. cbn in Hnk. injection Hnk as <-. reflexivity. }
    split; [exact Hf|].
    apply Forall_forall. intros e He Hp.
    assert (Hin : In (parseInt (fst e)) (map id (keys k))).
    { rewrite Hm. apply (in_map (fun e => parseInt (fst e))). exact He. }
    apply in_map_iff in Hin. destruct Hin as (key & Ek & Hin).
    rewrite Forall_forall in Hid. destruct (Hid key Hin) as [z Hz].
    congruence.
  - intros (s & n & Hs & Hn & Hne & Hf & Hp).
    destruct (normalizeKeys_total raw n Hf) as [ks Hks].
    destruct (normalizeKeys_inv raw n ks Hks) as (Hm & _ & _).
    assert (Hv : validateKeyring ks = Ok tt).
    { apply validateKeyring_ok_iff. split.
      - intros ->. apply Hne. destruct raw; [reflexivity | discriminate Hm].
      - apply Forall_forall. intros key Hin.
        assert (Hi : In (id key) (map id ks)) by (apply in_map; exact Hin).
        rewrite Hm in Hi. apply in_map_iff in Hi. destruct Hi as (e & <- & He).
        rewrite Forall_forall in Hp. apply Hp. exact He. }
    destruct opts as [oe os]. cbn [salt encryption] in Hs, Hn. subst os.
    unfold keyring. cbn [Object_assign defaultKeyringOptions encryption salt].
    destruct oe as [e|]; rewrite Hn, Hks; cbn [rbind]; rewrite Hv;
      cbn [rbind]; eauto.
Qed.

(** X3. Key-length validation: with a salt and a listed algorithm, the
    first secret of the key map (in property order) whose decoded length is
    not twice the key size makes the construction fail with
    KeyLengthMismatch, carrying the expected and the actual number of
    bytes, whatever the ids and the properties that follow. *)
Theorem X3_key_length_validation
        (l1 l2 : keymap) (name : list Z) (value : jsval) (secret : list Z)
        (opts : Options) (s : list Z) (n : nat) :
  salt opts = Some s ->
  keySizes match encryption opts with
           | Some alg => alg
           | None => js "aes-128-cbc"
           end = Some n ->
  Forall (secret_fits n) l1 ->
  keyBuffer value = Ok secret -> length secret <> (2 * n)%nat ->
  keyring (l1 ++ (name, value) :: l2) opts
  = Err (KeyLengthMismatch (Z.of_nat (2 * n)) (len secret)).
Proof.
  intros Hs Hn H1 Hv Hl.
  destruct opts as [oe os]. cbn [salt encryption] in Hs, Hn. subst os.
  unfold keyring. cbn [Object_assign defaultKeyringOptions encryption salt].
  destruct oe as [e|]; rewrite Hn;
    rewrite (normalizeKeys_mismatch l1 l2 name value secret n H1 Hv Hl);
    reflexivity.
Qed.

Lemma X3_witness :
  keyring ([(js "1", VString test_secret_128)]
             ++ (js "2", VString (js "batataAssadaCom3Sal")) :: [])
          (with_salt (js "salt-n-pepper"))
  = Err (KeyLengthMismatch (Z.of_nat (2 * 16))
                           (len (Base64.decode (js "batataAssadaCom3Sal")))).
Proof.
  apply (X3_key_length_validation
           [(js "1", VString test_secret_128)] [] (js "2")
           (VString (js "batataAssadaCom3Sal"))
           (Base64.decode (js "batataAssadaCom3Sal"))
           (with_salt (js "salt-n-pepper")) (js "salt-n-pepper") 16).
  - reflexivity.
  - reflexivity.
  - constructor; [|constructor].
    exists (Base64.decode test_secret_128). split; reflexivity.
  - reflexivity.
  - vm_compute. discriminate.
Defined.



(** X5. A secret may be given as a buffer or as the base64 text of the same
    bytes: the constructor returns the same result (the same keyring or the
    same error) for both. *)
Theorem X5_buffer_or_base64_secret
        (l1 l2 : keymap) (name b : list Z) (opts : Options) :
  bytes_ok b ->
  keyring (l1 ++ (name, VString (Base64.encode b)) :: l2) opts
  = keyring (l1 ++ (name, VBuffer b) :: l2) opts.
Proof.
  intro Hb.
  assert (E : forall n,
             normalizeKeys (l1 ++ (name, VString (Base64.encode b)) :: l2) n
             = normalizeKeys (l1 ++ (name, VBuffer b) :: l2) n).
  { intro n. apply normalizeKeys_same_secret.
    cbn [keyBuffer Buffer_from_base64].
    rewrite (base64_decode_encode b Hb). reflexivity. }
  assert (E' : normalizeKeys_NaN (l1 ++ (name, VString (Base64.encode b)) :: l2)
               = normalizeKeys_NaN (l1 ++ (name, VBuffer b) :: l2)).
  { destruct l1 as [|[name1 value1] l1]; [|reflexivity].
    cbn [app normalizeKeys_NaN keyBuffer Buffer_from_base64].
    rewrite (base64_decode_encode b Hb). reflexivity. }
  unfold keyring.
  destruct (salt (Object_assign defaultKeyringOptions opts)); [|reflexivity].
  destruct (match encryption (Object_assign defaultKeyringOptions opts) with
            | Some algorithm => keySizes algorithm
            | None => None
            end).
  - rewrite E. reflexivity.
  - rewrite E'. reflexivity.
Qed.

Lemma X5_witness :
  keyring (test_keys ++ (js "1", VString (Base64.encode (map Z.of_nat (seq 100 32)))) :: [])
          (with_salt [])
  = keyring (test_keys ++ (js "1", VBuffer (map Z.of_nat (seq 100 32))) :: [])
            (with_salt []).
Proof.
  apply (X5_buffer_or_base64_secret test_keys [] (js "1")
           (map Z.of_nat (seq 100 32)) (with_salt [])).
  apply bytes_check_ok. reflexivity.
Defined.

(** X6. The current key, ties included: on a constructed keyring
    [currentId()] returns the greatest id, and the key [encrypt] uses is the
    last key in property order that has it: every key before it has an id
    at most as great, every key after it a smaller one. *)
Theorem X6_current_key_is_last_maximum
        (raw : keymap) (opts : Options) (k : Keyring) :
  keyring raw opts = Ok k ->
  exists l1 key l2 N,
    keys k = l1 ++ key :: l2
    /\ currentKey (keys k) = Ok key
    /\ Keyring_currentId k = Ok (Some N)
    /\ id key = Some N
    /\ (forall k' z, In k' l1 -> id k' = Some z -> z <= N)
    /\ (forall k' z, In k' l2 -> id k' = Some z -> z < N).
Proof.
  intro Hk.
  destruct (keyring_inv raw opts k Hk) as (_ & _ & _ & _ & _ & _ & _ & _ & Hne & Hid).
  destruct (keys k) as [|k0 rest] eqn:Ek; [contradiction|].
  destruct (fold_current_last rest k0 Hid)
    as (l1 & key & l2 & N & E & Ef & HN & Hl1 & Hl2).
  exists l1, key, l2, N. unfold Keyring_currentId. rewrite Ek.
  cbn [currentKey]. rewrite Ef. cbn [rbind]. rewrite HN. auto 10.
Qed.

Lemma X6_witness :
  exists l1 key l2 N,
    keys rotated_keyring = l1 ++ key :: l2
    /\ currentKey (keys rotated_keyring) = Ok key
    /\ Keyring_currentId rotated_keyring = Ok (Some N)
    /\ id key = Some N
    /\ (forall k' z, In k' l1 -> id k' = Some z -> z <= N)
    /\ (forall k' z, In k' l2 -> id k' = Some z -> z < N).
Proof.
  apply (X6_current_key_is_last_maximum
           (test_keys ++ [(js "1", rotation_secret)]) (with_salt [])
           rotated_keyring).
  vm_compute. reflexivity.
Defined.

(** X7. Values that are not strings: on a constructed keyring [digest]
    fails with the error of [sha1] for every value that is not a string,
    and [encrypt] returns nothing for it: [Buffer.from] throws a TypeError
    for [undefined] and for a number, and for a buffer the encryption is
    carried out and [sha1] then throws. *)
Theorem X7_non_string_rejected
        (raw : keymap) (opts : Options) (k : Keyring) (iv : list Z) (v : jsval) :
  keymap_ok raw -> keyring raw opts = Ok k -> length iv = 16%nat ->
  isString v = false ->
  Keyring_digest k v = Err NonStringDigestInput
  /\ Keyring_encrypt k iv v
     = Err match v with
           | VBuffer _ => NonStringDigestInput
           | _ => TypeError
           end.
Proof.
  intros Hm Hk Hi Hv.
  destruct (keyring_current raw opts k Hm Hk)
    as (alg & s & n & key & N & Ho & _ & Hn & _ & _ & Hc & _ & _ & Hkey & _).
  unfold Keyring_digest, Keyring_encrypt, encrypt, sha1. rewrite Ho, Hc.
  cbn [salt encryption rbind].
  rewrite (createCipheriv_ok alg n key iv Hn Hkey Hi). cbn [rbind].
  destruct v; try discriminate Hv; cbn [isString negb Buffer_from rbind];
    split; reflexivity.
Qed.

Lemma X7_witness :
  Keyring_digest test_keyring (VNumber 1234) = Err NonStringDigestInput
  /\ Keyring_encrypt test_keyring test_iv (VNumber 1234) = Err TypeError.
Proof.
  apply (X7_non_string_rejected test_keys (with_salt []) test_keyring test_iv
           (VNumber 1234)).
  - exact test_keys_ok.
  - exact test_keyring_eq.
  - reflexivity.
  - reflexivity.
Defined.

(** X8. Size of an envelope: when the message has [n] bytes in UTF-8 (at
    most three per code unit), the envelope [encrypt] returns decodes to
    [48 + 16 * (n / 16 + 1)] bytes (tag, vector and the padded ciphertext),
    is four characters for every three of these bytes, rounded up, and is
    made of letters, digits, [+], [/] and [=] only. *)
Theorem X8_envelope_size
        (raw : keymap) (opts : Options) (k : Keyring) (iv p : list Z)
        (envelope : list Z) (keyId : option Z) (digest : list Z) :
  keymap_ok raw -> keyring raw opts = Ok k -> is_block iv -> jsstring_ok p ->
  Keyring_encrypt k iv (VString p) = Ok (envelope, keyId, digest) ->
  let n := length (Utf8.encode p) in
  let m := (48 + 16 * (n / 16 + 1))%nat in
  (n <= 3 * length p)%nat
  /\ length (Base64.decode envelope) = m
  /\ length envelope = (4 * ((m + 2) / 3))%nat
  /\ forallb base64_output_char envelope = true.
Proof.
  intros Hm Hk Hi Hp He.
  destruct (keyring_current raw opts k Hm Hk)
    as (alg & s & n & key & N & Ho & _ & Hn & _ & _ & Hc & _ & _ & Hkey & _).
  unfold Keyring_encrypt in He. rewrite Ho in He.
  rewrite (encrypt_eq (keys k) alg s n key iv p Hc Hn Hkey (proj1 Hi)) in He.
  destruct (ciphertext_ok alg n key iv p Hn Hkey Hi Hp) as [Hct _].
  assert (Hl : length (ciphertext_of alg key iv p)
               = (16 * (length (Utf8.encode p) / 16 + 1))%nat).
  { unfold ciphertext_of. apply cipher_run_length.
    - apply (cipher_of_key_ok alg n key iv Hn Hkey Hi).
    - apply utf8_encode_bytes_ok, Hp. }
  set (ct := ciphertext_of alg key iv p) in *.
  set (tag := tag_of key iv ct) in *.
  assert (Ht : length tag = 32%nat) by apply hmacDigest_length.
  assert (Hb : bytes_ok (tag ++ iv ++ ct)).
  { repeat (apply bytes_ok_app; split);
      [apply hmacDigest_ok | apply Hi | exact Hct]. }
  assert (Hlen : length (tag ++ iv ++ ct)
                 = (48 + 16 * (length (Utf8.encode p) / 16 + 1))%nat).
  { rewrite !length_app, Ht, (proj1 Hi), Hl. lia. }
  injection He as <- _ _. cbn zeta.
  split; [apply utf8_encode_length|].
  split; [rewrite (base64_decode_encode _ Hb); exact Hlen|].
  split; [rewrite base64_encode_length, Hlen; reflexivity|].
  apply base64_encode_output, Hb.
Qed.

Lemma X8_witness :
  let n := length (Utf8.encode (js "42")) in
  let m := (48 + 16 * (n / 16 + 1))%nat in
  (n <= 3 * length (js "42"))%nat
  /\ length (Base64.decode test_envelope) = m
  /\ length test_envelope = (4 * ((m + 2) / 3))%nat
  /\ forallb base64_output_char test_envelope = true.
Proof.
  apply (X8_envelope_size test_keys (with_salt []) test_keyring test_iv (js "42")
           test_envelope (Some 0) test_digest).
  - exact test_keys_ok.
  - exact test_keyring_eq.
  - exact test_iv_block.
  - exact test_plaintext_ok.
  - exact test_encrypt_eq.
Defined.




(** X10. An envelope fixes the vector and the bytes that were encrypted:
    when two calls of [encrypt] on the same keyring return the same
    envelope, they drew the same vector and their messages have the same
    UTF-8 bytes (so the messages are equal when they have no unpaired
    surrogate).  Two calls that draw different vectors never return the
    same envelope. *)
Theorem X10_envelope_fixes_vector_and_message
        (raw : keymap) (opts : Options) (k : Keyring) (iv iv' p p' : list Z)
        (envelope : list Z) (keyId keyId' : option Z) (digest digest' : list Z) :
  keymap_ok raw -> keyring raw opts = Ok k ->
  is_block iv -> is_block iv' -> jsstring_ok p -> jsstring_ok p' ->
  Keyring_encrypt k iv (VString p) = Ok (envelope, keyId, digest) ->
  Keyring_encrypt k iv' (VString p') = Ok (envelope, keyId', digest') ->
  iv = iv'
  /\ Utf8.encode p = Utf8.encode p'
  /\ (well_formed p = true -> well_formed p' = true -> p = p').
Proof.
  intros Hm Hk Hi Hi' Hp Hp' He He'.
  destruct (keyring_current raw opts k Hm Hk)
    as (alg & s & n & key & N & Ho & _ & Hn & _ & _ & Hc & _ & _ & Hkey & _).
  unfold Keyring_encrypt in He, He'. rewrite Ho in He, He'.
  rewrite (encrypt_eq (keys k) alg s n key iv p Hc Hn Hkey (proj1 Hi)) in He.
  rewrite (encrypt_eq (keys k) alg s n key iv' p' Hc Hn Hkey (proj1 Hi')) in He'.
  destruct (ciphertext_ok alg n key iv p Hn Hkey Hi Hp) as [Hct _].
  destruct (ciphertext_ok alg n key iv' p' Hn Hkey Hi' Hp') as [Hct' _].
  injection He as He _ _. injection He' as He' _ _. rewrite <- He' in He.
  apply (f_equal Base64.decode) in He.
  rewrite !base64_decode_encode in He
    by (repeat (apply bytes_ok_app; split);
        first [apply hmacDigest_ok | apply Hi | apply Hi' | assumption]).
  destruct (envelope_split (tag_of key iv (ciphertext_of alg key iv p)) iv
              (ciphertext_of alg key iv p)
              (hmacDigest_length _ _) (proj1 Hi)) as (_ & E2 & E3).
  destruct (envelope_split (tag_of key iv' (ciphertext_of alg key iv' p')) iv'
              (ciphertext_of alg key iv' p')
              (hmacDigest_length _ _) (proj1 Hi')) as (_ & E2' & E3').
  rewrite He in E2, E3. rewrite E2' in E2. rewrite E3' in E3.
  subst iv'. split; [reflexivity|].
  assert (Eb : Utf8.encode p = Utf8.encode p').
  { unfold ciphertext_of in E3.
    pose proof (cipher_of_key_ok alg n key iv Hn Hkey Hi) as Hok.
    pose proof (decipher_run_cipher_run _ (Utf8.encode p) Hok
                  (utf8_encode_bytes_ok p Hp)) as D.
    pose proof (decipher_run_cipher_run _ (Utf8.encode p') Hok
                  (utf8_encode_bytes_ok p' Hp')) as D'.
    rewrite E3 in D'. rewrite D in D'. injection D' as D'. exact D'. }
  split; [exact Eb|].
  intros Hw Hw'.
  rewrite <- (utf8_decode_encode p Hp Hw), <- (utf8_decode_encode p' Hp' Hw').
  rewrite Eb. reflexivity.
Qed.

Lemma X10_witness :
  test_iv = test_iv
  /\ Utf8.encode (js "42") = Utf8.encode (js "42")
  /\ (well_formed (js "42") = true -> well_formed (js "42") = true ->
      js "42" = js "42").
Proof.
  apply (X10_envelope_fixes_vector_and_message
           test_keys (with_salt []) test_keyring test_iv test_iv (js "42") (js "42")
           test_envelope (Some 0) (Some 0) test_digest test_digest).
  - exact test_keys_ok.
  - exact test_keyring_eq.
  - exact test_iv_block.
  - exact test_iv_block.
  - exact test_plaintext_ok.
  - exact test_plaintext_ok.
  - exact test_encrypt_eq.
  - exact test_encrypt_eq.
Defined.

(** X11. Tampering with the vector, for every envelope [encrypt] produces
    on a keyring whose ids are pairwise distinct safe integers: inverting a
    single bit of bytes [32:48) of the decoded envelope makes [decrypt]
    fail, and no plaintext is returned, provided HMAC-SHA256 under the
    signing key does not collide on the original and the altered bytes
    [32:).  When the message has at least 16 bytes in UTF-8 the padding is
    out of reach of the vector, the cipher succeeds and the failure is
    IntegrityError; for a shorter message it is IntegrityError or the
    cipher's bad-padding error. *)
Theorem X11_vector_tamper
        (raw : keymap) (opts : Options) (k : Keyring) (key : Key)
        (iv p : list Z) (envelope : list Z) (keyId : Z) (digest : list Z)
        (i : nat) (bit : Z) :
  keymap_ok raw -> keyring raw opts = Ok k ->
  NoDup (map id (keys k)) -> safe_ids (keys k) ->
  is_block iv -> jsstring_ok p ->
  Keyring_encrypt k iv (VString p) = Ok (envelope, Some keyId, digest) ->
  currentKey (keys k) = Ok key ->
  0 <= bit < 8 -> (32 <= i < 48)%nat ->
  let decoded := Base64.decode envelope in
  let altered := flip_bit decoded i bit in
  let result :=
    outcome (Keyring_decrypt k (Base64.encode altered) (VNumber keyId)) in
  ~ hmac_collision (signingKey key) (subarray_from decoded 32)
                   (subarray_from altered 32) ->
  (result = Err (DecryptionError BadDecrypt) \/ result = Err IntegrityError)
  /\ ((16 <= length (Utf8.encode p))%nat -> result = Err IntegrityError).
Proof.
  intros Hm Hk Hnd _ Hi Hp He Hcur Hbit Hrange.
  destruct (keyring_current raw opts k Hm Hk)
    as (alg & s & n & key0 & N & Ho & _ & Hn & _ & _ & Hc & Hin & HN & Hkey & _).
  assert (key0 = key) as -> by congruence.
  unfold Keyring_encrypt in He. rewrite Ho in He.
  rewrite (encrypt_eq (keys k) alg s n key iv p Hc Hn Hkey (proj1 Hi)) in He.
  destruct (ciphertext_ok alg n key iv p Hn Hkey Hi Hp) as [Hct [m Hlen]].
  pose proof (cipher_of_key_ok alg n key iv Hn Hkey Hi) as Hcok.
  pose proof (utf8_encode_bytes_ok p Hp) as Hdata.
  pose proof (fun iv' a' =>
                decipher_run_last_two _ (Utf8.encode p) iv' a' Hcok Hdata)
    as Hlast.
  pose proof (cipher_run_length _ (Utf8.encode p) Hcok Hdata) as Hsize.
  cbn zeta in Hlast. cbn [Aes.round_keys] in Hlast.
  change (Aes.cipher_run _ (Utf8.encode p))
    with (ciphertext_of alg key iv p) in Hlast, Hsize.
  set (ct := ciphertext_of alg key iv p) in *.
  set (tag := tag_of key iv ct) in *.
  assert (Ht : length tag = 32%nat) by apply hmacDigest_length.
  assert (Htb : bytes_ok tag) by apply hmacDigest_ok.
  assert (Hb : bytes_ok (tag ++ iv ++ ct)).
  { repeat (apply bytes_ok_app; split); [exact Htb | apply Hi | exact Hct]. }
  injection He as <- HN' <-. rewrite HN in HN'. injection HN' as ->.
  cbn zeta. rewrite (base64_decode_encode _ Hb).
  rewrite (Keyring_decrypt_found k key _ _ (findKey_number _ key keyId Hnd Hin HN)).
  rewrite Ho. pose proof (proj1 Hi) as Hil.
  set (iv' := flip_bit iv (i - 32) bit).
  assert (Ealt : flip_bit (tag ++ iv ++ ct) i bit = tag ++ iv' ++ ct).
  { rewrite flip_bit_app_r by lia. rewrite flip_bit_app_l by lia.
    rewrite Ht. reflexivity. }
  rewrite Ealt. intro Hnc.
  assert (Hi32 : (i - 32 < length iv)%nat) by lia.
  assert (Hl' : length iv' = 16%nat).
  { subst iv'. rewrite flip_bit_length; lia. }
  assert (Hb' : bytes_ok (tag ++ iv' ++ ct)).
  { apply bytes_ok_app. split; [exact Htb|].
    apply bytes_ok_app. split; [|exact Hct].
    apply flip_bit_ok; [assumption | apply Hi]. }
  assert (Hv : verifySignature (tag_of key iv' ct) tag = false).
  { apply verifySignature_neq. intro E. apply Hnc.
    unfold subarray_from. rewrite !(skipn_app_exact tag _ 32 Ht).
    split; [|symmetry; exact E].
    intro E'. apply app_inv_tail in E'.
    apply (flip_bit_neq iv (i - 32) bit Hbit Hi32). symmetry. exact E'. }
  rewrite (decrypt_bytes alg (Some s) n key tag iv' ct Hn Hkey Ht Hl' Hb').
  rewrite Hv. split.
  - destruct (decipher_run_outcomes
                {| Aes.round_keys := Aes.key_schedule (encryptionKey key);
                   Aes.init_vector := iv' |} ct m Hlen) as [[d Hd] | Hd];
      rewrite Hd; cbn [outcome snd]; auto.
  - intro Hlong.
    assert (H32 : (32 <= length ct)%nat).
    { rewrite Hsize.
      pose proof (Nat.div_mod_eq (length (Utf8.encode p)) 16).
      pose proof (Nat.mod_upper_bound (length (Utf8.encode p)) 16 (ltac:(lia))).
      lia. }
    destruct (Hlast iv' (firstn (length ct - 32) ct) H32) as [d Hd].
    + rewrite length_firstn. lia.
    + rewrite firstn_skipn in Hd. rewrite Hd. reflexivity.
Qed.

Lemma X11_witness :
  let decoded := Base64.decode long_envelope in
  let result :=
    outcome (Keyring_decrypt test_keyring
                             (Base64.encode (flip_bit decoded 40 7))
                             (VNumber 0)) in
  result = Err IntegrityError.
Proof.
  destruct (X11_vector_tamper
              test_keys (with_salt []) test_keyring test_key test_iv
              long_message long_envelope 0 long_digest 40 7
              test_keys_ok test_keyring_eq test_keyring_ids test_keyring_safe
              test_iv_block long_message_ok long_encrypt_eq test_key_current
              (ltac:(lia) : 0 <= 7 < 8) (ltac:(lia) : (32 <= 40 < 48)%nat))
    as [_ H].
  - apply no_collision_check. vm_compute. reflexivity.
  - apply H. vm_compute. lia.
Defined.

(** X12. [resolveDigestSuffix(prop, suffix)] returns [suffix] when it is
    truthy.  Otherwise it returns ["Digest"] exactly when some lower-case
    letter or digit of [prop] is directly followed by an upper-case letter
    (this is all the pattern [/[a-z0-9]+[A-Z]/] asks for), and ["_digest"]
    when there is no such place. *)
Theorem X12_resolveDigestSuffix_cases (prop : list Z) (suffix : jsval) :
  (truthy suffix = true -> resolveDigestSuffix prop suffix = suffix)
  /\ (truthy suffix = false ->
      ((exists a u v b,
           prop = a ++ u :: v :: b
           /\ is_lower_or_digit u = true /\ is_upper v = true)
       <-> resolveDigestSuffix prop suffix = VString (js "Digest"))
      /\ ((~ exists a u v b,
              prop = a ++ u :: v :: b
              /\ is_lower_or_digit u = true /\ is_upper v = true)
          <-> resolveDigestSuffix prop suffix = VString (js "_digest"))).
Proof.
  unfold resolveDigestSuffix. split; intro Ht; rewrite Ht; [reflexivity|].
  rewrite <- camelCase_matches.
  destruct (RegExp.matches camelCase prop); split; split;
    try reflexivity; try discriminate; try congruence.
Qed.

Example resolveDigestSuffix_examples :
  resolveDigestSuffix (js "emailAddress") VUndefined = VString (js "Digest")
  /\ resolveDigestSuffix (js "email_address") VUndefined = VString (js "_digest")
  /\ resolveDigestSuffix (js "EMAIL") (VString []) = VString (js "_digest")
  /\ resolveDigestSuffix (js "emailAddress") (VString (js "_hash"))
     = VString (js "_hash").
Proof. repeat split. Qed.

(** X13. The salt only enters the digest.  Two keyrings made from the same
    key map and the same algorithm with different salts hold the same keys;
    for the same vector and message [encrypt] returns the same envelope and
    the same key id on both (or throws the same error), and [decrypt]
    behaves alike on both for every envelope and key id: changing the salt
    does not invalidate what was encrypted. *)
Theorem X13_salt_only_affects_digest
        (raw : keymap) (opts opts' : Options) (k k' : Keyring) :
  encryption opts' = encryption opts ->
  keyring raw opts = Ok k -> keyring raw opts' = Ok k' ->
  keys k' = keys k
  /\ (forall iv p,
         match Keyring_encrypt k iv (VString p),
               Keyring_encrypt k' iv (VString p) with
         | Ok (envelope, keyId, _), Ok (envelope', keyId', _) =>
             envelope' = envelope /\ keyId' = keyId
         | Err e, Err e' => e' = e
         | _, _ => False
         end)
  /\ (forall envelope keyringId,
         Keyring_decrypt k' envelope keyringId
         = Keyring_decrypt k envelope keyringId).
Proof.
  intros He Hk Hk'.
  destruct (keyring_inv raw opts k Hk)
    as (alg & s & n & Ho & _ & Ha & Hn & Hnk & _ & _).
  destruct (keyring_inv raw opts' k' Hk')
    as (alg' & s' & n' & Ho' & _ & Ha' & Hn' & Hnk' & _ & _).
  assert (alg' = alg) as ->.
  { destruct Ha as [Ha | [Ha ->]], Ha' as [Ha' | [Ha' ->]]; congruence. }
  assert (n' = n) as -> by congruence.
  assert (Ek : keys k' = keys k) by congruence.
  split; [exact Ek|]. split.
  - intros iv p. unfold Keyring_encrypt, encrypt. rewrite Ho, Ho', Ek.
    cbn [encryption salt].
    destruct (currentKey (keys k)) as [key|e]; cbn [rbind]; [|reflexivity].
    destruct (Aes.createCipheriv alg (encryptionKey key) iv) as [c|e];
      cbn [rbind Buffer_from sha1 isString negb]; [|reflexivity].
    auto.
  - intros envelope keyringId. unfold Keyring_decrypt. rewrite Ek.
    destruct (findKey (keys k) keyringId) as [key|e]; cbn [lift bind];
      [|reflexivity].
    rewrite Ho, Ho'. reflexivity.
Qed.

Lemma X13_witness :
  keys {| keys := keys test_keyring;
          options := {| encryption := Some (js "aes-128-cbc");
                        salt := Some (js "a") |} |}
  = keys test_keyring
  /\ (forall iv p,
         match Keyring_encrypt test_keyring iv (VString p),
               Keyring_encrypt
                 {| keys := keys test_keyring;
                    options := {| encryption := Some (js "aes-128-cbc");
                                  salt := Some (js "a") |} |}
                 iv (VString p) with
         | Ok (envelope, keyId, _), Ok (envelope', keyId', _) =>
             envelope' = envelope /\ keyId' = keyId
         | Err e, Err e' => e' = e
         | _, _ => False
         end)
  /\ (forall envelope keyringId,
         Keyring_decrypt
           {| keys := keys test_keyring;
              options := {| encryption := Some (js "aes-128-cbc");
                            salt := Some (js "a") |} |}
           envelope keyringId
         = Keyring_decrypt test_keyring envelope keyringId).
Proof.
  apply (X13_salt_only_affects_digest test_keys (with_salt []) (with_salt (js "a"))).
  - reflexivity.
  - exact test_keyring_eq.
  - reflexivity.
Defined.

(** The first script of the examples gives the key ["batataAssadaCom3Sal"],
    which decodes to 14 bytes: the constructor throws. *)
Example example_script_short_key :
  keyring [(js "1", VString (js "batataAssadaCom3Sal"))]
          (with_salt (js "salt-n-pepper"))
  = Err (KeyLengthMismatch 32 14).
Proof. reflexivity. Qed.

(** ** The adapter: properties of a record *)

Lemma string_eqb_refl (a : list Z) : string_eqb a a = true.
Proof. apply string_eqb_eq. reflexivity. Qed.

Lemma string_eqb_neq (a b : list Z) : a <> b -> string_eqb a b = false.
Proof.
  intro H. destruct (string_eqb a b) eqn:E; [|reflexivity].
  apply string_eqb_eq in E. contradiction.
Qed.

Lemma get_set (o : Sequelize.object) (x y : list Z) (v : Sequelize.value) :
  Sequelize.get (Sequelize.set o x v) y
  = if string_eqb x y then v else Sequelize.get o y.
Proof.
  induction o as [|[n a] rest IH]; cbn [Sequelize.set Sequelize.get].
  - reflexivity.
  - destruct (string_eqb n x) eqn:E.
    + apply string_eqb_eq in E. subst n. cbn [Sequelize.get].
      destruct (string_eqb x y); reflexivity.
    + cbn [Sequelize.get]. rewrite IH.
      destruct (string_eqb n y) eqn:E2; [|reflexivity].
      apply string_eqb_eq in E2. subst n.
      destruct (string_eqb x y) eqn:E3; [|reflexivity].
      apply string_eqb_eq in E3. subst y.
      rewrite string_eqb_refl in E. discriminate E.
Qed.

Lemma get_set_same (o : Sequelize.object) (x : list Z) (v : Sequelize.value) :
  Sequelize.get (Sequelize.set o x v) x = v.
Proof. rewrite get_set, string_eqb_refl. reflexivity. Qed.

Lemma get_set_other (o : Sequelize.object) (x y : list Z) (v : Sequelize.value) :
  x <> y -> Sequelize.get (Sequelize.set o x v) y = Sequelize.get o y.
Proof. intro H. rewrite get_set, (string_eqb_neq x y H). reflexivity. Qed.

Lemma includes_In (l : list (list Z)) (x : list Z) :
  Sequelize.includes l x = true <-> In x l.
Proof.
  unfold Sequelize.includes. rewrite existsb_exists. split.
  - intros (y & Hin & E). apply string_eqb_eq in E. subst y. exact Hin.
  - intro Hin. exists x. split; [exact Hin | apply string_eqb_refl].
Qed.

Lemma encrypted_inj (c c' : list Z) :
  Sequelize.encrypted_ c = Sequelize.encrypted_ c' -> c = c'.
Proof. unfold Sequelize.encrypted_. apply app_inv_head. Qed.

Lemma digest_inj (c c' : list Z) :
  Sequelize._digest c = Sequelize._digest c' -> c = c'.
Proof. unfold Sequelize._digest. apply app_inv_tail. Qed.

Lemma negb_string_eqb (a b : list Z) : negb (string_eqb a b) = true -> a <> b.
Proof.
  intros H E. subst b. rewrite string_eqb_refl in H. discriminate H.
Qed.

Lemma names_apart_check_ok (columns : list (list Z)) (idColumn : list Z) :
  names_apart_check columns idColumn = true -> names_apart columns idColumn.
Proof.
  unfold names_apart_check, names_apart. intros H c c' Hc Hc'.
  rewrite forallb_forall in H. specialize (H c Hc).
  rewrite forallb_forall in H. specialize (H c' Hc').
  repeat (apply andb_true_iff in H; destruct H as [H ?]).
  repeat split; apply negb_string_eqb; assumption.
Qed.

Lemma plain_name_check_ok (name : list Z) :
  plain_name_check name = true -> plain_name name.
Proof.
  unfold plain_name_check, plain_name. intros H Hin.
  apply negb_true_iff in H.
  assert (E : existsb (string_eqb name) structural_names = true).
  { apply existsb_exists. exists name. split; [exact Hin|].
    apply string_eqb_refl. }
  rewrite E in H. discriminate H.
Qed.

Lemma names_plain_check_ok (columns : list (list Z)) (idColumn : list Z) :
  names_plain_check columns idColumn = true -> names_plain columns idColumn.
Proof.
  unfold names_plain_check, names_plain. intro H.
  apply andb_true_iff in H. destruct H as [H1 H2]. split.
  - apply plain_name_check_ok, H1.
  - intros c Hc. rewrite forallb_forall in H2. specialize (H2 c Hc).
    repeat (apply andb_true_iff in H2; destruct H2 as [H2 ?]).
    repeat split; apply plain_name_check_ok; assumption.
Qed.

(** ** The adapter: [beforeSave] *)

Lemma column_saved_get (attrs : list (list Z)) (idc c x : list Z)
      (enc kid dig : Sequelize.value) (o : Sequelize.object) :
  Sequelize.get (column_saved attrs idc c enc kid dig o) x
  = if Sequelize.includes attrs (Sequelize._digest c)
       && string_eqb (Sequelize._digest c) x then dig
    else if string_eqb idc x then kid
    else if string_eqb (Sequelize.encrypted_ c) x then enc
    else Sequelize.get o x.
Proof.
  unfold column_saved.
  destruct (Sequelize.includes attrs _); cbn [andb]; rewrite ?get_set;
    reflexivity.
Qed.

Lemma id_or_current (N : Z) :
  id_or (Sequelize.Num (Some N)) N = Sequelize.Num (Some N).
Proof. unfold id_or. destruct (Sequelize.ToBoolean _); reflexivity. Qed.

Lemma id_or_idem (v : Sequelize.value) (N : Z) :
  id_or (id_or v N) N = id_or v N.
Proof.
  unfold id_or at 2 3. destruct (Sequelize.ToBoolean v) eqn:E.
  - unfold id_or. rewrite E. reflexivity.
  - apply id_or_current.
Qed.

Ltac hook_unfold :=
  unfold Sequelize.and_then, Sequelize.read, Sequelize.write, Sequelize.pure,
    Sequelize.of_result, Sequelize.record_attributes, Sequelize.draw,
    Sequelize.keyring_options.

Section BeforeSave.

Variable randomBytes : nat -> list Z.
Variable o : Sequelize.KeyringOptions.
Variable k : Keyring.
Variable N : Z.
Hypothesis Hcur : Keyring_currentId k = Ok (Some N).
Hypothesis Henc :
  forall iv p,
    is_block iv ->
    exists envelope digest,
      Keyring_encrypt k iv (VString p) = Ok (envelope, Some N, digest)
      /\ sha1 (VString p) (Sequelize.keyring_salt o) = Ok digest.
Hypothesis Hrng : forall n, is_block (randomBytes n).

Lemma beforeSave_column_run (c : list Z) (s : Sequelize.state) :
  exists enc kid dig d,
    Sequelize.beforeSave_column randomBytes o k c s
    = ({| Sequelize.draws := d;
          Sequelize.this :=
            Sequelize.with_properties
              (Sequelize.this s)
              (column_saved (Sequelize.attribute_names (Sequelize.this s))
                            (Sequelize.keyringIdColumn o) c enc kid dig
                            (Sequelize.properties (Sequelize.this s))) |},
       Ok tt)
    /\ match Sequelize.property (Sequelize.this s) c with
       | Sequelize.Str p =>
           exists i envelope digest,
             Keyring_encrypt k (randomBytes i) (VString p)
             = Ok (envelope, Some N, digest)
             /\ sha1 (VString p) (Sequelize.keyring_salt o) = Ok digest
             /\ enc = Sequelize.Str envelope
             /\ kid = Sequelize.Num (Some N)
             /\ dig = Sequelize.Str digest
       | _ =>
           enc = Sequelize.Null
           /\ kid = id_or (Sequelize.property (Sequelize.this s)
                                              (Sequelize.keyringIdColumn o)) N
           /\ dig = Sequelize.Null
       end.
Proof.
  unfold Sequelize.beforeSave_column. hook_unfold. rewrite Hcur.
  destruct (Sequelize.property (Sequelize.this s) c) as [| |n|p] eqn:Ev.
  4: {
    destruct (Henc (randomBytes (Sequelize.draws s)) p (Hrng _))
      as (envelope & digest & He & Hd).
    exists (Sequelize.Str envelope), (Sequelize.Num (Some N)),
      (Sequelize.Str digest), (S (Sequelize.draws s)).
    split; [|exists (Sequelize.draws s), envelope, digest; auto].
    destruct (Sequelize.ToBoolean _); cbn; rewrite He; cbn;
      unfold column_saved;
      destruct (Sequelize.includes _ _); reflexivity. }
  all: exists Sequelize.Null,
         (id_or (Sequelize.property (Sequelize.this s)
                                    (Sequelize.keyringIdColumn o)) N),
         Sequelize.Null, (Sequelize.draws s);
    (split; [|auto]);
    unfold id_or, column_saved;
    destruct (Sequelize.ToBoolean _); cbn;
    destruct (Sequelize.includes _ _); reflexivity.
Qed.

End BeforeSave.

Section BeforeSaveLoop.

Variable randomBytes : nat -> list Z.
Variable o : Sequelize.KeyringOptions.
Variable k : Keyring.
Variable N : Z.
Hypothesis Hcur : Keyring_currentId k = Ok (Some N).
Hypothesis Henc :
  forall iv p,
    is_block iv ->
    exists envelope digest,
      Keyring_encrypt k iv (VString p) = Ok (envelope, Some N, digest)
      /\ sha1 (VString p) (Sequelize.keyring_salt o) = Ok digest.
Hypothesis Hrng : forall n, is_block (randomBytes n).

Local Abbreviation idc := (Sequelize.keyringIdColumn o).
Local Abbreviation prop s x := (Sequelize.property (Sequelize.this s) x).

(** The state after the rounds of [beforeSave] for the columns [cols]. *)
Lemma beforeSave_loop (cols : list (list Z)) :
  forall s,
    names_apart cols idc ->
    exists s',
      Sequelize.forEach cols (Sequelize.beforeSave_column randomBytes o k) s
      = (s', Ok tt)
      /\ Sequelize._modelOptions (Sequelize.this s')
         = Sequelize._modelOptions (Sequelize.this s)
      /\ Sequelize.constructor' (Sequelize.this s')
         = Sequelize.constructor' (Sequelize.this s)
      /\ Sequelize.attributes (Sequelize.this s')
         = Sequelize.attributes (Sequelize.this s)
      /\ (forall x,
            (forall c, In c cols ->
                       x <> Sequelize.encrypted_ c /\ x <> Sequelize._digest c) ->
            x <> idc -> prop s' x = prop s x)
      /\ (forall c,
            In c cols ->
            ~ In (Sequelize._digest c)
                 (Sequelize.attribute_names (Sequelize.this s)) ->
            prop s' (Sequelize._digest c) = prop s (Sequelize._digest c))
      /\ (forall c,
            In c cols ->
            match prop s c with
            | Sequelize.Str p =>
                exists i envelope digest,
                  Keyring_encrypt k (randomBytes i) (VString p)
                  = Ok (envelope, Some N, digest)
                  /\ sha1 (VString p) (Sequelize.keyring_salt o) = Ok digest
                  /\ prop s' (Sequelize.encrypted_ c) = Sequelize.Str envelope
                  /\ (In (Sequelize._digest c)
                         (Sequelize.attribute_names (Sequelize.this s)) ->
                      prop s' (Sequelize._digest c) = Sequelize.Str digest)
            | _ =>
                prop s' (Sequelize.encrypted_ c) = Sequelize.Null
                /\ (In (Sequelize._digest c)
                       (Sequelize.attribute_names (Sequelize.this s)) ->
                    prop s' (Sequelize._digest c) = Sequelize.Null)
            end)
      /\ ((exists c, In c cols /\ Sequelize.isString (prop s c) = true) ->
          prop s' idc = Sequelize.Num (Some N))
      /\ (cols <> [] ->
          (forall c, In c cols -> Sequelize.isString (prop s c) = false) ->
          prop s' idc = id_or (prop s idc) N).
Proof.
  induction cols as [|c rest IH]; intros s Hna.
  - exists s. cbn [Sequelize.forEach]. unfold Sequelize.pure.
    split; [reflexivity|]. split; [reflexivity|]. split; [reflexivity|].
    split; [reflexivity|]. split; [reflexivity|].
    split; [intros c []|]. split; [intros c []|].
    split; [intros (c & [] & _)|].
    intro H. contradiction H. reflexivity.
  - assert (Hna' : names_apart rest idc).
    { intros a b Ha Hb. apply Hna; right; assumption. }
    destruct (beforeSave_column_run randomBytes o k N Hcur Henc Hrng c s)
      as (enc & kid & dig & d & Hrun & Hval).
    set (s1 := {| Sequelize.draws := d;
                  Sequelize.this :=
                    Sequelize.with_properties
                      (Sequelize.this s)
                      (column_saved (Sequelize.attribute_names (Sequelize.this s))
                                    idc c enc kid dig
                                    (Sequelize.properties (Sequelize.this s))) |})
      in *.
    destruct (IH s1 Hna')
      as (s' & Hloop & F1 & F2 & F3 & Hframe & Hdig & Hcol & Hid1 & Hid2).
    assert (Hattr : Sequelize.attribute_names (Sequelize.this s1)
                    = Sequelize.attribute_names (Sequelize.this s))
      by reflexivity.
    rewrite Hattr in *.
    (* what the round of [c] leaves *)
    assert (G : forall x,
               prop s1 x
               = if Sequelize.includes (Sequelize.attribute_names (Sequelize.this s))
                                       (Sequelize._digest c)
                    && string_eqb (Sequelize._digest c) x then dig
                 else if string_eqb idc x then kid
                 else if string_eqb (Sequelize.encrypted_ c) x then enc
                 else prop s x).
    { intro x. unfold Sequelize.property. cbn [s1 Sequelize.this
        Sequelize.with_properties Sequelize.properties].
      apply column_saved_get. }
    assert (Gframe : forall x,
               x <> Sequelize.encrypted_ c -> x <> Sequelize._digest c ->
               x <> idc -> prop s1 x = prop s x).
    { intros x H1 H2 H3. rewrite G.
      rewrite (string_eqb_neq (Sequelize._digest c) x) by congruence.
      rewrite andb_false_r.
      rewrite (string_eqb_neq idc x) by congruence.
      rewrite (string_eqb_neq (Sequelize.encrypted_ c) x) by congruence.
      reflexivity. }
    assert (Gcol : forall c', In c' (c :: rest) -> prop s1 c' = prop s c').
    { intros c' Hc'. destruct (Hna c c' (or_introl eq_refl) Hc')
        as (H1 & H2 & _).
      destruct (Hna c' c' Hc' Hc') as (_ & _ & H3 & _).
      apply Gframe; assumption. }
    assert (Genc : prop s1 (Sequelize.encrypted_ c) = enc).
    { rewrite G.
      destruct (Hna c c (or_introl eq_refl) (or_introl eq_refl))
        as (_ & _ & _ & H4 & _ & H6).
      rewrite (string_eqb_neq (Sequelize._digest c) (Sequelize.encrypted_ c))
        by congruence.
      rewrite andb_false_r.
      rewrite (string_eqb_neq idc (Sequelize.encrypted_ c)) by congruence.
      rewrite string_eqb_refl. reflexivity. }
    assert (Gid : prop s1 idc = kid).
    { rewrite G.
      destruct (Hna c c (or_introl eq_refl) (or_introl eq_refl))
        as (_ & _ & _ & _ & H5 & _).
      rewrite (string_eqb_neq (Sequelize._digest c) idc) by congruence.
      rewrite andb_false_r, string_eqb_refl. reflexivity. }
    assert (Gdig : In (Sequelize._digest c)
                      (Sequelize.attribute_names (Sequelize.this s)) ->
                   prop s1 (Sequelize._digest c) = dig).
    { intro Hin. rewrite G. apply includes_In in Hin. rewrite Hin.
      rewrite string_eqb_refl. reflexivity. }
    assert (Gnodig : ~ In (Sequelize._digest c)
                         (Sequelize.attribute_names (Sequelize.this s)) ->
                     prop s1 (Sequelize._digest c) = prop s (Sequelize._digest c)).
    { intro Hin. rewrite G.
      destruct (Sequelize.includes _ (Sequelize._digest c)) eqn:Ei.
      { apply includes_In in Ei. contradiction. }
      cbn [andb].
      destruct (Hna c c (or_introl eq_refl) (or_introl eq_refl))
        as (_ & _ & _ & _ & H5 & H6).
      rewrite (string_eqb_neq idc (Sequelize._digest c)) by congruence.
      rewrite (string_eqb_neq (Sequelize.encrypted_ c) (Sequelize._digest c))
        by congruence.
      reflexivity. }
    (* what the rounds of [rest] keep of it, when [c] is not among them *)
    assert (Keep : ~ In c rest ->
                   prop s' (Sequelize.encrypted_ c) = prop s1 (Sequelize.encrypted_ c)
                   /\ prop s' (Sequelize._digest c) = prop s1 (Sequelize._digest c)).
    { intro Hnin. split; apply Hframe.
      - intros c' Hc'.
        destruct (Hna c c' (or_introl eq_refl) (or_intror Hc'))
          as (_ & _ & _ & _ & _ & H6).
        split; [|exact H6].
        intro E. apply encrypted_inj in E. subst c'. contradiction.
      - apply (Hna c c (or_introl eq_refl) (or_introl eq_refl)).
      - intros c' Hc'.
        destruct (Hna c' c (or_intror Hc') (or_introl eq_refl))
          as (_ & _ & _ & _ & _ & H6).
        split; [congruence|].
        intro E. apply digest_inj in E. subst c'. contradiction.
      - apply (Hna c c (or_introl eq_refl) (or_introl eq_refl)). }
    exists s'. cbn [Sequelize.forEach]. unfold Sequelize.and_then at 1.
    rewrite Hrun. fold s1. rewrite Hloop.
    split; [reflexivity|].
    split; [rewrite F1; reflexivity|].
    split; [rewrite F2; reflexivity|].
    split; [rewrite F3; reflexivity|].
    split; [|split; [|split; [|split]]].
    + intros x Hx Hxi. rewrite Hframe.
      * apply Gframe; [apply (Hx c); left; reflexivity
                      | apply (Hx c); left; reflexivity | exact Hxi].
      * intros c' Hc'. apply Hx. right. exact Hc'.
      * exact Hxi.
    + intros c0 Hc0 Hnin.
      destruct (in_dec (list_eq_dec Z.eq_dec) c0 rest) as [Hin|Hout].
      * rewrite (Hdig c0 Hin Hnin).
        destruct (list_eq_dec Z.eq_dec c0 c) as [->|Hne]; [apply Gnodig, Hnin|].
        destruct (Hna c0 c Hc0 (or_introl eq_refl)) as (_ & _ & _ & _ & H5 & H6).
        destruct (Hna c c0 (or_introl eq_refl) Hc0) as (_ & _ & _ & _ & _ & H6').
        apply Gframe; [congruence | | exact H5].
        intro E. apply digest_inj in E. contradiction.
      * destruct Hc0 as [<-|Hc0]; [|contradiction].
        rewrite (proj2 (Keep Hout)). apply Gnodig, Hnin.
    + intros c0 Hc0. rewrite <- (Gcol c0 Hc0).
      destruct (in_dec (list_eq_dec Z.eq_dec) c0 rest) as [Hin|Hout].
      * exact (Hcol c0 Hin).
      * destruct Hc0 as [<-|Hc0]; [|contradiction].
        rewrite (Gcol c (or_introl eq_refl)).
        destruct (Keep Hout) as [K1 K2]. rewrite K1, K2, Genc.
        destruct (prop s c) as [| |n|p].
        4: { destruct Hval as (i & envelope & digest & He & Hd & -> & _ & ->).
             exists i, envelope, digest. repeat split; auto. }
        all: destruct Hval as (-> & _ & ->); split; auto.
    + intros (c0 & Hc0 & Hs).
      destruct (existsb (fun c' => Sequelize.isString (prop s c')) rest) eqn:Ex.
      * apply Hid1. apply existsb_exists in Ex. destruct Ex as (c' & Hc' & Hs').
        exists c'. split; [exact Hc'|]. rewrite (Gcol c' (or_intror Hc')).
        exact Hs'.
      * assert (Hnone : forall c', In c' rest ->
                                   Sequelize.isString (prop s1 c') = false).
        { intros c' Hc'. rewrite (Gcol c' (or_intror Hc')).
          destruct (Sequelize.isString (prop s c')) eqn:E; [|reflexivity].
          assert (Ht : existsb (fun c' => Sequelize.isString (prop s c')) rest
                       = true).
          { apply existsb_exists. exists c'. auto. }
          rewrite Ht in Ex. discriminate Ex. }
        assert (Hc : Sequelize.isString (prop s c) = true).
        { destruct Hc0 as [<-|Hc0]; [exact Hs|].
          rewrite <- (Gcol c0 (or_intror Hc0)), (Hnone c0 Hc0) in Hs.
          discriminate Hs. }
        assert (Hkid : kid = Sequelize.Num (Some N)).
        { destruct (prop s c); try discriminate Hc.
          destruct Hval as (_ & _ & _ & _ & _ & _ & Hk & _). exact Hk. }
        destruct rest as [|c1 rest'].
        -- cbn [Sequelize.forEach] in Hloop. unfold Sequelize.pure in Hloop.
           injection Hloop as <-. rewrite Gid. exact Hkid.
        -- rewrite (Hid2 (ltac:(discriminate)) Hnone), Gid, Hkid.
           apply id_or_current.
    + intros _ Hnone.
      assert (Hkid : kid = id_or (prop s idc) N).
      { pose proof (Hnone c (or_introl eq_refl)) as Hc.
        destruct (prop s c); try discriminate Hc; apply Hval. }
      destruct rest as [|c1 rest'].
      * cbn [Sequelize.forEach] in Hloop. unfold Sequelize.pure in Hloop.
        injection Hloop as <-. rewrite Gid. exact Hkid.
      * rewrite Hid2.
        -- rewrite Gid, Hkid. apply id_or_idem.
        -- discriminate.
        -- intros c' Hc'. rewrite (Gcol c' (or_intror Hc')).
           apply Hnone. right. exact Hc'.
Qed.

End BeforeSaveLoop.

(** ** The adapter: [afterFind] *)

Section AfterFindLoop.

Variable o : Sequelize.KeyringOptions.
Variable k : Keyring.
Variable plain : list Z -> Sequelize.value.

Local Abbreviation idc := (Sequelize.keyringIdColumn o).
Local Abbreviation prop s x := (Sequelize.property (Sequelize.this s) x).

(** The state after the rounds of [afterFind] for the columns [cols], when
    every encrypted value that is a string is decrypted by the keyring with
    the key id of the record. *)
Lemma afterFind_loop (cols : list (list Z)) :
  forall s,
    (forall c c', In c cols -> In c' cols ->
                  c' <> idc /\ c' <> Sequelize.encrypted_ c) ->
    (forall c,
        In c cols ->
        match prop s (Sequelize.encrypted_ c) with
        | Sequelize.Str envelope =>
            exists p,
              outcome (Keyring_decrypt
                         k envelope
                         (VString (Sequelize.ToString (prop s idc)))) = Ok p
              /\ plain c = Sequelize.Str p
        | _ => plain c = Sequelize.Null
        end) ->
    exists s',
      Sequelize.forEach cols (Sequelize.afterFind_column o k) s = (s', Ok tt)
      /\ Sequelize._modelOptions (Sequelize.this s')
         = Sequelize._modelOptions (Sequelize.this s)
      /\ Sequelize.constructor' (Sequelize.this s')
         = Sequelize.constructor' (Sequelize.this s)
      /\ Sequelize.attributes (Sequelize.this s')
         = Sequelize.attributes (Sequelize.this s)
      /\ (forall c, In c cols -> prop s' c = plain c)
      /\ (forall x, ~ In x cols -> prop s' x = prop s x).
Proof.
  induction cols as [|c rest IH]; intros s Hna Hdec.
  - exists s. cbn [Sequelize.forEach]. unfold Sequelize.pure.
    split; [reflexivity|]. split; [reflexivity|]. split; [reflexivity|].
    split; [reflexivity|]. split; [intros c []|]. reflexivity.
  - set (s1 := {| Sequelize.draws := Sequelize.draws s;
                  Sequelize.this :=
                    Sequelize.with_properties
                      (Sequelize.this s)
                      (Sequelize.set (Sequelize.properties (Sequelize.this s))
                                     c (plain c)) |}).
    assert (Hrun : Sequelize.afterFind_column o k c s = (s1, Ok tt)).
    { unfold Sequelize.afterFind_column. hook_unfold.
      pose proof (Hdec c (or_introl eq_refl)) as Hc.
      destruct (prop s (Sequelize.encrypted_ c)) as [| |n|envelope].
      4: { destruct Hc as (p & Hp & Hpl). unfold s1. rewrite Hp, Hpl.
           reflexivity. }
      all: unfold s1; rewrite Hc; reflexivity. }
    assert (G : forall x, prop s1 x = if string_eqb c x then plain c else prop s x).
    { intro x. unfold Sequelize.property.
      cbn [s1 Sequelize.this Sequelize.with_properties Sequelize.properties].
      apply get_set. }
    destruct (IH s1) as (s' & Hloop & F1 & F2 & F3 & Hcol & Hframe).
    { intros a b Ha Hb. apply Hna; right; assumption. }
    { intros c' Hc'.
      destruct (Hna c' c (or_intror Hc') (or_introl eq_refl)) as [H1 H2].
      rewrite !G.
      rewrite (string_eqb_neq c (Sequelize.encrypted_ c')) by exact H2.
      rewrite (string_eqb_neq c idc) by exact H1.
      apply Hdec. right. exact Hc'. }
    exists s'. cbn [Sequelize.forEach]. unfold Sequelize.and_then at 1.
    rewrite Hrun, Hloop.
    split; [reflexivity|].
    split; [rewrite F1; reflexivity|].
    split; [rewrite F2; reflexivity|].
    split; [rewrite F3; reflexivity|].
    split.
    + intros c0 Hc0.
      destruct (in_dec (list_eq_dec Z.eq_dec) c0 rest) as [Hin|Hout].
      * apply Hcol, Hin.
      * destruct Hc0 as [<-|Hc0]; [|contradiction].
        rewrite (Hframe c Hout), G, string_eqb_refl. reflexivity.
    + intros x Hx. rewrite Hframe.
      * rewrite G, string_eqb_neq; [reflexivity|].
        intro E. apply Hx. left. exact E.
      * intro Hin. apply Hx. right. exact Hin.
Qed.

End AfterFindLoop.

(** ** The keyring, as the hooks use it *)

Lemma keyring_encrypts (raw : keymap) (opts : Options) (k : Keyring) :
  keymap_ok raw -> keyring raw opts = Ok k ->
  exists alg s n key N,
    options k = {| encryption := Some alg; salt := Some s |}
    /\ salt opts = Some s
    /\ keySizes alg = Some n
    /\ currentKey (keys k) = Ok key /\ In key (keys k)
    /\ id key = Some N /\ key_ok n key
    /\ Keyring_currentId k = Ok (Some N)
    /\ forall iv p,
         is_block iv ->
         Keyring_encrypt k iv (VString p)
         = Ok (Base64.encode (tag_of key iv (ciphertext_of alg key iv p) ++ iv
                                ++ ciphertext_of alg key iv p),
               Some N, digest_of p s)
         /\ sha1 (VString p) (salt opts) = Ok (digest_of p s).
Proof.
  intros Hm Hk.
  destruct (keyring_current raw opts k Hm Hk)
    as (alg & s & n & key & N & Ho & Hs & Hn & _ & _ & Hc & Hin & HN & Hkey & _).
  exists alg, s, n, key, N. repeat (split; [assumption|]).
  split.
  { unfold Keyring_currentId. rewrite Hc. cbn [rbind]. rewrite HN. reflexivity. }
  intros iv p Hi. split.
  - unfold Keyring_encrypt. rewrite Ho, <- HN.
    apply (encrypt_eq (keys k) alg s n key iv p Hc Hn Hkey (proj1 Hi)).
  - rewrite Hs. reflexivity.
Qed.

Lemma findKey_string (ks : list Key) (key : Key) (z : Z) :
  NoDup (map id ks) -> In key ks -> id key = Some z ->
  findKey ks (VString (number_to_string (Some z))) = Ok key.
Proof.
  intros Hnd Hin Hid. rewrite findKey_unfold. cbn [ToString].
  rewrite parseInt_number_to_string.
  rewrite (find_by_id ks key z Hnd Hin Hid). reflexivity.
Qed.

(** An envelope made with a key of the keyring is decrypted by the keyring
    when the id of that key is handed over. *)
Lemma Keyring_decrypt_envelope (k : Keyring) (alg s : list Z) (n : nat)
      (key : Key) (N : Z) (iv p : list Z) :
  options k = {| encryption := Some alg; salt := Some s |} ->
  keySizes alg = Some n -> key_ok n key -> In key (keys k) ->
  id key = Some N -> NoDup (map id (keys k)) ->
  is_block iv -> jsstring_ok p ->
  outcome (Keyring_decrypt
             k
             (Base64.encode (tag_of key iv (ciphertext_of alg key iv p) ++ iv
                               ++ ciphertext_of alg key iv p))
             (VString (number_to_string (Some N))))
  = Ok (Utf8.decode (Utf8.encode p)).
Proof.
  intros Ho Hn Hkey Hin HN Hnd Hi Hp.
  rewrite (Keyring_decrypt_found k key _ _ (findKey_string _ key N Hnd Hin HN)).
  rewrite Ho.
  rewrite (decrypt_envelope alg (Some s) n key
             (tag_of key iv (ciphertext_of alg key iv p)) iv p Hn Hkey Hi Hp
             (hmacDigest_length _ _) (hmacDigest_ok _ _)).
  cbn [outcome snd]. rewrite verifySignature_refl. reflexivity.
Qed.

(** ** A key map expanded with a key of a greater id *)

Lemma keyring_expand (l1 l2 : keymap) (name : list Z) (secret : jsval)
      (opts : Options) (k k' : Keyring) (N : Z) :
  keymap_ok (l1 ++ (name, secret) :: l2) ->
  keyring (l1 ++ l2) opts = Ok k ->
  keyring (l1 ++ (name, secret) :: l2) opts = Ok k' ->
  NoDup (map id (keys k)) ->
  Keyring_currentId k = Ok (Some N) ->
  parseInt name = Some (N + 1) ->
  options k' = options k
  /\ (forall x, In x (keys k) -> In x (keys k'))
  /\ NoDup (map id (keys k'))
  /\ Keyring_currentId k' = Ok (Some (N + 1)).
Proof.
  intros Hm' Hk Hk' Hnd Hcur Hname.
  pose proof (keymap_ok_remove l1 l2 _ Hm') as Hm.
  destruct (keyring_current _ opts k Hm Hk)
    as (alg & s & n & key & N0 & Ho & _ & Hn & Hnk & _ & Hc & Hin & HN & Hkey & Hmax).
  destruct (keyring_current _ opts k' Hm' Hk')
    as (alg' & s' & n' & key' & N' & Ho' & _ & Hn' & Hnk' & Hok' & Hc' & Hin' & HN'
        & Hkey' & Hmax').
  assert (N0 = N) as ->.
  { unfold Keyring_currentId in Hcur. rewrite Hc in Hcur. cbn [rbind] in Hcur.
    congruence. }
  pose proof (keyring_same_options _ _ opts k k' Hk Hk') as Hsame.
  rewrite Ho, Ho' in Hsame. injection Hsame as <- <-.
  assert (n' = n) as -> by congruence.
  apply normalizeKeys_app in Hnk. destruct Hnk as (ka & kb & Ha & Hb & Ek).
  apply normalizeKeys_app in Hnk'. destruct Hnk' as (ka' & kb' & Ha' & Hb' & Ek').
  assert (ka' = ka) as -> by congruence.
  change ((name, secret) :: l2) with ([(name, secret)] ++ l2) in Hb'.
  apply normalizeKeys_app in Hb'. destruct Hb' as (kn & kb'' & Hn1 & Hb'' & ->).
  assert (kb'' = kb) as -> by congruence.
  destruct (normalizeKeys_inv [(name, secret)] n kn Hn1) as (Hid & _ & _).
  destruct kn as [|knew [|? ?]]; try discriminate Hid.
  cbn [map fst] in Hid. injection Hid as Hid. rewrite Hname in Hid.
  cbn [app] in Ek'.
  assert (Hnew : In knew (keys k')) by (rewrite Ek'; apply in_elt).
  assert (Hsub : forall x, In x (keys k) -> In x (keys k')).
  { intros x Hx. rewrite Ek in Hx. rewrite Ek'.
    apply in_app_or in Hx. apply in_or_app. cbn [In]. tauto. }
  assert (Hni : ~ In (id knew) (map id (ka ++ kb))).
  { rewrite Hid. intro Hx. apply in_map_iff in Hx. destruct Hx as (x & Hx1 & Hx2).
    rewrite <- Ek in Hx2. specialize (Hmax x (N + 1) Hx2 Hx1). lia. }
  assert (Hnd' : NoDup (map id (keys k'))).
  { rewrite Ek'. apply NoDup_ids_insert; [rewrite <- Ek; exact Hnd | exact Hni]. }
  assert (N' = N + 1) as ->.
  { pose proof (Hmax' knew (N + 1) Hnew Hid) as Hge.
    rewrite Ek' in Hin'. apply in_app_or in Hin'.
    assert (Hcases : key' = knew \/ In key' (keys k)).
    { rewrite Ek. destruct Hin' as [H | [H | H]]; auto using in_or_app. }
    destruct Hcases as [-> | Hold]; [congruence|].
    specialize (Hmax key' N' Hold HN'). lia. }
  split; [rewrite Ho, Ho'; reflexivity|].
  split; [exact Hsub|]. split; [exact Hnd'|].
  unfold Keyring_currentId. rewrite Hc'. cbn [rbind]. rewrite HN'. reflexivity.
Qed.

Lemma with_keys_options (record : Sequelize.Instance)
      (o : Sequelize.KeyringOptions) (keys' : keymap) :
  Sequelize.options_keyring (Sequelize.getModelOptions record) = Some o ->
  Sequelize.options_keyring (Sequelize.getModelOptions (with_keys record keys'))
  = Some (rekeyed o keys').
Proof.
  unfold Sequelize.getModelOptions, with_keys.
  cbn [Sequelize._modelOptions Sequelize.constructor' Sequelize.model_options].
  destruct (Sequelize._modelOptions record) as [m|];
    cbn [option_map Sequelize.options_keyring]; intros ->; reflexivity.
Qed.

(** ** The rounds of a hook *)



(** ** sequelize.js *)

Lemma beforeSave_start (randomBytes : nat -> list Z) (s : Sequelize.state)
      (o : Sequelize.KeyringOptions) (k : Keyring) :
  Sequelize.options_keyring (Sequelize.getModelOptions (Sequelize.this s))
  = Some o ->
  Sequelize.Keyring_of o = Ok k ->
  Sequelize.beforeSave randomBytes s
  = Sequelize.forEach (Sequelize.keyring_columns o)
                      (Sequelize.beforeSave_column randomBytes o k) s.
Proof.
  intros Ho Hk. unfold Sequelize.beforeSave. hook_unfold.
  rewrite Ho, Hk. reflexivity.
Qed.

Lemma afterFind_start (record : Sequelize.Instance)
      (o : Sequelize.KeyringOptions) (k : Keyring) :
  Sequelize.options_keyring (Sequelize.getModelOptions record) = Some o ->
  Sequelize.Keyring_of o = Ok k ->
  Sequelize.afterFind (Sequelize.One record)
  = let '(s, r) :=
      Sequelize.forEach (Sequelize.keyring_columns o)
                        (Sequelize.afterFind_column o k)
                        {| Sequelize.draws := 0; Sequelize.this := record |} in
    (Sequelize.One (Sequelize.this s), r).
Proof.
  intros Ho Hk. cbn [Sequelize.afterFind].
  unfold Sequelize.afterFind_record. hook_unfold.
  cbn [Sequelize.this]. rewrite Ho, Hk. reflexivity.
Qed.

Lemma getModelOptions_frame (r r' : Sequelize.Instance) :
  Sequelize._modelOptions r' = Sequelize._modelOptions r ->
  Sequelize.constructor' r' = Sequelize.constructor' r ->
  Sequelize.getModelOptions r' = Sequelize.getModelOptions r.
Proof.
  intros H1 H2. unfold Sequelize.getModelOptions. rewrite H1, H2. reflexivity.
Qed.

Lemma attribute_names_frame (r r' : Sequelize.Instance) :
  Sequelize.constructor' r' = Sequelize.constructor' r ->
  Sequelize.attributes r' = Sequelize.attributes r ->
  Sequelize.attribute_names r' = Sequelize.attribute_names r.
Proof.
  intros H1 H2. unfold Sequelize.attribute_names. rewrite H1, H2. reflexivity.
Qed.

(** X14. What [beforeSave] writes.  On a record of a model whose keyring
    options make a keyring, with names that do not collide and of which
    none is a structural name of the record ([_modelOptions],
    [constructor], [attributes]) or a name every object inherits,
    [beforeSave] does not throw and leaves every column as it was.  For a column that
    holds a string it stores an envelope that [encrypt] returned for it in
    [encrypted_column], the id of the current key in the id column and, if
    the record has the attribute [column_digest], the digest that
    [sha1(value, { salt })] gives.  For any other value it stores [null] in
    [encrypted_column] and in the digest.  A [column_digest] that is no
    attribute is left alone, as is every property with another name; when
    no column holds a string the id column keeps a truthy value and
    receives the id of the current key otherwise. *)
Theorem X14_beforeSave_writes
        (randomBytes : nat -> list Z) (record : Sequelize.Instance)
        (o : Sequelize.KeyringOptions) (k : Keyring) :
  Sequelize.options_keyring (Sequelize.getModelOptions record) = Some o ->
  keymap_ok (Sequelize.keyring_keys o) ->
  Sequelize.Keyring_of o = Ok k ->
  (forall n, is_block (randomBytes n)) ->
  names_apart (Sequelize.keyring_columns o) (Sequelize.keyringIdColumn o) ->
  names_plain (Sequelize.keyring_columns o) (Sequelize.keyringIdColumn o) ->
  exists saved d N,
    Sequelize.beforeSave randomBytes
                         {| Sequelize.draws := 0; Sequelize.this := record |}
    = ({| Sequelize.draws := d; Sequelize.this := saved |}, Ok tt)
    /\ Keyring_currentId k = Ok (Some N)
    /\ (forall column,
          In column (Sequelize.keyring_columns o) ->
          Sequelize.property saved column = Sequelize.property record column
          /\ match Sequelize.property record column with
             | Sequelize.Str message =>
                 exists i envelope digest,
                   Keyring_encrypt k (randomBytes i) (VString message)
                   = Ok (envelope, Some N, digest)
                   /\ sha1 (VString message) (Sequelize.keyring_salt o)
                      = Ok digest
                   /\ Sequelize.property saved (Sequelize.encrypted_ column)
                      = Sequelize.Str envelope
                   /\ Sequelize.property saved (Sequelize.keyringIdColumn o)
                      = Sequelize.Num (Some N)
                   /\ (In (Sequelize._digest column)
                          (Sequelize.attribute_names record) ->
                       Sequelize.property saved (Sequelize._digest column)
                       = Sequelize.Str digest)
             | _ =>
                 Sequelize.property saved (Sequelize.encrypted_ column)
                 = Sequelize.Null
                 /\ (In (Sequelize._digest column)
                        (Sequelize.attribute_names record) ->
                     Sequelize.property saved (Sequelize._digest column)
                     = Sequelize.Null)
             end
          /\ (~ In (Sequelize._digest column)
                   (Sequelize.attribute_names record) ->
              Sequelize.property saved (Sequelize._digest column)
              = Sequelize.property record (Sequelize._digest column)))
    /\ (Sequelize.keyring_columns o <> [] ->
        (forall column,
            In column (Sequelize.keyring_columns o) ->
            Sequelize.isString (Sequelize.property record column) = false) ->
        Sequelize.property saved (Sequelize.keyringIdColumn o)
        = id_or (Sequelize.property record (Sequelize.keyringIdColumn o)) N)
    /\ (forall name,
          (forall c, In c (Sequelize.keyring_columns o) ->
                     name <> Sequelize.encrypted_ c
                     /\ name <> Sequelize._digest c) ->
          name <> Sequelize.keyringIdColumn o ->
          Sequelize.property saved name = Sequelize.property record name).
Proof.
  intros Ho Hm Hk Hrng Hna _.
  destruct (keyring_encrypts _ _ k Hm Hk)
    as (alg & s & n & key & N & _ & _ & _ & _ & _ & _ & _ & Hcur & Henc).
  cbn [salt] in Henc.
  destruct (beforeSave_loop randomBytes o k N Hcur
              (fun iv p Hi => ex_intro _ _ (ex_intro _ _ (Henc iv p Hi))) Hrng
              (Sequelize.keyring_columns o)
              {| Sequelize.draws := 0; Sequelize.this := record |} Hna)
    as ([d saved] & Hloop & _ & _ & _ & Hframe & Hdig & Hcol & Hid1 & Hid2).
  cbn [Sequelize.this] in *.
  exists saved, d, N.
  split; [rewrite (beforeSave_start
                      randomBytes
                      {| Sequelize.draws := 0; Sequelize.this := record |}
                      o k Ho Hk);
          exact Hloop|].
  split; [exact Hcur|].
  split; [|split; [exact Hid2 | exact Hframe]].
  intros column Hc.
  split.
  { apply Hframe.
    - intros c Hc'. destruct (Hna c column Hc' Hc) as (H1 & H2 & _). auto.
    - apply (Hna column column Hc Hc). }
  split; [|apply Hdig; exact Hc].
  pose proof (Hcol column Hc) as H.
  destruct (Sequelize.property record column) as [| |x|message] eqn:Ev;
    try exact H.
  destruct H as (i & envelope & digest & He & Hd & H1 & H2).
  exists i, envelope, digest. repeat (split; [assumption|]).
  split; [|exact H2].
  apply Hid1. exists column. rewrite Ev. auto.
Qed.

Lemma john_names_apart :
  names_apart (Sequelize.keyring_columns users_keyring)
              (Sequelize.keyringIdColumn users_keyring).
Proof. apply names_apart_check_ok. vm_compute. reflexivity. Defined.

Lemma john_names_plain :
  names_plain (Sequelize.keyring_columns users_keyring)
              (Sequelize.keyringIdColumn users_keyring).
Proof. apply names_plain_check_ok. vm_compute. reflexivity. Defined.

Lemma users_keys_ok : keymap_ok (Sequelize.keyring_keys users_keyring).
Proof.
  split.
  - constructor; [intros [] | constructor].
  - constructor; [apply units_check_ok; vm_compute; reflexivity | constructor].
Defined.

Lemma X14_witness :
  exists saved d N,
    Sequelize.beforeSave test_draws
                         {| Sequelize.draws := 0; Sequelize.this := john |}
    = ({| Sequelize.draws := d; Sequelize.this := saved |}, Ok tt)
    /\ Keyring_currentId example_keyring = Ok (Some N)
    /\ (forall column,
          In column (Sequelize.keyring_columns users_keyring) ->
          Sequelize.property saved column = Sequelize.property john column
          /\ match Sequelize.property john column with
             | Sequelize.Str message =>
                 exists i envelope digest,
                   Keyring_encrypt example_keyring (test_draws i)
                                   (VString message)
                   = Ok (envelope, Some N, digest)
                   /\ sha1 (VString message)
                           (Sequelize.keyring_salt users_keyring)
                      = Ok digest
                   /\ Sequelize.property saved (Sequelize.encrypted_ column)
                      = Sequelize.Str envelope
                   /\ Sequelize.property
                        saved (Sequelize.keyringIdColumn users_keyring)
                      = Sequelize.Num (Some N)
                   /\ (In (Sequelize._digest column)
                          (Sequelize.attribute_names john) ->
                       Sequelize.property saved (Sequelize._digest column)
                       = Sequelize.Str digest)
             | _ =>
                 Sequelize.property saved (Sequelize.encrypted_ column)
                 = Sequelize.Null
                 /\ (In (Sequelize._digest column)
                        (Sequelize.attribute_names john) ->
                     Sequelize.property saved (Sequelize._digest column)
                     = Sequelize.Null)
             end
          /\ (~ In (Sequelize._digest column)
                   (Sequelize.attribute_names john) ->
              Sequelize.property saved (Sequelize._digest column)
              = Sequelize.property john (Sequelize._digest column)))
    /\ (Sequelize.keyring_columns users_keyring <> [] ->
        (forall column,
            In column (Sequelize.keyring_columns users_keyring) ->
            Sequelize.isString (Sequelize.property john column) = false) ->
        Sequelize.property saved (Sequelize.keyringIdColumn users_keyring)
        = id_or (Sequelize.property
                   john (Sequelize.keyringIdColumn users_keyring)) N)
    /\ (forall name,
          (forall c, In c (Sequelize.keyring_columns users_keyring) ->
                     name <> Sequelize.encrypted_ c
                     /\ name <> Sequelize._digest c) ->
          name <> Sequelize.keyringIdColumn users_keyring ->
          Sequelize.property saved name = Sequelize.property john name).
Proof.
  apply (X14_beforeSave_writes test_draws john users_keyring
           example_keyring).
  - reflexivity.
  - exact users_keys_ok.
  - reflexivity.
  - intro n. exact test_iv_block.
  - exact john_names_apart.
  - exact john_names_plain.
Defined.

(** X15. Saving and finding again: when the ids of the keyring are pairwise
    distinct safe integers, the names do not collide, none of them is a
    structural or inherited name, and the strings of the columns have no
    unpaired surrogate, [afterFind] on the record [beforeSave] has left does
    not throw and
    gives every column that held a string that string back; a column that
    held anything else (a number, [undefined]) comes back as [null]. *)
Theorem X15_save_then_find
        (randomBytes : nat -> list Z) (record : Sequelize.Instance)
        (o : Sequelize.KeyringOptions) (k : Keyring) :
  Sequelize.options_keyring (Sequelize.getModelOptions record) = Some o ->
  keymap_ok (Sequelize.keyring_keys o) ->
  Sequelize.Keyring_of o = Ok k ->
  NoDup (map id (keys k)) -> safe_ids (keys k) ->
  (forall n, is_block (randomBytes n)) ->
  names_apart (Sequelize.keyring_columns o) (Sequelize.keyringIdColumn o) ->
  names_plain (Sequelize.keyring_columns o) (Sequelize.keyringIdColumn o) ->
  columns_ok record (Sequelize.keyring_columns o) ->
  exists saved d loaded,
    Sequelize.beforeSave randomBytes
                         {| Sequelize.draws := 0; Sequelize.this := record |}
    = ({| Sequelize.draws := d; Sequelize.this := saved |}, Ok tt)
    /\ Sequelize.afterFind (Sequelize.One saved) = (Sequelize.One loaded, Ok tt)
    /\ (forall column,
          In column (Sequelize.keyring_columns o) ->
          Sequelize.property loaded column
          = restored (Sequelize.property record column))
    /\ (forall name,
          ~ In name (Sequelize.keyring_columns o) ->
          Sequelize.property loaded name = Sequelize.property saved name).
Proof.
  intros Ho Hm Hk Hnd _ Hrng Hna _ Hok.
  destruct (keyring_encrypts _ _ k Hm Hk)
    as (alg & s & n & key & N & Hopt & _ & Hn & _ & Hin & HN & Hkey & Hcur & Henc).
  cbn [salt] in Henc.
  destruct (beforeSave_loop randomBytes o k N Hcur
              (fun iv p Hi => ex_intro _ _ (ex_intro _ _ (Henc iv p Hi))) Hrng
              (Sequelize.keyring_columns o)
              {| Sequelize.draws := 0; Sequelize.this := record |} Hna)
    as ([d saved] & Hloop & F1 & F2 & F3 & Hframe & _ & Hcol & Hid1 & _).
  cbn [Sequelize.this] in *.
  assert (Ho' : Sequelize.options_keyring (Sequelize.getModelOptions saved)
                = Some o).
  { rewrite (getModelOptions_frame record saved F1 F2). exact Ho. }
  destruct (afterFind_loop
              o k (fun c => restored (Sequelize.property record c))
              (Sequelize.keyring_columns o)
              {| Sequelize.draws := 0; Sequelize.this := saved |})
    as ([d' loaded] & Hfind & _ & _ & _ & Hplain & Hrest).
  { intros c c' Hc Hc'. destruct (Hna c c' Hc Hc') as (H1 & _).
    destruct (Hna c' c' Hc' Hc') as (_ & _ & H3 & _). auto. }
  { intros c Hc. cbn [Sequelize.this].
    pose proof (Hcol c Hc) as H.
    destruct (Sequelize.property record c) as [| |x|message] eqn:Ev.
    1-3: destruct H as [-> _]; reflexivity.
    destruct H as (i & envelope & digest & He & _ & -> & _).
    destruct (Hok c message Hc Ev) as [Hp Hwf].
    rewrite (proj1 (Henc (randomBytes i) message (Hrng i))) in He.
    injection He as <- _.
    rewrite Hid1 by (exists c; rewrite Ev; auto).
    cbn [Sequelize.ToString].
    exists message. split; [|reflexivity].
    rewrite (Keyring_decrypt_envelope k alg s n key N (randomBytes i) message
               Hopt Hn Hkey Hin HN Hnd (Hrng i) Hp).
    rewrite (utf8_decode_encode message Hp Hwf). reflexivity. }
  cbn [Sequelize.this] in *.
  exists saved, d, loaded.
  split; [rewrite (beforeSave_start
                      randomBytes
                      {| Sequelize.draws := 0; Sequelize.this := record |}
                      o k Ho Hk);
          exact Hloop|].
  split; [rewrite (afterFind_start saved o k Ho' Hk), Hfind; reflexivity|].
  split; [exact Hplain | exact Hrest].
Qed.

Lemma example_keyring_ids : NoDup (map id (keys example_keyring)).
Proof. constructor; [intros [] | constructor]. Defined.

Lemma example_keyring_safe : safe_ids (keys example_keyring).
Proof.
  constructor; [cbn; unfold safe_integer; split; reflexivity | constructor].
Defined.

Lemma john_columns_ok :
  columns_ok john (Sequelize.keyring_columns users_keyring).
Proof.
  intros column message [<- | [<- | []]] E; vm_compute in E;
    injection E as <-;
    (split; [apply units_check_ok|]); vm_compute; reflexivity.
Defined.

Lemma X15_witness :
  exists saved d loaded,
    Sequelize.beforeSave test_draws
                         {| Sequelize.draws := 0; Sequelize.this := john |}
    = ({| Sequelize.draws := d; Sequelize.this := saved |}, Ok tt)
    /\ Sequelize.afterFind (Sequelize.One saved) = (Sequelize.One loaded, Ok tt)
    /\ (forall column,
          In column (Sequelize.keyring_columns users_keyring) ->
          Sequelize.property loaded column
          = restored (Sequelize.property john column))
    /\ (forall name,
          ~ In name (Sequelize.keyring_columns users_keyring) ->
          Sequelize.property loaded name = Sequelize.property saved name).
Proof.
  apply (X15_save_then_find test_draws john users_keyring
           example_keyring).
  - reflexivity.
  - exact users_keys_ok.
  - reflexivity.
  - exact example_keyring_ids.
  - exact example_keyring_safe.
  - intro n. exact test_iv_block.
  - exact john_names_apart.
  - exact john_names_plain.
  - exact john_columns_ok.
Defined.

(** X16. Rotation through the hooks, for ids that are pairwise distinct
    safe integers and names that do not collide and are not structural.  A
    record is saved while the greatest id of the key map is [N]; the caller
    then adds a key of id [N + 1] to the map.  [afterFind] with the expanded map still gives back the
    strings of the columns, and the next [beforeSave] stores, for every
    column that holds a string, an envelope made with the new key and the
    id [N + 1] in the id column. *)
Theorem X16_rotation_through_the_hooks
        (randomBytes randomBytes' : nat -> list Z) (record : Sequelize.Instance)
        (o : Sequelize.KeyringOptions) (l1 l2 : keymap) (name : list Z)
        (secret : jsval) (k k' : Keyring) (N : Z) :
  Sequelize.options_keyring (Sequelize.getModelOptions record) = Some o ->
  Sequelize.keyring_keys o = l1 ++ l2 ->
  keymap_ok (l1 ++ (name, secret) :: l2) ->
  Sequelize.Keyring_of o = Ok k ->
  Sequelize.Keyring_of (rekeyed o (l1 ++ (name, secret) :: l2)) = Ok k' ->
  NoDup (map id (keys k)) -> safe_ids (keys k') ->
  Keyring_currentId k = Ok (Some N) ->
  parseInt name = Some (N + 1) ->
  (forall n, is_block (randomBytes n)) ->
  (forall n, is_block (randomBytes' n)) ->
  names_apart (Sequelize.keyring_columns o) (Sequelize.keyringIdColumn o) ->
  names_plain (Sequelize.keyring_columns o) (Sequelize.keyringIdColumn o) ->
  columns_ok record (Sequelize.keyring_columns o) ->
  exists saved d loaded resaved d',
    Sequelize.beforeSave randomBytes
                         {| Sequelize.draws := 0; Sequelize.this := record |}
    = ({| Sequelize.draws := d; Sequelize.this := saved |}, Ok tt)
    /\ Sequelize.afterFind
         (Sequelize.One (with_keys saved (l1 ++ (name, secret) :: l2)))
       = (Sequelize.One loaded, Ok tt)
    /\ Sequelize.beforeSave randomBytes'
                            {| Sequelize.draws := 0; Sequelize.this := loaded |}
       = ({| Sequelize.draws := d'; Sequelize.this := resaved |}, Ok tt)
    /\ forall column,
         In column (Sequelize.keyring_columns o) ->
         Sequelize.property loaded column
         = restored (Sequelize.property record column)
         /\ match Sequelize.property record column with
            | Sequelize.Str message =>
                Sequelize.property saved (Sequelize.keyringIdColumn o)
                = Sequelize.Num (Some N)
                /\ Sequelize.property resaved (Sequelize.keyringIdColumn o)
                   = Sequelize.Num (Some (N + 1))
                /\ exists i envelope digest,
                     Keyring_encrypt k' (randomBytes' i) (VString message)
                     = Ok (envelope, Some (N + 1), digest)
                     /\ Sequelize.property resaved (Sequelize.encrypted_ column)
                        = Sequelize.Str envelope
            | _ =>
                Sequelize.property resaved (Sequelize.encrypted_ column)
                = Sequelize.Null
            end.
Proof.
  intros Ho Hkeys Hm' Hk Hk' Hnd _ Hcur Hname Hrng Hrng' Hna _ Hok.
  set (keys' := l1 ++ (name, secret) :: l2) in *.
  set (o' := rekeyed o keys') in *.
  pose proof (keymap_ok_remove l1 l2 _ Hm') as Hm. rewrite <- Hkeys in Hm.
  destruct (keyring_encrypts _ _ k Hm Hk)
    as (alg & s & n & key & N0 & Hopt & _ & Hn & _ & Hin & HN & Hkey & Hcur0 & Henc).
  assert (N0 = N) as -> by congruence.
  cbn [salt] in Henc.
  assert (Hm'' : keymap_ok (Sequelize.keyring_keys o')) by exact Hm'.
  destruct (keyring_encrypts _ _ k' Hm'' Hk')
    as (alg' & s' & n' & key' & N' & _ & _ & _ & _ & _ & _ & _ & Hcur1 & Henc').
  cbn [salt] in Henc'.
  assert (Hex : options k' = options k
                /\ (forall x, In x (keys k) -> In x (keys k'))
                /\ NoDup (map id (keys k'))
                /\ Keyring_currentId k' = Ok (Some (N + 1))).
  { unfold Sequelize.Keyring_of in Hk, Hk'. rewrite Hkeys in Hk.
    exact (keyring_expand l1 l2 name secret _ k k' N Hm' Hk Hk' Hnd Hcur Hname). }
  destruct Hex as (Hsame & Hsub & Hnd' & Hcur').
  assert (N' = N + 1) as -> by congruence.
  (* the first save *)
  destruct (beforeSave_loop randomBytes o k N Hcur
              (fun iv p Hi => ex_intro _ _ (ex_intro _ _ (Henc iv p Hi))) Hrng
              (Sequelize.keyring_columns o)
              {| Sequelize.draws := 0; Sequelize.this := record |} Hna)
    as ([d saved] & Hloop & F1 & F2 & F3 & _ & _ & Hcol & Hid1 & _).
  cbn [Sequelize.this] in *.
  assert (Hos : Sequelize.options_keyring (Sequelize.getModelOptions saved)
                = Some o).
  { rewrite (getModelOptions_frame record saved F1 F2). exact Ho. }
  (* the find with the expanded map *)
  pose proof (with_keys_options saved o keys' Hos) as Ho2. fold o' in Ho2.
  destruct (afterFind_loop
              o' k' (fun c => restored (Sequelize.property record c))
              (Sequelize.keyring_columns o)
              {| Sequelize.draws := 0; Sequelize.this := with_keys saved keys' |})
    as ([d2 loaded] & Hfind & G1 & G2 & G3 & Hplain & _).
  { intros c c' Hc Hc'. destruct (Hna c c' Hc Hc') as (H1 & _).
    destruct (Hna c' c' Hc' Hc') as (_ & _ & H3 & _). auto. }
  { intros c Hc. cbn [Sequelize.this].
    change (Sequelize.property (with_keys saved keys'))
      with (Sequelize.property saved).
    change (Sequelize.keyringIdColumn o') with (Sequelize.keyringIdColumn o).
    pose proof (Hcol c Hc) as H.
    destruct (Sequelize.property record c) as [| |x|message] eqn:Ev.
    1-3: destruct H as [-> _]; reflexivity.
    destruct H as (i & envelope & digest & He & _ & -> & _).
    destruct (Hok c message Hc Ev) as [Hp Hwf].
    rewrite (proj1 (Henc (randomBytes i) message (Hrng i))) in He.
    injection He as <- _.
    rewrite Hid1 by (exists c; rewrite Ev; auto).
    cbn [Sequelize.ToString].
    exists message. split; [|reflexivity].
    rewrite (Keyring_decrypt_envelope k' alg s n key N (randomBytes i) message
               (eq_trans Hsame Hopt) Hn Hkey (Hsub key Hin) HN Hnd' (Hrng i) Hp).
    rewrite (utf8_decode_encode message Hp Hwf). reflexivity. }
  cbn [Sequelize.this] in *.
  assert (Hol : Sequelize.options_keyring (Sequelize.getModelOptions loaded)
                = Some o').
  { rewrite (getModelOptions_frame (with_keys saved keys') loaded G1 G2).
    exact Ho2. }
  (* the second save *)
  destruct (beforeSave_loop randomBytes' o' k' (N + 1) Hcur'
              (fun iv p Hi => ex_intro _ _ (ex_intro _ _ (Henc' iv p Hi))) Hrng'
              (Sequelize.keyring_columns o)
              {| Sequelize.draws := 0; Sequelize.this := loaded |} Hna)
    as ([d' resaved] & Hloop' & _ & _ & _ & _ & _ & Hcol' & Hid1' & _).
  cbn [Sequelize.this] in *.
  exists saved, d, loaded, resaved, d'.
  split; [rewrite (beforeSave_start
                      randomBytes
                      {| Sequelize.draws := 0; Sequelize.this := record |}
                      o k Ho Hk);
          exact Hloop|].
  split; [rewrite (afterFind_start _ o' k' Ho2 Hk');
          change (Sequelize.keyring_columns o')
            with (Sequelize.keyring_columns o);
          rewrite Hfind; reflexivity|].
  split; [rewrite (beforeSave_start
                      randomBytes'
                      {| Sequelize.draws := 0; Sequelize.this := loaded |}
                      o' k' Hol Hk');
          exact Hloop'|].
  intros column Hc. split; [apply Hplain, Hc|].
  pose proof (Hcol' column Hc) as H. rewrite (Hplain column Hc) in H.
  destruct (Sequelize.property record column) as [| |x|message] eqn:Ev;
    cbn [restored] in H; try apply H.
  destruct H as (i & envelope & digest & He & _ & H1 & _).
  split; [apply Hid1; exists column; rewrite Ev; auto|].
  split.
  - apply Hid1'. exists column. rewrite (Hplain column Hc), Ev. auto.
  - exists i, envelope, digest. auto.
Qed.

Lemma second_keys_ok :
  keymap_ok ([(js "1", VString test_secret_128)]
               ++ (js "2", VString second_secret) :: []).
Proof.
  split.
  - constructor; [intros [H | []]; discriminate H|].
    constructor; [intros [] | constructor].
  - constructor; [apply units_check_ok; vm_compute; reflexivity|].
    constructor; [apply units_check_ok; vm_compute; reflexivity | constructor].
Defined.

Lemma second_keyring_safe : safe_ids (keys second_keyring).
Proof.
  constructor; [cbn; unfold safe_integer; split; reflexivity|].
  constructor; [cbn; unfold safe_integer; split; reflexivity | constructor].
Defined.

Lemma X16_witness :
  exists saved d loaded resaved d',
    Sequelize.beforeSave test_draws
                         {| Sequelize.draws := 0; Sequelize.this := john |}
    = ({| Sequelize.draws := d; Sequelize.this := saved |}, Ok tt)
    /\ Sequelize.afterFind
         (Sequelize.One
            (with_keys saved ([(js "1", VString test_secret_128)]
                                ++ (js "2", VString second_secret) :: [])))
       = (Sequelize.One loaded, Ok tt)
    /\ Sequelize.beforeSave test_draws
                            {| Sequelize.draws := 0; Sequelize.this := loaded |}
       = ({| Sequelize.draws := d'; Sequelize.this := resaved |}, Ok tt)
    /\ forall column,
         In column (Sequelize.keyring_columns users_keyring) ->
         Sequelize.property loaded column
         = restored (Sequelize.property john column)
         /\ match Sequelize.property john column with
            | Sequelize.Str message =>
                Sequelize.property saved (Sequelize.keyringIdColumn users_keyring)
                = Sequelize.Num (Some 1)
                /\ Sequelize.property
                     resaved (Sequelize.keyringIdColumn users_keyring)
                   = Sequelize.Num (Some (1 + 1))
                /\ exists i envelope digest,
                     Keyring_encrypt second_keyring (test_draws i)
                                     (VString message)
                     = Ok (envelope, Some (1 + 1), digest)
                     /\ Sequelize.property resaved (Sequelize.encrypted_ column)
                        = Sequelize.Str envelope
            | _ =>
                Sequelize.property resaved (Sequelize.encrypted_ column)
                = Sequelize.Null
            end.
Proof.
  apply (X16_rotation_through_the_hooks
           test_draws test_draws john users_keyring
           [(js "1", VString test_secret_128)] [] (js "2")
           (VString second_secret) example_keyring second_keyring 1).
  - reflexivity.
  - reflexivity.
  - exact second_keys_ok.
  - reflexivity.
  - vm_compute. reflexivity.
  - exact example_keyring_ids.
  - exact second_keyring_safe.
  - reflexivity.
  - reflexivity.
  - intro n. exact test_iv_block.
  - intro n. exact test_iv_block.
  - exact john_names_apart.
  - exact john_names_plain.
  - exact john_columns_ok.
Defined.





(** The record [john_found]: the first column is decrypted, the second
    one fails the HMAC check, and [afterFind] throws that error with the
    first column set. *)
Example afterFind_john_found :
  exists partly,
    Sequelize.afterFind (Sequelize.One john_found)
    = (Sequelize.One partly, Err IntegrityError)
    /\ Sequelize.property partly (js "email")
       = Sequelize.Str (js "TESTE SECRETO")
    /\ Sequelize.property partly (js "secret") = Sequelize.Undefined.
Proof.
  eexists. split; [vm_compute; reflexivity|].
  split; vm_compute; reflexivity.
Qed.
